(** * Segment-based masking of phoneme-to-frame alignments

    A shallow embedding of [modules/fastspeech/bbc_mask.py]: the sequential
    kernel [fast_bbc_mask] (Strategy A) and the dense, batched kernel
    [fast_fast_bbc_mask] (Strategy B) with its two helpers
    [compute_segment_info_parallel] and [apply_masks_parallel].

    Conventions of the embedding.
    - A 1-D integer tensor is a [list Z], a 2-D one a list of rows, a 3-D one
      a list of those.  The source never fixes the element type of [mel2ph];
      entries, positions and lengths are mathematical integers.
    - The float tensor of boundary flags that Strategy B accumulates holds
      only the values 0 and 1, and its running sum only small whole numbers:
      it is kept in [Z].
    - [torch.rand] reads a global generator.  The generator is an explicit
      state, an infinite stream of draws; a draw and [mask_prob] are
      rationals and [<] is the exact comparison.
    - [Tensor.max()] of a tensor without elements raises [RuntimeError]; it is
      the one place where the kernels can fail, and the result of Strategy B
      is an [option]. *)

From Stdlib Require Import ZArith List Bool Lia QArith Sorted.
Import ListNotations.
Open Scope Z_scope.

Set Implicit Arguments.

(** ** The tensor operations the kernels use *)

Module Torch.

(** Elementwise binary operation on two tensors of one shape. *)
Definition zip_with {A B C : Type} (f : A -> B -> C)
           (l1 : list A) (l2 : list B) : list C :=
  map (fun ab => f (fst ab) (snd ab)) (combine l1 l2).

Definition zip_with2 {A B C : Type} (f : A -> B -> C)
           (t1 : list (list A)) (t2 : list (list B)) : list (list C) :=
  zip_with (zip_with f) t1 t2.

(** [torch.arange(n)] *)
Definition arange (n : nat) : list Z := map Z.of_nat (seq 0 n).

(** [F.pad(row, [1, 1], value=-1)] along the last axis. *)
Definition pad (r : list Z) : list Z := (-1) :: r ++ [-1].

(** [torch.where(mask)[0]]: the positions that hold [True], in order. *)
Fixpoint where_from (i : Z) (mask : list bool) : list Z :=
  match mask with
  | [] => []
  | b :: rest => if b then i :: where_from (i + 1) rest
                 else where_from (i + 1) rest
  end.

Definition where_ (mask : list bool) : list Z := where_from 0 mask.

(** [t[i]] for an index tensor [i]; every index the kernels build is in
    range (lemma [row_starts_in_range] below), the default never shows. *)
Definition index (t : list Z) (i : Z) : Z := nth (Z.to_nat i) t 0.

(** [t[idx]] with an integer index tensor. *)
Definition index_select (t : list Z) (idx : list Z) : list Z :=
  map (index t) idx.

(** [t[mask]] with a boolean mask of the same length. *)
Definition bool_index {A : Type} (t : list A) (mask : list bool) : list A :=
  map fst (filter snd (combine t mask)).

(** [mask.any()] *)
Definition any (mask : list bool) : bool := existsb (fun b => b) mask.

(** [t.sum()] *)
Definition sum (t : list Z) : Z := fold_right Z.add 0 t.

(** [torch.cumsum(t, dim)] along a row. *)
Fixpoint cumsum_from (acc : Z) (t : list Z) : list Z :=
  match t with
  | [] => []
  | x :: rest => (acc + x) :: cumsum_from (acc + x) rest
  end.

Definition cumsum (t : list Z) : list Z := cumsum_from 0 t.

(** [t.min(dim)[0]] along a row.  The kernels reduce rows of length
    [seq_len >= 1] only: with [seq_len = 0] the earlier [max()] has
    raised. *)
Definition min_ (t : list Z) : Z :=
  match t with
  | [] => 0
  | x :: rest => fold_left Z.min rest x
  end.

(** [t.max()] over all entries of a 2-D tensor; [None] is the
    [RuntimeError] raised for a tensor without elements. *)
Definition max_all (t : list (list Z)) : option Z :=
  match concat t with
  | [] => None
  | x :: rest => Some (fold_left Z.max rest x)
  end.

(** A bound of a Python slice clamped to the length of the axis. *)
Definition slice_bound (len i : Z) : Z :=
  if i <? 0 then Z.max 0 (i + len) else Z.min i len.

(** [row[a:e] = v] *)
Definition set_slice (a e v : Z) (r : list Z) : list Z :=
  let len := Z.of_nat (length r) in
  let lo := slice_bound len a in
  let hi := slice_bound len e in
  zip_with (fun i x => if (lo <=? i) && (i <? hi) then v else x)
           (arange (length r)) r.

(** The state of the global generator and [torch.rand(n)]. *)
Definition rng : Type := nat -> Q.

Definition rand (n : nat) (g : rng) : list Q * rng :=
  (map g (seq 0 n), fun i => g (n + i)%nat).

(** [torch.rand_like(t)] for a 2-D tensor: one draw per entry, row-major. *)
Definition rand_like {A : Type} (t : list (list A)) (g : rng)
  : list (list Q) * rng :=
  let rows := length t in
  let cols := length (hd [] t) in
  let (r, g') := rand (rows * cols) g in
  (map (fun b => map (fun s => nth (b * cols + s) r 0%Q) (seq 0 cols))
       (seq 0 rows), g').

(** [draw < mask_prob] *)
Definition Qltb (x y : Q) : bool := negb (Qle_bool y x).

End Torch.

Import Torch.

(** ** What both kernels start with *)

(** [torch.where(mel2ph > 0, mel2ph + 1, mel2ph)] on one entry. *)
Definition shift (v : Z) : Z := if 0 <? v then v + 1 else v.

Definition shift_all (mel2ph : list (list Z)) : list (list Z) :=
  map (map shift) mel2ph.

(** [padded[:, 1:] != padded[:, :-1]] on one row of the shifted tensor. *)
Definition diff_mask (row : list Z) : list bool :=
  let padded := pad row in
  zip_with (fun a b => negb (a =? b)) (tl padded) (removelast padded).

(** [(values != 0) & (lengths >= min_segment_length)] *)
Definition eligible (min_segment_length : Z) (value length : Z) : bool :=
  negb (value =? 0) && (min_segment_length <=? length).

(** ** Strategy A: [fast_bbc_mask] *)

Module StrategyA.

Definition boundaries (seq : list Z) : list Z := where_ (diff_mask seq).
Definition starts (seq : list Z) : list Z := removelast (boundaries seq).
Definition ends (seq : list Z) : list Z := tl (boundaries seq).
Definition lengths (seq : list Z) : list Z :=
  zip_with Z.sub (ends seq) (starts seq).
Definition values (seq : list Z) : list Z := index_select seq (starts seq).

Definition valid_mask (min_segment_length : Z) (seq : list Z) : list bool :=
  zip_with (eligible min_segment_length) (values seq) (lengths seq).

(** The body of [for seg_idx in selected_segments]. *)
Definition write_segment (mask_length : Z) (starts ends : list Z)
           (result : list Z) (seg_idx : Z) : list Z :=
  let start := index starts seg_idx in
  let end_ := index ends seg_idx in
  let mask_start := Z.max start (end_ - mask_length) in
  set_slice mask_start end_ 1 result.

(** [selected_segments] of one sample, with the generator it leaves. *)
Definition select (min_segment_length : Z) (mask_prob : Q)
           (seq : list Z) (g : rng) : list Z * rng :=
  let valid_indices := where_ (valid_mask min_segment_length seq) in
  let (draws, g') := rand (length valid_indices) g in
  let random_mask := map (fun x => Qltb x mask_prob) draws in
  (bool_index valid_indices random_mask, g').

(** The body of [for batch_idx in range(batch_size)]: the new row of
    [result] and the generator after it. *)
Definition mask_sample (mask_length min_segment_length : Z) (mask_prob : Q)
           (seq : list Z) (g : rng) : list Z * rng :=
  if (length (boundaries seq) <? 2)%nat then (seq, g)
  else if negb (any (valid_mask min_segment_length seq)) then (seq, g)
  else
    let (selected_segments, g') := select min_segment_length mask_prob seq g in
    (fold_left (write_segment mask_length (starts seq) (ends seq))
               selected_segments seq, g').

Fixpoint for_samples (mask_length min_segment_length : Z) (mask_prob : Q)
         (masked_mel2ph : list (list Z)) (g : rng)
  : list (list Z) * rng :=
  match masked_mel2ph with
  | [] => ([], g)
  | seq :: rest =>
      let (row, g1) :=
        mask_sample mask_length min_segment_length mask_prob seq g in
      let (rows, g2) :=
        for_samples mask_length min_segment_length mask_prob rest g1 in
      (row :: rows, g2)
  end.

Definition fast_bbc_mask_st (mask_length min_segment_length : Z)
           (mask_prob : Q) (mel2ph : list (list Z)) (g : rng)
  : list (list Z) * rng :=
  for_samples mask_length min_segment_length mask_prob (shift_all mel2ph) g.

Definition fast_bbc_mask (mask_length min_segment_length : Z)
           (mask_prob : Q) (mel2ph : list (list Z)) (g : rng)
  : list (list Z) :=
  fst (fast_bbc_mask_st mask_length min_segment_length mask_prob mel2ph g).

(** The generator as sample [b] finds it. *)
Definition rng_at (mask_length min_segment_length : Z) (mask_prob : Q)
           (mel2ph : list (list Z)) (g : rng) (b : nat) : rng :=
  snd (for_samples mask_length min_segment_length mask_prob
                   (firstn b (shift_all mel2ph)) g).

End StrategyA.

(** ** Strategy B: [fast_fast_bbc_mask] *)

Module StrategyB.

Definition bool_to_Z (b : bool) : Z := if b then 1 else 0.

(** [(padded[:, 1:] != padded[:, :-1]).float()] *)
Definition boundaries (seq : list Z) : list Z :=
  map bool_to_Z (diff_mask seq).

(** [(torch.cumsum(boundaries, dim=1) - 1)[:, :-1]] *)
Definition segment_ids (seq : list Z) : list Z :=
  removelast (map (fun c => c - 1) (cumsum (boundaries seq))).

(** One [(b, s)] slot of [compute_segment_info_parallel]. *)
Section Slot.
Variable seq_len : nat.
Variable ids : list Z.      (* segment_ids[b] *)
Variable seq : list Z.      (* masked_mel2ph[b] *)
Variable s : Z.             (* seg_idx *)

Definition segment_mask : list bool := map (fun id => id =? s) ids.

Definition pos_masked : list Z :=
  zip_with (fun (m : bool) pos => if m then pos else Z.of_nat seq_len)
           segment_mask (arange seq_len).

Definition segment_start : Z := min_ pos_masked.

Definition segment_length : Z := sum (map bool_to_Z segment_mask).

Definition first_pos_mask : list bool :=
  map (fun pm => pm =? segment_start) pos_masked.

Definition values_masked : list Z :=
  zip_with (fun (m : bool) v => if m then v else 0) first_pos_mask seq.

Definition segment_value : Z := sum values_masked.
End Slot.

Definition compute_segment_info_parallel
           (masked_mel2ph segment_ids : list (list Z))
           (max_segments : Z) (seq_len : nat)
  : list (list Z) * list (list Z) * list (list Z) :=
  let seg_idx := arange (Z.to_nat max_segments) in
  let segment_starts :=
    map (fun ids => map (segment_start seq_len ids) seg_idx) segment_ids in
  let segment_lengths :=
    map (fun ids => map (segment_length ids) seg_idx) segment_ids in
  let segment_values :=
    zip_with (fun ids seq => map (segment_value seq_len ids seq) seg_idx)
             segment_ids masked_mel2ph in
  (segment_starts, segment_lengths, segment_values).

(** One entry [(b, s, pos)] of [mask_matrix]. *)
Definition mask_matrix_at (mask_length : Z) (segment_start segment_length : Z)
           (decision : bool) (pos : Z) : bool :=
  let segment_end := segment_start + segment_length in
  let mask_start := Z.max segment_start (segment_end - mask_length) in
  let mask_end := segment_end in
  (mask_start <=? pos) && (pos <? mask_end) && decision.

(** One entry [(b, pos)] of [final_mask = mask_matrix.any(dim=1)]. *)
Definition final_mask_at (mask_length : Z)
           (starts lengths : list Z) (decisions : list bool) (pos : Z)
  : bool :=
  any (zip_with (fun (sl : Z * Z) (d : bool) =>
                   mask_matrix_at mask_length (fst sl) (snd sl) d pos)
                (zip_with pair starts lengths) decisions).

Definition apply_masks_parallel
           (masked_mel2ph segment_starts segment_lengths : list (list Z))
           (mask_decisions : list (list bool))
           (mask_length : Z) (seq_len : nat) : list (list Z) :=
  let pos_indices := arange seq_len in
  zip_with
    (fun (row : list Z) (tbl : list Z * list Z * list bool) =>
       let '(st, len, dec) := tbl in
       zip_with (fun pos v =>
                   if final_mask_at mask_length st len dec pos then 1 else v)
                pos_indices row)
    masked_mel2ph
    (zip_with pair (zip_with pair segment_starts segment_lengths)
              mask_decisions).

(** The segment table and the decisions, as [fast_fast_bbc_mask] has them
    before the write: [None] when [segment_ids.max()] raises. *)
Definition segment_table (mel2ph : list (list Z))
  : option (list (list Z) * list (list Z) * list (list Z)) :=
  let seq_len := length (hd [] mel2ph) in
  let masked_mel2ph := shift_all mel2ph in
  let ids := map segment_ids masked_mel2ph in
  match max_all ids with
  | None => None
  | Some mx =>
      Some (compute_segment_info_parallel masked_mel2ph ids (mx + 1) seq_len)
  end.

Definition mask_decisions (min_segment_length : Z) (mask_prob : Q)
           (segment_lengths segment_values : list (list Z)) (g : rng)
  : list (list bool) :=
  let valid_segments :=
    zip_with2 (eligible min_segment_length) segment_values segment_lengths in
  let random_vals := fst (rand_like segment_values g) in
  zip_with2 (fun (v : bool) r => v && Qltb r mask_prob)
            valid_segments random_vals.

Definition fast_fast_bbc_mask (mask_length min_segment_length : Z)
           (mask_prob : Q) (mel2ph : list (list Z)) (g : rng)
  : option (list (list Z)) :=
  let seq_len := length (hd [] mel2ph) in
  let masked_mel2ph := shift_all mel2ph in
  match segment_table mel2ph with
  | None => None
  | Some (segment_starts, segment_lengths, segment_values) =>
      let decisions :=
        mask_decisions min_segment_length mask_prob
                       segment_lengths segment_values g in
      Some (apply_masks_parallel masked_mel2ph segment_starts
                                 segment_lengths decisions
                                 mask_length seq_len)
  end.

End StrategyB.

(** ** Running the kernels on the scenario of the specification *)

Definition scenario_row : list Z := [0; 0; 3; 3; 3; 3; 3; 3; 0; 5; 5; 5; 5].
Definition scenario_out : list Z := [0; 0; 4; 4; 4; 4; 1; 1; 0; 6; 6; 6; 6].
Definition half : rng := fun _ => (1 # 2)%Q.

Example scenario_A :
  StrategyA.fast_bbc_mask 2 5 1%Q [scenario_row] half = [scenario_out].
Proof. vm_compute. reflexivity. Qed.

Example scenario_B :
  StrategyB.fast_fast_bbc_mask 2 5 1%Q [scenario_row] half = Some [scenario_out].
Proof. vm_compute. reflexivity. Qed.

Example scenario_table :
  StrategyB.segment_table [scenario_row]
  = Some ([[0; 2; 8; 9]], [[2; 6; 1; 4]], [[0; 4; 0; 6]]).
Proof. vm_compute. reflexivity. Qed.


(** ** Facts about the tensor operations *)

Section ZipWith.
Context {A B C : Type} (f : A -> B -> C).

Lemma length_zip_with (l1 : list A) (l2 : list B) :
  length (zip_with f l1 l2) = Nat.min (length l1) (length l2).
Proof. unfold zip_with. now rewrite length_map, length_combine. Qed.

Lemma nth_zip_with (l1 : list A) (l2 : list B) (i : nat) d d1 d2 :
  (i < length l1)%nat -> (i < length l2)%nat ->
  nth i (zip_with f l1 l2) d = f (nth i l1 d1) (nth i l2 d2).
Proof.
  unfold zip_with. revert l2 i.
  induction l1 as [|a l1 IH]; intros [|b l2] [|i] H1 H2; simpl in *;
    try lia; auto.
  apply IH; lia.
Qed.

Lemma zip_with_cons a b (l1 : list A) (l2 : list B) :
  zip_with f (a :: l1) (b :: l2) = f a b :: zip_with f l1 l2.
Proof. reflexivity. Qed.

End ZipWith.

Lemma length_arange n : length (arange n) = n.
Proof. unfold arange. now rewrite length_map, length_seq. Qed.

Lemma nth_arange n i d : (i < n)%nat -> nth i (arange n) d = Z.of_nat i.
Proof.
  intros Hi. unfold arange.
  rewrite (nth_indep _ d (Z.of_nat 0)) by now rewrite length_map, length_seq.
  rewrite map_nth, seq_nth by assumption. reflexivity.
Qed.

Lemma In_arange n x : In x (arange n) <-> 0 <= x < Z.of_nat n.
Proof.
  unfold arange. rewrite in_map_iff. split.
  - intros (i & <- & Hi). apply in_seq in Hi. lia.
  - intros Hx. exists (Z.to_nat x). rewrite in_seq. split; lia.
Qed.

Lemma any_true_iff (l : list bool) :
  any l = true <-> exists i, (i < length l)%nat /\ nth i l false = true.
Proof.
  unfold any. rewrite existsb_exists. split.
  - intros (b & Hin & Hb). subst b.
    destruct (In_nth _ _ false Hin) as (i & Hi & E). eauto.
  - intros (i & Hi & E). exists true. split; auto.
    rewrite <- E. now apply nth_In.
Qed.

Lemma any_false_iff (l : list bool) :
  any l = false <-> forall i, (i < length l)%nat -> nth i l false = false.
Proof.
  split.
  - intros H i Hi. destruct (nth i l false) eqn:E; auto.
    assert (any l = true) by (apply any_true_iff; eauto). congruence.
  - intros H. destruct (any l) eqn:E; auto.
    apply any_true_iff in E. destruct E as (i & Hi & E).
    rewrite H in E by assumption. discriminate.
Qed.

(** [torch.where]: the positions holding [True], strictly increasing. *)

Lemma In_where_from (m : list bool) k x :
  In x (where_from k m) <->
  k <= x < k + Z.of_nat (length m) /\ nth (Z.to_nat (x - k)) m false = true.
Proof.
  revert k. induction m as [|b m IH]; intros k; simpl.
  - split; [tauto | lia].
  - assert (Hcase : forall P : Prop,
      (In x (where_from (k + 1) m) \/ (b = true /\ x = k) <-> P) ->
      (In x (if b then k :: where_from (k + 1) m else where_from (k + 1) m) <-> P)).
    { intros P HP. rewrite <- HP. destruct b; simpl; intuition congruence. }
    apply Hcase. rewrite IH. split.
    + intros [[Hr Hn] | [Hb ->]].
      * split; [lia|].
        replace (Z.to_nat (x - k)) with (S (Z.to_nat (x - (k + 1)))) by lia.
        exact Hn.
      * split; [lia|]. now replace (k - k) with 0 by lia.
    + intros [Hr Hn]. destruct (Z.eq_dec x k) as [->|Hne].
      * right. replace (k - k) with 0 in Hn by lia. simpl in Hn. auto.
      * left. split; [lia|].
        replace (Z.to_nat (x - k)) with (S (Z.to_nat (x - (k + 1)))) in Hn by lia.
        exact Hn.
Qed.

Lemma In_where (m : list bool) x :
  In x (where_ m) <->
  0 <= x < Z.of_nat (length m) /\ nth (Z.to_nat x) m false = true.
Proof.
  unfold where_. rewrite In_where_from.
  now replace (x - 0) with x by lia.
Qed.

Lemma where_from_lower (m : list bool) k :
  Forall (fun x => k <= x) (where_from k m).
Proof.
  rewrite Forall_forall. intros x Hx. apply In_where_from in Hx. lia.
Qed.

Lemma where_from_sorted (m : list bool) k :
  StronglySorted Z.lt (where_from k m).
Proof.
  revert k. induction m as [|b m IH]; intros k; simpl.
  - constructor.
  - destruct b; [|apply IH]. constructor; [apply IH|].
    eapply Forall_impl; [|apply (where_from_lower m (k + 1))].
    simpl. intros. lia.
Qed.

(** Strictly increasing index tensors. *)

Lemma sorted_nth_lt (bs : list Z) :
  StronglySorted Z.lt bs ->
  forall i j, (i < j < length bs)%nat -> nth i bs 0 < nth j bs 0.
Proof.
  induction 1 as [|x bs Hs IH Hall]; intros i j Hij; simpl in *; [lia|].
  destruct j as [|j]; [lia|]. destruct i as [|i].
  - rewrite Forall_forall in Hall. apply Hall, nth_In. lia.
  - apply IH. lia.
Qed.

Lemma sorted_nth_inj (bs : list Z) i j :
  StronglySorted Z.lt bs ->
  (i < length bs)%nat -> (j < length bs)%nat ->
  nth i bs 0 = nth j bs 0 -> i = j.
Proof.
  intros Hs Hi Hj E.
  destruct (Nat.lt_trichotomy i j) as [H|[H|H]]; auto.
  - pose proof (sorted_nth_lt Hs (i := i) (j := j)). lia.
  - pose proof (sorted_nth_lt Hs (i := j) (j := i)). lia.
Qed.

Lemma filter_none {A : Type} (f : A -> bool) (l : list A) :
  (forall x, In x l -> f x = false) -> filter f l = [].
Proof.
  induction l as [|a l IH]; simpl; intros H; auto.
  rewrite (H a) by auto. apply IH. auto.
Qed.

(** How many entries of an index tensor are at most [l]. *)
Definition count_le (l : Z) (bs : list Z) : nat :=
  length (filter (fun x => x <=? l) bs).

Lemma count_le_length l bs : (count_le l bs <= length bs)%nat.
Proof. apply filter_length_le. Qed.

Lemma count_le_sorted (l : Z) (bs : list Z) :
  StronglySorted Z.lt bs ->
  (forall j, (j < count_le l bs)%nat -> nth j bs 0 <= l) /\
  (forall j, (count_le l bs <= j < length bs)%nat -> l < nth j bs 0).
Proof.
  unfold count_le.
  induction 1 as [|x bs Hs IH Hall]; simpl; [split; intros; lia|].
  destruct IH as [IH1 IH2]. destruct (x <=? l) eqn:E; simpl.
  - apply Z.leb_le in E. split; intros [|j] Hj; try lia.
    + apply IH1. lia.
    + apply IH2. lia.
  - apply Z.leb_gt in E. rewrite Forall_forall in Hall.
    assert (Hnil : filter (fun y => y <=? l) bs = []).
    { apply filter_none. intros y Hy. apply Hall in Hy.
      apply Z.leb_gt. lia. }
    rewrite Hnil in *. simpl.
    split; intros [|j] Hj; try lia.
    assert (x < nth j bs 0) by (apply Hall, nth_In; lia). lia.
Qed.

(** The segment of position [l]: the [j] with [bs[j] <= l < bs[j+1]]. *)
Lemma count_le_locate (l : Z) (bs : list Z) (j : nat) :
  StronglySorted Z.lt bs ->
  (j < length bs)%nat ->
  (count_le l bs = S j <->
   nth j bs 0 <= l /\ ((S j < length bs)%nat -> l < nth (S j) bs 0)).
Proof.
  intros Hs Hj. destruct (count_le_sorted l Hs) as [H1 H2].
  pose proof (count_le_length l bs) as Hlen. split.
  - intros E. split.
    + apply H1. lia.
    + intros HS. apply H2. lia.
  - intros [Hlo Hhi].
    destruct (Nat.lt_trichotomy (count_le l bs) (S j)) as [H|[H|H]]; auto.
    + specialize (H2 j). lia.
    + specialize (H1 (S j)). assert (S j < length bs)%nat by lia.
      specialize (Hhi H0). lia.
Qed.

(** The running sum of the boundary flags counts the boundaries so far. *)
Lemma nth_cumsum_from (m : list bool) (c k : Z) (i : nat) :
  (i < length m)%nat ->
  nth i (cumsum_from c (map StrategyB.bool_to_Z m)) 0
  = c + Z.of_nat (count_le (k + Z.of_nat i) (where_from k m)).
Proof.
  unfold count_le. revert c k i.
  induction m as [|b m IH]; intros c k i Hi; [simpl in Hi; lia|].
  assert (Hhd : forall l, length (filter (fun y => y <=? l) (where_from k (b :: m)))
                = Nat.add (if b && (k <=? l) then 1%nat else 0%nat)
                    (length (filter (fun y => y <=? l) (where_from (k + 1) m)))).
  { intros l. simpl. destruct b; simpl; auto. destruct (k <=? l); reflexivity. }
  rewrite Hhd. simpl in Hi. destruct i as [|i].
  - rewrite (filter_none (fun y => y <=? k + Z.of_nat 0)).
    2:{ intros y Hy. apply In_where_from in Hy. apply Z.leb_gt. lia. }
    replace (k <=? k + Z.of_nat 0) with true by (symmetry; apply Z.leb_le; lia).
    destruct b; simpl; lia.
  - change (nth (S i) (cumsum_from c (map StrategyB.bool_to_Z (b :: m))) 0)
      with (nth i (cumsum_from (c + StrategyB.bool_to_Z b)
                               (map StrategyB.bool_to_Z m)) 0).
    rewrite (IH _ (k + 1) i) by lia.
    replace (k + 1 + Z.of_nat i) with (k + Z.of_nat (S i)) by lia.
    replace (k <=? k + Z.of_nat (S i)) with true by (symmetry; apply Z.leb_le; lia).
    destruct b; simpl StrategyB.bool_to_Z; simpl andb; cbv iota; lia.
Qed.

(** Python's [t[:-1]] and [t[1:]]. *)

Lemma length_removelast' {A : Type} (l : list A) :
  length (removelast l) = (length l - 1)%nat.
Proof. rewrite removelast_firstn_len, length_firstn. lia. Qed.

Lemma nth_removelast {A : Type} (l : list A) i d :
  (i < length l - 1)%nat -> nth i (removelast l) d = nth i l d.
Proof.
  intros Hi. rewrite removelast_firstn_len, nth_firstn.
  destruct (Nat.ltb_spec i (Nat.pred (length l))); auto. lia.
Qed.

Lemma nth_tl {A : Type} (l : list A) i d : nth i (tl l) d = nth (S i) l d.
Proof. destruct l; simpl; auto. now destruct i. Qed.

(** ** Boundaries of a row *)

Lemma diff_mask_eq (seq : list Z) :
  diff_mask seq = zip_with (fun a b => negb (a =? b)) (seq ++ [-1]) (-1 :: seq).
Proof.
  unfold diff_mask, pad.
  change (-1 :: seq ++ [-1]) with ((-1 :: seq) ++ [-1]) at 2.
  now rewrite removelast_last.
Qed.

Lemma length_diff_mask (seq : list Z) : length (diff_mask seq) = S (length seq).
Proof.
  rewrite diff_mask_eq, length_zip_with, last_length. simpl. lia.
Qed.

Lemma nth_diff_mask (seq : list Z) (i : nat) :
  (i <= length seq)%nat ->
  nth i (diff_mask seq) false
  = negb (nth i (seq ++ [-1]) 0 =? nth i (-1 :: seq) 0).
Proof.
  intros Hi. rewrite diff_mask_eq.
  rewrite nth_zip_with with (d1 := 0) (d2 := 0); auto.
  - rewrite last_length. lia.
  - simpl. lia.
Qed.

(** A row of the shifted tensor: no entry is negative. *)
Definition nonneg_row (r : list Z) : Prop := Forall (fun v => 0 <= v) r.
Definition nonneg (t : list (list Z)) : Prop := Forall nonneg_row t.

Lemma shift_nonneg v : 0 <= v -> 0 <= shift v.
Proof. unfold shift. destruct (Z.ltb_spec 0 v); lia. Qed.

Lemma shift_not_marker v : 0 <= v -> shift v <> 1.
Proof. unfold shift. destruct (Z.ltb_spec 0 v); lia. Qed.

Lemma shift_zero_iff v : shift v = 0 <-> v = 0.
Proof. unfold shift. destruct (Z.ltb_spec 0 v); lia. Qed.

Lemma shift_positive v : 0 < v -> shift v = v + 1 /\ 2 <= shift v.
Proof. unfold shift. destruct (Z.ltb_spec 0 v); lia. Qed.

Lemma nonneg_row_shift r : nonneg_row r -> nonneg_row (map shift r).
Proof.
  unfold nonneg_row. rewrite !Forall_forall. intros H v Hv.
  apply in_map_iff in Hv. destruct Hv as (u & <- & Hu).
  apply shift_nonneg. auto.
Qed.

Lemma nonneg_shift_all t : nonneg t -> nonneg (shift_all t).
Proof.
  unfold nonneg, shift_all. rewrite !Forall_forall. intros H r Hr.
  apply in_map_iff in Hr. destruct Hr as (u & <- & Hu).
  apply nonneg_row_shift. auto.
Qed.

Lemma nonneg_row_nth r i : nonneg_row r -> 0 <= nth i r 0.
Proof.
  intros H. destruct (Nat.lt_ge_cases i (length r)) as [Hi|Hi].
  - unfold nonneg_row in H. rewrite Forall_forall in H. apply H, nth_In, Hi.
  - rewrite nth_overflow by assumption. lia.
Qed.

Section Row.

Variable seq : list Z.
Hypothesis seq_nonneg : nonneg_row seq.

Lemma boundaries_sorted : StronglySorted Z.lt (StrategyA.boundaries seq).
Proof. apply where_from_sorted. Qed.

Lemma In_boundaries x :
  In x (StrategyA.boundaries seq) <->
  0 <= x <= Z.of_nat (length seq) /\ nth (Z.to_nat x) (diff_mask seq) false = true.
Proof.
  unfold StrategyA.boundaries. rewrite In_where, length_diff_mask.
  split; intros [H1 H2]; (split; [lia | exact H2]).
Qed.

Lemma boundary_inner (i : nat) :
  (0 < i < length seq)%nat ->
  nth i (diff_mask seq) false = negb (nth i seq 0 =? nth (i - 1) seq 0).
Proof.
  intros Hi. rewrite nth_diff_mask by lia.
  rewrite app_nth1 by lia. destruct i as [|i]; [lia|]. cbn [nth].
  now replace (S i - 1)%nat with i by lia.
Qed.

Lemma boundary_first : (0 < length seq)%nat -> In 0 (StrategyA.boundaries seq).
Proof.
  intros HL. apply In_boundaries. split; [lia|].
  change (Z.to_nat 0) with 0%nat. rewrite nth_diff_mask by lia.
  rewrite app_nth1 by lia. cbn [nth].
  pose proof (nonneg_row_nth 0 seq_nonneg).
  apply negb_true_iff, Z.eqb_neq. lia.
Qed.

Lemma boundary_last :
  (0 < length seq)%nat -> In (Z.of_nat (length seq)) (StrategyA.boundaries seq).
Proof.
  intros HL. apply In_boundaries. split; [lia|].
  rewrite Nat2Z.id, nth_diff_mask by lia.
  rewrite app_nth2, Nat.sub_diag by lia.
  destruct (length seq) as [|n] eqn:E; [lia|]. cbn [nth].
  pose proof (nonneg_row_nth n seq_nonneg).
  apply negb_true_iff, Z.eqb_neq. lia.
Qed.

Lemma boundaries_range j :
  (j < length (StrategyA.boundaries seq))%nat ->
  0 <= nth j (StrategyA.boundaries seq) 0 <= Z.of_nat (length seq).
Proof.
  intros Hj. apply (nth_In _ 0) in Hj. apply In_boundaries in Hj. lia.
Qed.

Lemma boundaries_two :
  (0 < length seq)%nat -> (2 <= length (StrategyA.boundaries seq))%nat.
Proof.
  intros HL.
  destruct (In_nth _ _ 0 (boundary_first HL)) as (i & Hi & Ei).
  destruct (In_nth _ _ 0 (boundary_last HL)) as (j & Hj & Ej).
  assert (i <> j) by (intros ->; lia). lia.
Qed.

Lemma boundaries_head :
  (0 < length seq)%nat -> nth 0 (StrategyA.boundaries seq) 0 = 0.
Proof.
  intros HL.
  destruct (In_nth _ _ 0 (boundary_first HL)) as (i & Hi & Ei).
  destruct i as [|i]; auto.
  pose proof (sorted_nth_lt boundaries_sorted (i := 0%nat) (j := S i)).
  pose proof (boundaries_range (j := 0%nat)). lia.
Qed.

Lemma boundaries_final :
  (0 < length seq)%nat ->
  nth (length (StrategyA.boundaries seq) - 1) (StrategyA.boundaries seq) 0
  = Z.of_nat (length seq).
Proof.
  intros HL.
  destruct (In_nth _ _ 0 (boundary_last HL)) as (j & Hj & Ej).
  destruct (Nat.eq_dec j (length (StrategyA.boundaries seq) - 1)) as [->|Hne]; auto.
  pose proof (sorted_nth_lt boundaries_sorted
                (i := j) (j := (length (StrategyA.boundaries seq) - 1)%nat)).
  pose proof (boundaries_range
                (j := (length (StrategyA.boundaries seq) - 1)%nat)). lia.
Qed.

End Row.

Lemma sorted_nth_lt_inv (bs : list Z) i j :
  StronglySorted Z.lt bs ->
  (i < length bs)%nat -> (j < length bs)%nat ->
  nth i bs 0 < nth j bs 0 -> (i < j)%nat.
Proof.
  intros Hs Hi Hj Hlt.
  destruct (Nat.lt_trichotomy i j) as [H|[H|H]]; auto.
  - subst. lia.
  - pose proof (sorted_nth_lt Hs (i := j) (j := i)). lia.
Qed.

(** ** The segments Strategy A reads off the boundaries *)

Section Segments.

Variable seq : list Z.

Lemma length_starts :
  length (StrategyA.starts seq) = (length (StrategyA.boundaries seq) - 1)%nat.
Proof. apply length_removelast'. Qed.

Lemma length_ends :
  length (StrategyA.ends seq) = length (StrategyA.starts seq).
Proof. unfold StrategyA.ends. now rewrite length_tl, length_starts. Qed.

Lemma length_lengths :
  length (StrategyA.lengths seq) = length (StrategyA.starts seq).
Proof.
  unfold StrategyA.lengths. rewrite length_zip_with, length_ends. lia.
Qed.

Lemma length_values :
  length (StrategyA.values seq) = length (StrategyA.starts seq).
Proof. unfold StrategyA.values, index_select. apply length_map. Qed.

Lemma length_valid_mask msl :
  length (StrategyA.valid_mask msl seq) = length (StrategyA.starts seq).
Proof.
  unfold StrategyA.valid_mask.
  rewrite length_zip_with, length_values, length_lengths. lia.
Qed.

Variable j : nat.
Hypothesis j_segment : (j < length (StrategyA.starts seq))%nat.

Lemma nth_starts :
  nth j (StrategyA.starts seq) 0 = nth j (StrategyA.boundaries seq) 0.
Proof.
  apply nth_removelast. rewrite <- length_starts. exact j_segment.
Qed.

Lemma nth_ends :
  nth j (StrategyA.ends seq) 0 = nth (S j) (StrategyA.boundaries seq) 0.
Proof. apply nth_tl. Qed.

Lemma nth_lengths :
  nth j (StrategyA.lengths seq) 0
  = nth j (StrategyA.ends seq) 0 - nth j (StrategyA.starts seq) 0.
Proof.
  unfold StrategyA.lengths.
  rewrite nth_zip_with with (d1 := 0) (d2 := 0); auto.
  now rewrite length_ends.
Qed.

Lemma nth_values :
  nth j (StrategyA.values seq) 0
  = nth (Z.to_nat (nth j (StrategyA.starts seq) 0)) seq 0.
Proof.
  unfold StrategyA.values, index_select.
  rewrite (nth_indep _ 0 (index seq 0)) by now rewrite length_map.
  now rewrite map_nth.
Qed.

Lemma nth_valid_mask msl :
  nth j (StrategyA.valid_mask msl seq) false
  = eligible msl (nth j (StrategyA.values seq) 0)
             (nth j (StrategyA.lengths seq) 0).
Proof.
  unfold StrategyA.valid_mask.
  rewrite nth_zip_with with (d1 := 0) (d2 := 0); auto.
  - now rewrite length_values.
  - now rewrite length_lengths.
Qed.

(** A real segment is a non-empty interval of frames of the row. *)
Lemma segment_bounds :
  0 <= nth j (StrategyA.starts seq) 0
  /\ nth j (StrategyA.starts seq) 0 < nth j (StrategyA.ends seq) 0
  /\ nth j (StrategyA.ends seq) 0 <= Z.of_nat (length seq).
Proof.
  rewrite nth_starts, nth_ends. pose proof j_segment as Hj.
  rewrite length_starts in Hj.
  pose proof (boundaries_range seq (j := j)).
  pose proof (boundaries_range seq (j := S j)).
  pose proof (sorted_nth_lt (boundaries_sorted seq) (i := j) (j := S j)).
  lia.
Qed.

Lemma segment_length_pos : 1 <= nth j (StrategyA.lengths seq) 0.
Proof. rewrite nth_lengths. pose proof segment_bounds. lia. Qed.

(** All frames of a segment hold the value of its first frame. *)
Lemma segment_run (i : nat) :
  nth j (StrategyA.starts seq) 0 <= Z.of_nat i < nth j (StrategyA.ends seq) 0 ->
  nth i seq 0 = nth j (StrategyA.values seq) 0.
Proof.
  rewrite nth_values. pose proof segment_bounds as (H0 & H1 & H2).
  set (st := nth j (StrategyA.starts seq) 0) in *.
  set (en := nth j (StrategyA.ends seq) 0) in *.
  intros Hi.
  replace i with (Z.to_nat st + (i - Z.to_nat st))%nat by lia.
  assert (Hd : (Z.to_nat st + (i - Z.to_nat st) <= i)%nat) by lia.
  revert Hd. generalize (i - Z.to_nat st)%nat as d.
  induction d as [|d IH]; intros Hd.
  - now rewrite Nat.add_0_r.
  - rewrite <- IH by lia.
    assert (Hin : (0 < Z.to_nat st + S d < length seq)%nat) by lia.
    pose proof (boundary_inner seq Hin) as Hb.
    replace (Z.to_nat st + S d - 1)%nat with (Z.to_nat st + d)%nat in Hb by lia.
    destruct (nth (Z.to_nat st + S d) (diff_mask seq) false) eqn:E.
    + exfalso.
      assert (Hx : In (Z.of_nat (Z.to_nat st + S d)) (StrategyA.boundaries seq)).
      { apply In_boundaries. rewrite Nat2Z.id. split; [lia | exact E]. }
      destruct (In_nth _ _ 0 Hx) as (j' & Hj' & Ej').
      pose proof j_segment as Hj. rewrite length_starts in Hj.
      assert (j < j')%nat.
      { apply (sorted_nth_lt_inv (boundaries_sorted seq)); try lia.
        rewrite Ej', <- nth_starts. fold st. lia. }
      assert (j' < S j)%nat.
      { apply (sorted_nth_lt_inv (boundaries_sorted seq)); try lia.
        rewrite Ej', <- nth_ends. fold en. lia. }
      lia.
    + symmetry in Hb. apply negb_false_iff, Z.eqb_eq in Hb. exact Hb.
Qed.

End Segments.

(** Segments of one row do not overlap. *)
Lemma segments_disjoint (seq : list Z) (j j' : nat) :
  (j < j')%nat -> (j' < length (StrategyA.starts seq))%nat ->
  nth j (StrategyA.ends seq) 0 <= nth j' (StrategyA.starts seq) 0.
Proof.
  intros Hlt Hj'. rewrite nth_ends, nth_starts by assumption.
  rewrite length_starts in Hj'.
  destruct (Nat.eq_dec (S j) j') as [->|Hne]; [lia|].
  pose proof (sorted_nth_lt (boundaries_sorted seq) (i := S j) (j := j')). lia.
Qed.

Lemma segment_unique (seq : list Z) (j j' : nat) (i : Z) :
  (j < length (StrategyA.starts seq))%nat ->
  (j' < length (StrategyA.starts seq))%nat ->
  nth j (StrategyA.starts seq) 0 <= i < nth j (StrategyA.ends seq) 0 ->
  nth j' (StrategyA.starts seq) 0 <= i < nth j' (StrategyA.ends seq) 0 ->
  j = j'.
Proof.
  intros Hj Hj' H1 H2.
  destruct (Nat.lt_trichotomy j j') as [H|[H|H]]; auto.
  - pose proof (segments_disjoint seq H Hj'). lia.
  - pose proof (segments_disjoint seq H Hj). lia.
Qed.

(** ** Slice assignment and the mask window *)

(** Is frame [i] inside the trailing window of the segment [[st, en)]. *)
Definition in_window (mask_length st en i : Z) : bool :=
  (Z.max st (en - mask_length) <=? i) && (i <? en).

Lemma length_set_slice a e v r : length (set_slice a e v r) = length r.
Proof. unfold set_slice. rewrite length_zip_with, length_arange. lia. Qed.

Lemma nth_set_slice a e v r i :
  (i < length r)%nat -> 0 <= a -> 0 <= e ->
  nth i (set_slice a e v r) 0
  = if (a <=? Z.of_nat i) && (Z.of_nat i <? e) then v else nth i r 0.
Proof.
  intros Hi Ha He. unfold set_slice.
  rewrite nth_zip_with with (d1 := 0) (d2 := 0);
    [|now rewrite length_arange|assumption].
  rewrite nth_arange by assumption.
  unfold slice_bound.
  destruct (Z.ltb_spec a 0); [lia|]. destruct (Z.ltb_spec e 0); [lia|].
  replace (Z.min a (Z.of_nat (length r)) <=? Z.of_nat i) with (a <=? Z.of_nat i)
    by (destruct (Z.leb_spec a (Z.of_nat i)); symmetry;
        [apply Z.leb_le | apply Z.leb_gt]; lia).
  replace (Z.of_nat i <? Z.min e (Z.of_nat (length r))) with (Z.of_nat i <? e)
    by (destruct (Z.ltb_spec (Z.of_nat i) e); symmetry;
        [apply Z.ltb_lt | apply Z.ltb_ge]; lia).
  reflexivity.
Qed.

Lemma length_write_segment ml sts ens r x :
  length (StrategyA.write_segment ml sts ens r x) = length r.
Proof. apply length_set_slice. Qed.

Lemma nth_write_segment ml sts ens r x i :
  (i < length r)%nat -> 0 <= index sts x -> 0 <= index ens x ->
  nth i (StrategyA.write_segment ml sts ens r x) 0
  = if in_window ml (index sts x) (index ens x) (Z.of_nat i) then 1
    else nth i r 0.
Proof.
  intros Hi Hs He. unfold StrategyA.write_segment, in_window.
  apply nth_set_slice; auto. lia.
Qed.

Lemma length_write_segments ml sts ens sel r :
  length (fold_left (StrategyA.write_segment ml sts ens) sel r) = length r.
Proof.
  revert r. induction sel as [|x sel IH]; intros r; simpl; auto.
  now rewrite IH, length_write_segment.
Qed.

Lemma nth_write_segments ml sts ens sel r i :
  (i < length r)%nat ->
  (forall x, In x sel -> 0 <= index sts x /\ 0 <= index ens x) ->
  nth i (fold_left (StrategyA.write_segment ml sts ens) sel r) 0
  = if existsb (fun x => in_window ml (index sts x) (index ens x) (Z.of_nat i))
               sel
    then 1 else nth i r 0.
Proof.
  revert r. induction sel as [|x sel IH]; intros r Hi Hsel; simpl; auto.
  rewrite IH.
  - rewrite nth_write_segment; try apply Hsel; simpl; auto.
    destruct (in_window ml (index sts x) (index ens x) (Z.of_nat i)); simpl; auto.
    now destruct (existsb _ sel).
  - now rewrite length_write_segment.
  - intros y Hy. apply Hsel. now right.
Qed.

(** Indexing with a boolean mask keeps the entries whose flag is set. *)
Lemma In_bool_index {A : Type} (t : list A) (mask : list bool) (d x : A) :
  In x (bool_index t mask) <->
  exists r, (r < length t)%nat /\ (r < length mask)%nat
            /\ nth r t d = x /\ nth r mask false = true.
Proof.
  unfold bool_index. revert mask.
  induction t as [|a t IH]; intros mask; simpl.
  - split; [tauto | intros (r & Hr & _); lia].
  - destruct mask as [|m mask]; simpl.
    + split; [tauto | intros (r & _ & Hr & _); lia].
    + assert (Hcase :
        In x (map fst (if m then (a, m) :: filter snd (combine t mask)
                       else filter snd (combine t mask)))
        <-> (m = true /\ a = x) \/ In x (map fst (filter snd (combine t mask)))).
      { destruct m; simpl; intuition congruence. }
      rewrite Hcase, IH. split.
      * intros [[Hm Ha] | (r & H1 & H2 & H3 & H4)].
        -- exists 0%nat. repeat split; auto; lia.
        -- exists (S r). repeat split; auto; lia.
      * intros ([|r] & H1 & H2 & H3 & H4).
        -- left. auto.
        -- right. exists r. repeat split; auto; lia.
Qed.

(** ** One sample of Strategy A *)

Lemma nth_rand n g r : (r < n)%nat -> nth r (fst (rand n g)) 0%Q = g r.
Proof.
  intros Hr. unfold rand. simpl.
  rewrite (nth_indep _ 0%Q (g 0%nat)) by now rewrite length_map, length_seq.
  now rewrite map_nth, seq_nth.
Qed.

Lemma length_rand n g : length (fst (rand n g)) = n.
Proof. unfold rand. simpl. now rewrite length_map, length_seq. Qed.

(** A segment is selected when it is valid and its draw succeeds: the draw
    of the [r]-th valid segment is the [r]-th draw of the sample. *)
Lemma In_select msl p seq g x :
  In x (fst (StrategyA.select msl p seq g)) <->
  exists r, (r < length (where_ (StrategyA.valid_mask msl seq)))%nat
            /\ nth r (where_ (StrategyA.valid_mask msl seq)) 0 = x
            /\ Qltb (g r) p = true.
Proof.
  unfold StrategyA.select.
  set (vi := where_ (StrategyA.valid_mask msl seq)).
  pose proof (length_rand (length vi) g) as Hlen.
  pose proof (fun r => @nth_rand (length vi) g r) as Hnth.
  destruct (rand (length vi) g) as [draws g']. simpl in *.
  rewrite (In_bool_index _ _ 0). rewrite length_map, Hlen. split.
  - intros (r & H1 & H2 & H3 & H4). exists r. repeat split; auto.
    rewrite (nth_indep _ false (Qltb 0%Q p)) in H4 by now rewrite length_map, Hlen.
    rewrite (map_nth (fun x => Qltb x p)) in H4. now rewrite Hnth in H4.
  - intros (r & H1 & H2 & H3). exists r. repeat split; auto.
    rewrite (nth_indep _ false (Qltb 0%Q p)) by now rewrite length_map, Hlen.
    rewrite (map_nth (fun x => Qltb x p)). now rewrite Hnth.
Qed.

Lemma In_valid_indices msl seq x :
  In x (where_ (StrategyA.valid_mask msl seq)) <->
  exists j, (j < length (StrategyA.starts seq))%nat /\ x = Z.of_nat j
            /\ eligible msl (nth j (StrategyA.values seq) 0)
                        (nth j (StrategyA.lengths seq) 0) = true.
Proof.
  rewrite In_where, length_valid_mask. split.
  - intros [Hx Hv]. exists (Z.to_nat x).
    rewrite <- nth_valid_mask by lia. repeat split; auto; lia.
  - intros (j & Hj & -> & Hv). rewrite Nat2Z.id.
    rewrite nth_valid_mask by assumption. split; auto. lia.
Qed.

(** Every selected segment is a real, eligible segment. *)
Lemma select_eligible msl p seq g x :
  In x (fst (StrategyA.select msl p seq g)) ->
  exists j, (j < length (StrategyA.starts seq))%nat /\ x = Z.of_nat j
            /\ eligible msl (nth j (StrategyA.values seq) 0)
                        (nth j (StrategyA.lengths seq) 0) = true.
Proof.
  intros Hx. apply In_select in Hx. destruct Hx as (r & Hr & Hx & _).
  apply In_valid_indices. rewrite <- Hx. now apply nth_In.
Qed.

(** The two [continue] statements skip samples with nothing to select. *)
Lemma mask_sample_fst ml msl p seq g :
  fst (StrategyA.mask_sample ml msl p seq g)
  = fold_left (StrategyA.write_segment ml (StrategyA.starts seq)
                                       (StrategyA.ends seq))
              (fst (StrategyA.select msl p seq g)) seq.
Proof.
  unfold StrategyA.mask_sample.
  assert (Hnone : where_ (StrategyA.valid_mask msl seq) = [] ->
                  fst (StrategyA.select msl p seq g) = []).
  { intros E. unfold StrategyA.select. rewrite E. reflexivity. }
  destruct (Nat.ltb_spec (length (StrategyA.boundaries seq)) 2) as [Hlt|Hge].
  - rewrite Hnone; [reflexivity|].
    assert (Hv : StrategyA.valid_mask msl seq = []).
    { apply length_zero_iff_nil. rewrite length_valid_mask, length_starts. lia. }
    now rewrite Hv.
  - destruct (any (StrategyA.valid_mask msl seq)) eqn:Eany; cbn [negb].
    + now destruct (StrategyA.select msl p seq g).
    + rewrite Hnone; [reflexivity|].
      destruct (where_ (StrategyA.valid_mask msl seq)) as [|x l] eqn:E; auto.
      exfalso. assert (Hx : In x (where_ (StrategyA.valid_mask msl seq)))
        by (rewrite E; now left).
      apply In_where in Hx. destruct Hx as [Hx Hv].
      rewrite (proj1 (any_false_iff _) Eany) in Hv by lia. discriminate.
Qed.

(** Is frame [i] of the sample inside the window of a selected segment. *)
Definition marked_A (ml msl : Z) (p : Q) (seq : list Z) (g : rng) (i : Z)
  : bool :=
  existsb (fun x => in_window ml (index (StrategyA.starts seq) x)
                              (index (StrategyA.ends seq) x) i)
          (fst (StrategyA.select msl p seq g)).

Lemma index_of_nat t j : index t (Z.of_nat j) = nth j t 0.
Proof. unfold index. now rewrite Nat2Z.id. Qed.

Lemma marked_A_iff ml msl p seq g i :
  marked_A ml msl p seq g i = true <->
  exists j, In (Z.of_nat j) (fst (StrategyA.select msl p seq g))
            /\ (j < length (StrategyA.starts seq))%nat
            /\ in_window ml (nth j (StrategyA.starts seq) 0)
                         (nth j (StrategyA.ends seq) 0) i = true.
Proof.
  unfold marked_A. rewrite existsb_exists. split.
  - intros (x & Hx & Hw).
    destruct (select_eligible _ _ _ _ _ Hx) as (j & Hj & -> & _).
    rewrite !index_of_nat in Hw. eauto.
  - intros (j & Hin & Hj & Hw). exists (Z.of_nat j).
    rewrite !index_of_nat. auto.
Qed.

Lemma length_mask_sample ml msl p seq g :
  length (fst (StrategyA.mask_sample ml msl p seq g)) = length seq.
Proof. rewrite mask_sample_fst. apply length_write_segments. Qed.

(** A frame of the new row is the marker inside a selected window and the
    shifted value elsewhere. *)
Lemma nth_mask_sample ml msl p seq g i :
  (i < length seq)%nat ->
  nth i (fst (StrategyA.mask_sample ml msl p seq g)) 0
  = if marked_A ml msl p seq g (Z.of_nat i) then 1 else nth i seq 0.
Proof.
  intros Hi. rewrite mask_sample_fst. apply nth_write_segments; auto.
  intros x Hx. destruct (select_eligible _ _ _ _ _ Hx) as (j & Hj & -> & _).
  rewrite !index_of_nat. pose proof (segment_bounds seq Hj). lia.
Qed.

(** The loop over the samples. *)

Lemma length_for_samples ml msl p rows g :
  length (fst (StrategyA.for_samples ml msl p rows g)) = length rows.
Proof.
  revert g. induction rows as [|seq rows IH]; intros g; simpl; auto.
  destruct (StrategyA.mask_sample ml msl p seq g) as [row g1].
  specialize (IH g1).
  destruct (StrategyA.for_samples ml msl p rows g1) as [rs g2].
  simpl in *. now rewrite IH.
Qed.

Lemma nth_for_samples ml msl p rows g b :
  (b < length rows)%nat ->
  nth b (fst (StrategyA.for_samples ml msl p rows g)) []
  = fst (StrategyA.mask_sample ml msl p (nth b rows [])
           (snd (StrategyA.for_samples ml msl p (firstn b rows) g))).
Proof.
  revert g b. induction rows as [|seq rows IH]; intros g b Hb; simpl in Hb;
    [lia|].
  destruct b as [|b].
  - simpl. destruct (StrategyA.mask_sample ml msl p seq g) as [row g1].
    now destruct (StrategyA.for_samples ml msl p rows g1).
  - simpl. destruct (StrategyA.mask_sample ml msl p seq g) as [row g1].
    specialize (IH g1 b).
    destruct (StrategyA.for_samples ml msl p rows g1) as [rs g2].
    destruct (StrategyA.for_samples ml msl p (firstn b rows) g1) as [rs' g2'].
    simpl in *. apply IH. lia.
Qed.

Lemma length_fast_bbc_mask ml msl p mel2ph g :
  length (StrategyA.fast_bbc_mask ml msl p mel2ph g) = length mel2ph.
Proof.
  unfold StrategyA.fast_bbc_mask, StrategyA.fast_bbc_mask_st.
  rewrite length_for_samples. unfold shift_all. apply length_map.
Qed.

Lemma nth_shift_all mel2ph b :
  nth b (shift_all mel2ph) [] = map shift (nth b mel2ph []).
Proof.
  unfold shift_all. change (@nil Z) with (map shift []) at 1. apply map_nth.
Qed.

Lemma nth_fast_bbc_mask ml msl p mel2ph g b :
  (b < length mel2ph)%nat ->
  nth b (StrategyA.fast_bbc_mask ml msl p mel2ph g) []
  = fst (StrategyA.mask_sample ml msl p (map shift (nth b mel2ph []))
                               (StrategyA.rng_at ml msl p mel2ph g b)).
Proof.
  intros Hb. unfold StrategyA.fast_bbc_mask, StrategyA.fast_bbc_mask_st.
  rewrite nth_for_samples by (unfold shift_all; now rewrite length_map).
  now rewrite nth_shift_all.
Qed.

(** ** Reductions along a row *)

Lemma fold_min_le_init (l : list Z) (x : Z) : fold_left Z.min l x <= x.
Proof.
  revert x. induction l as [|y l IH]; intros x; simpl; [lia|].
  specialize (IH (Z.min x y)). lia.
Qed.

Lemma fold_min_le (l : list Z) (x y : Z) : In y l -> fold_left Z.min l x <= y.
Proof.
  revert x. induction l as [|z l IH]; intros x; simpl; [tauto|].
  intros [->|Hy].
  - pose proof (fold_min_le_init l (Z.min x y)). lia.
  - now apply IH.
Qed.

Lemma fold_min_In (l : list Z) (x : Z) :
  fold_left Z.min l x = x \/ In (fold_left Z.min l x) l.
Proof.
  revert x. induction l as [|z l IH]; intros x; simpl; auto.
  destruct (IH (Z.min x z)) as [E|Hin]; auto.
  rewrite E. destruct (Z.min_spec x z) as [[_ ->]|[_ ->]]; auto.
Qed.

Lemma min_le (t : list Z) (y : Z) : In y t -> min_ t <= y.
Proof.
  destruct t as [|x t]; simpl; [tauto|]. intros [<-|Hy].
  - apply fold_min_le_init.
  - now apply fold_min_le.
Qed.

Lemma min_In (t : list Z) : t <> [] -> In (min_ t) t.
Proof.
  destruct t as [|x t]; [congruence|]. intros _. simpl.
  destruct (fold_min_In t x) as [->|H]; auto.
Qed.

Lemma sum_app (l1 l2 : list Z) : sum (l1 ++ l2) = sum l1 + sum l2.
Proof. unfold sum. induction l1; simpl; lia. Qed.

Lemma sum_map_one (f : Z -> Z) (x : Z) : sum (map f [x]) = f x.
Proof. unfold sum. simpl. lia. Qed.

Lemma arange_S n : arange (S n) = arange n ++ [Z.of_nat n].
Proof. unfold arange. now rewrite seq_S, map_app. Qed.

(** Counting the frames of an interval. *)
Lemma sum_interval (a e : Z) (n : nat) :
  0 <= a ->
  sum (map (fun l => StrategyB.bool_to_Z ((a <=? l) && (l <? e))) (arange n))
  = Z.max 0 (Z.min e (Z.of_nat n) - a).
Proof.
  intros Ha. induction n as [|n IH].
  - simpl. lia.
  - rewrite arange_S, map_app, sum_app, IH, sum_map_one.
    destruct (Z.leb_spec a (Z.of_nat n)); destruct (Z.ltb_spec (Z.of_nat n) e);
      simpl StrategyB.bool_to_Z; lia.
Qed.

Lemma sum_none (n : nat) : sum (map (fun _ : Z => 0) (arange n)) = 0.
Proof.
  induction n as [|n IH]; [reflexivity|].
  now rewrite arange_S, map_app, sum_app, IH, sum_map_one.
Qed.

(** Reading one frame through a one-hot mask. *)
Lemma sum_single (h : Z -> Z) (a : Z) (n : nat) :
  0 <= a ->
  sum (map (fun l => if l =? a then h l else 0) (arange n))
  = if a <? Z.of_nat n then h a else 0.
Proof.
  intros Ha. induction n as [|n IH].
  - simpl. destruct (Z.ltb_spec a 0); auto; lia.
  - rewrite arange_S, map_app, sum_app, IH, sum_map_one.
    destruct (Z.eqb_spec (Z.of_nat n) a) as [<-|Hne].
    + destruct (Z.ltb_spec (Z.of_nat n) (Z.of_nat n)); [lia|].
      destruct (Z.ltb_spec (Z.of_nat n) (Z.of_nat (S n))); lia.
    + destruct (Z.ltb_spec a (Z.of_nat n));
        destruct (Z.ltb_spec a (Z.of_nat (S n))); lia.
Qed.

(** Two rows over the same positions agree when they agree frame by frame. *)
Lemma map_arange_ext {A : Type} (l : list A) (d : A) (f : Z -> A) (n : nat) :
  length l = n ->
  (forall i, (i < n)%nat -> nth i l d = f (Z.of_nat i)) ->
  l = map f (arange n).
Proof.
  intros Hlen H. apply (nth_ext _ _ d (f 0)).
  - now rewrite length_map, length_arange.
  - intros i Hi. rewrite Hlen in Hi. rewrite H by assumption.
    rewrite (nth_indep _ (f 0) (f (Z.of_nat 0)))
      by now rewrite length_map, length_arange.
    rewrite map_nth. now rewrite nth_arange.
Qed.

(** ** One slot of the dense segment table *)

Section SlotFacts.

Variable seq_len : nat.
Variable ids : list Z.
Variable s : Z.
Hypothesis length_ids : length ids = seq_len.

Lemma length_segment_mask : length (StrategyB.segment_mask ids s) = seq_len.
Proof. unfold StrategyB.segment_mask. now rewrite length_map. Qed.

Lemma nth_segment_mask l :
  nth l (StrategyB.segment_mask ids s) false = (nth l ids (s + 1) =? s).
Proof.
  unfold StrategyB.segment_mask.
  replace false with ((s + 1) =? s) at 1 by (apply Z.eqb_neq; lia).
  apply (map_nth (fun id => id =? s)).
Qed.

Lemma length_pos_masked :
  length (StrategyB.pos_masked seq_len ids s) = seq_len.
Proof.
  unfold StrategyB.pos_masked.
  rewrite length_zip_with, length_segment_mask, length_arange. lia.
Qed.

Lemma nth_pos_masked l :
  (l < seq_len)%nat ->
  nth l (StrategyB.pos_masked seq_len ids s) 0
  = if nth l ids (s + 1) =? s then Z.of_nat l else Z.of_nat seq_len.
Proof.
  intros Hl. unfold StrategyB.pos_masked.
  rewrite nth_zip_with with (d1 := false) (d2 := 0).
  - now rewrite nth_segment_mask, nth_arange.
  - now rewrite length_segment_mask.
  - now rewrite length_arange.
Qed.

(** A slot that holds the frames [[a, e)]. *)
Section Real.

Variables a e : Z.
Hypothesis interval : 0 <= a < e /\ e <= Z.of_nat seq_len.
Hypothesis member :
  forall l, (l < seq_len)%nat ->
            (nth l ids (s + 1) =? s) = (a <=? Z.of_nat l) && (Z.of_nat l <? e).

Lemma segment_start_real : StrategyB.segment_start seq_len ids s = a.
Proof.
  unfold StrategyB.segment_start.
  assert (Hne : StrategyB.pos_masked seq_len ids s <> []).
  { intros E. apply (f_equal (@length Z)) in E.
    rewrite length_pos_masked in E. simpl in E. lia. }
  apply Z.le_antisymm.
  - apply min_le. replace a with (nth (Z.to_nat a) (StrategyB.pos_masked seq_len ids s) 0).
    + apply nth_In. rewrite length_pos_masked. lia.
    + rewrite nth_pos_masked, member by lia. rewrite Z2Nat.id by lia.
      replace (a <=? a) with true by (symmetry; apply Z.leb_le; lia).
      replace (a <? e) with true by (symmetry; apply Z.ltb_lt; lia).
      reflexivity.
  - destruct (In_nth _ _ 0 (min_In Hne)) as (l & Hl & El).
    rewrite length_pos_masked in Hl. rewrite <- El.
    rewrite nth_pos_masked, member by assumption.
    destruct (Z.leb_spec a (Z.of_nat l)); simpl; [|lia].
    destruct (Z.ltb_spec (Z.of_nat l) e); lia.
Qed.

Lemma segment_length_real : StrategyB.segment_length ids s = e - a.
Proof.
  unfold StrategyB.segment_length.
  rewrite (map_arange_ext (StrategyB.segment_mask ids s) false
             (fun l => (a <=? l) && (l <? e)) length_segment_mask).
  - rewrite map_map, sum_interval by lia. lia.
  - intros i Hi. now rewrite nth_segment_mask, member.
Qed.

Variable seq : list Z.
Hypothesis length_seq : length seq = seq_len.

Lemma segment_value_real :
  StrategyB.segment_value seq_len ids seq s = nth (Z.to_nat a) seq 0.
Proof.
  unfold StrategyB.segment_value, StrategyB.values_masked,
    StrategyB.first_pos_mask.
  rewrite segment_start_real.
  rewrite (map_arange_ext
             (zip_with (fun (m : bool) v => if m then v else 0)
                       (map (fun pm => pm =? a)
                            (StrategyB.pos_masked seq_len ids s)) seq)
             0 (fun l => if l =? a then nth (Z.to_nat l) seq 0 else 0)
             (n := seq_len)).
  - rewrite sum_single by lia.
    destruct (Z.ltb_spec a (Z.of_nat seq_len)); auto; lia.
  - rewrite length_zip_with, length_map, length_pos_masked. lia.
  - intros i Hi.
    rewrite nth_zip_with with (d1 := false) (d2 := 0);
      [|rewrite length_map, length_pos_masked|]; try lia.
    replace false with (Z.of_nat seq_len =? a) at 1
      by (apply Z.eqb_neq; lia).
    rewrite (map_nth (fun pm => pm =? a)).
    rewrite Nat2Z.id.
    rewrite (nth_indep _ (Z.of_nat seq_len) 0) by now rewrite length_pos_masked.
    rewrite nth_pos_masked, member by assumption.
    destruct (Z.leb_spec a (Z.of_nat i)); destruct (Z.ltb_spec (Z.of_nat i) e);
      cbn [andb]; auto;
      destruct (Z.eqb_spec (Z.of_nat i) a);
      destruct (Z.eqb_spec (Z.of_nat seq_len) a); auto; lia.
Qed.

End Real.

(** A slot that holds no frame. *)
Section Empty.

Hypothesis seq_len_pos : (0 < seq_len)%nat.
Hypothesis no_member :
  forall l, (l < seq_len)%nat -> (nth l ids (s + 1) =? s) = false.

Lemma segment_start_empty :
  StrategyB.segment_start seq_len ids s = Z.of_nat seq_len.
Proof.
  unfold StrategyB.segment_start.
  assert (Hne : StrategyB.pos_masked seq_len ids s <> []).
  { intros E. apply (f_equal (@length Z)) in E.
    rewrite length_pos_masked in E. simpl in E. lia. }
  destruct (In_nth _ _ 0 (min_In Hne)) as (l & Hl & El).
  rewrite length_pos_masked in Hl. rewrite <- El.
  now rewrite nth_pos_masked, no_member.
Qed.

Lemma segment_length_empty : StrategyB.segment_length ids s = 0.
Proof.
  unfold StrategyB.segment_length.
  rewrite (map_arange_ext (StrategyB.segment_mask ids s) false
             (fun _ => false) length_segment_mask).
  - rewrite map_map. apply sum_none.
  - intros i Hi. now rewrite nth_segment_mask, no_member.
Qed.

End Empty.

End SlotFacts.

(** ** Segment ids: the dense view of the boundaries *)

Lemma length_cumsum_from c t : length (cumsum_from c t) = length t.
Proof. revert c. induction t; intros c; simpl; auto. Qed.

Lemma length_segment_ids seq : length (StrategyB.segment_ids seq) = length seq.
Proof.
  unfold StrategyB.segment_ids, StrategyB.boundaries, cumsum.
  rewrite length_removelast', length_map, length_cumsum_from, length_map,
    length_diff_mask. lia.
Qed.

(** The id of a frame counts the boundaries up to it, less one. *)
Lemma nth_segment_ids seq l d :
  (l < length seq)%nat ->
  nth l (StrategyB.segment_ids seq) d
  = Z.of_nat (count_le (Z.of_nat l) (StrategyA.boundaries seq)) - 1.
Proof.
  intros Hl. rewrite (nth_indep _ d (0 - 1)) by now rewrite length_segment_ids.
  unfold StrategyB.segment_ids, StrategyB.boundaries, cumsum.
  rewrite nth_removelast
    by (rewrite length_map, length_cumsum_from, length_map, length_diff_mask; lia).
  rewrite (map_nth (fun c => c - 1)).
  rewrite (nth_cumsum_from _ 0 0) by (rewrite length_diff_mask; lia).
  reflexivity.
Qed.

Section Ids.

Variable seq : list Z.
Hypothesis seq_nonneg : nonneg_row seq.

Lemma segment_ids_range l d :
  (l < length seq)%nat ->
  0 <= nth l (StrategyB.segment_ids seq) d
       < Z.of_nat (length (StrategyA.starts seq)).
Proof.
  intros Hl. rewrite nth_segment_ids by assumption. rewrite length_starts.
  assert (HL : (0 < length seq)%nat) by lia.
  pose proof (boundaries_two seq_nonneg HL) as H2.
  pose proof (boundaries_head seq_nonneg HL) as Hh.
  pose proof (boundaries_final seq_nonneg HL) as Hf.
  destruct (count_le_sorted (Z.of_nat l) (boundaries_sorted seq)) as [H1 H1'].
  pose proof (count_le_length (Z.of_nat l) (StrategyA.boundaries seq)) as Hc.
  assert (count_le (Z.of_nat l) (StrategyA.boundaries seq) <> 0)%nat.
  { intros E. specialize (H1' 0%nat). lia. }
  assert (count_le (Z.of_nat l) (StrategyA.boundaries seq)
          <> length (StrategyA.boundaries seq))%nat.
  { intros E. specialize (H1 (length (StrategyA.boundaries seq) - 1)%nat). lia. }
  lia.
Qed.

(** Frame [l] belongs to segment [j] exactly when it lies between the
    [j]-th boundary and the next. *)
Lemma segment_ids_member j l d :
  (j < length (StrategyA.starts seq))%nat -> (l < length seq)%nat ->
  (nth l (StrategyB.segment_ids seq) d =? Z.of_nat j)
  = (nth j (StrategyA.starts seq) 0 <=? Z.of_nat l)
    && (Z.of_nat l <? nth j (StrategyA.ends seq) 0).
Proof.
  intros Hj Hl. rewrite nth_segment_ids, nth_starts, nth_ends by assumption.
  rewrite length_starts in Hj.
  assert (Hj' : (j < length (StrategyA.boundaries seq))%nat) by lia.
  pose proof (count_le_locate (Z.of_nat l) (boundaries_sorted seq) Hj') as Hloc.
  destruct (Z.eqb_spec (Z.of_nat (count_le (Z.of_nat l) (StrategyA.boundaries seq)) - 1)
                       (Z.of_nat j)) as [E|E].
  - assert (E' : count_le (Z.of_nat l) (StrategyA.boundaries seq) = S j) by lia.
    apply Hloc in E'. destruct E' as [Hlo Hhi].
    symmetry. apply andb_true_iff. split; [apply Z.leb_le | apply Z.ltb_lt]; auto.
    apply Hhi. lia.
  - symmetry. apply not_true_is_false. intros Hw.
    apply andb_true_iff in Hw. destruct Hw as [Hlo Hhi].
    apply Z.leb_le in Hlo. apply Z.ltb_lt in Hhi.
    assert (count_le (Z.of_nat l) (StrategyA.boundaries seq) = S j)
      by (apply Hloc; auto).
    lia.
Qed.

(** A slot past the last real segment holds no frame. *)
Lemma segment_ids_beyond s l d :
  Z.of_nat (length (StrategyA.starts seq)) <= s -> (l < length seq)%nat ->
  (nth l (StrategyB.segment_ids seq) d =? s) = false.
Proof.
  intros Hs Hl. pose proof (segment_ids_range d Hl). apply Z.eqb_neq. lia.
Qed.

(** The id of the last frame is the number of segments, less one. *)
Lemma segment_ids_last d :
  (0 < length seq)%nat ->
  nth (length seq - 1) (StrategyB.segment_ids seq) d
  = Z.of_nat (length (StrategyA.starts seq)) - 1.
Proof.
  intros HL.
  assert (Hk : (0 < length (StrategyA.starts seq))%nat).
  { rewrite length_starts. pose proof (boundaries_two seq_nonneg HL). lia. }
  set (j := (length (StrategyA.starts seq) - 1)%nat).
  assert (Hj : (j < length (StrategyA.starts seq))%nat) by (unfold j; lia).
  assert (Hl : (length seq - 1 < length seq)%nat) by lia.
  pose proof (segment_ids_member d Hj Hl) as Hm.
  rewrite nth_ends in Hm. replace (S j) with (length (StrategyA.boundaries seq) - 1)%nat in Hm
    by (unfold j; rewrite length_starts in *; lia).
  rewrite (boundaries_final seq_nonneg HL) in Hm.
  pose proof (segment_bounds seq Hj) as (B0 & B1 & B2).
  replace (Z.of_nat (length seq - 1) <? Z.of_nat (length seq)) with true in Hm
    by (symmetry; apply Z.ltb_lt; lia).
  replace (nth j (StrategyA.starts seq) 0 <=? Z.of_nat (length seq - 1)) with true in Hm.
  - simpl in Hm. apply Z.eqb_eq in Hm. rewrite Hm. unfold j. lia.
  - symmetry. apply Z.leb_le.
    rewrite nth_ends in B1, B2.
    replace (S j) with (length (StrategyA.boundaries seq) - 1)%nat in B1
      by (unfold j; rewrite length_starts in *; lia).
    rewrite (boundaries_final seq_nonneg HL) in B1. lia.
Qed.

End Ids.

Lemma nth_map_in {A B : Type} (f : A -> B) (l : list A) i d d' :
  (i < length l)%nat -> nth i (map f l) d' = f (nth i l d).
Proof.
  intros Hi. rewrite (nth_indep _ d' (f d)) by now rewrite length_map.
  apply map_nth.
Qed.

(** ** Both strategies read the same segments off a row *)

Section RowTable.

Variable seq : list Z.
Hypothesis seq_nonneg : nonneg_row seq.

Variable j : nat.
Hypothesis j_segment : (j < length (StrategyA.starts seq))%nat.

Let ids_member :
  forall l, (l < length seq)%nat ->
    (nth l (StrategyB.segment_ids seq) (Z.of_nat j + 1) =? Z.of_nat j)
    = (nth j (StrategyA.starts seq) 0 <=? Z.of_nat l)
      && (Z.of_nat l <? nth j (StrategyA.ends seq) 0).
Proof. intros l Hl. now apply segment_ids_member. Qed.

Lemma slot_start_real :
  StrategyB.segment_start (length seq) (StrategyB.segment_ids seq) (Z.of_nat j)
  = nth j (StrategyA.starts seq) 0.
Proof.
  apply segment_start_real with (e := nth j (StrategyA.ends seq) 0).
  - apply length_segment_ids.
  - pose proof (segment_bounds seq j_segment). lia.
  - exact ids_member.
Qed.

Lemma slot_length_real :
  StrategyB.segment_length (StrategyB.segment_ids seq) (Z.of_nat j)
  = nth j (StrategyA.lengths seq) 0.
Proof.
  rewrite nth_lengths by assumption.
  apply segment_length_real with (seq_len := length seq).
  - apply length_segment_ids.
  - pose proof (segment_bounds seq j_segment). lia.
  - exact ids_member.
Qed.

Lemma slot_value_real :
  StrategyB.segment_value (length seq) (StrategyB.segment_ids seq) seq
                          (Z.of_nat j)
  = nth j (StrategyA.values seq) 0.
Proof.
  rewrite nth_values by assumption.
  apply segment_value_real with (e := nth j (StrategyA.ends seq) 0).
  - apply length_segment_ids.
  - pose proof (segment_bounds seq j_segment). lia.
  - exact ids_member.
  - reflexivity.
Qed.

End RowTable.

Section RowPadding.

Variable seq : list Z.
Hypothesis seq_nonneg : nonneg_row seq.
Hypothesis seq_frames : (0 < length seq)%nat.

Variable s : Z.
Hypothesis s_beyond : Z.of_nat (length (StrategyA.starts seq)) <= s.

Lemma slot_start_padding :
  StrategyB.segment_start (length seq) (StrategyB.segment_ids seq) s
  = Z.of_nat (length seq).
Proof.
  apply segment_start_empty; auto using length_segment_ids.
  intros l Hl. now apply segment_ids_beyond.
Qed.

Lemma slot_length_padding :
  StrategyB.segment_length (StrategyB.segment_ids seq) s = 0.
Proof.
  apply segment_length_empty with (seq_len := length seq);
    auto using length_segment_ids.
  intros l Hl. now apply segment_ids_beyond.
Qed.

End RowPadding.

(** ** The largest segment id of the batch *)

Lemma fold_max_ge_init (l : list Z) (x : Z) : x <= fold_left Z.max l x.
Proof.
  revert x. induction l as [|y l IH]; intros x; simpl; [lia|].
  specialize (IH (Z.max x y)). lia.
Qed.

Lemma fold_max_ge (l : list Z) (x y : Z) : In y l -> y <= fold_left Z.max l x.
Proof.
  revert x. induction l as [|z l IH]; intros x; simpl; [tauto|].
  intros [->|Hy].
  - pose proof (fold_max_ge_init l (Z.max x y)). lia.
  - now apply IH.
Qed.

Lemma fold_max_In (l : list Z) (x : Z) :
  fold_left Z.max l x = x \/ In (fold_left Z.max l x) l.
Proof.
  revert x. induction l as [|z l IH]; intros x; simpl; auto.
  destruct (IH (Z.max x z)) as [E|Hin]; auto.
  rewrite E. destruct (Z.max_spec x z) as [[_ ->]|[_ ->]]; auto.
Qed.

Lemma max_all_Some (t : list (list Z)) (mx : Z) :
  max_all t = Some mx ->
  (forall r x, In r t -> In x r -> x <= mx)
  /\ exists r, In r t /\ In mx r.
Proof.
  unfold max_all. destruct (concat t) as [|x rest] eqn:E; [discriminate|].
  intros H. injection H as <-. split.
  - intros r y Hr Hy.
    assert (Hin : In y (concat t)) by (apply in_concat; eauto).
    rewrite E in Hin. destruct Hin as [<-|Hin].
    + apply fold_max_ge_init.
    + now apply fold_max_ge.
  - assert (Hin : In (fold_left Z.max rest x) (concat t)).
    { rewrite E. destruct (fold_max_In rest x) as [->|H]; [left|right]; auto. }
    apply in_concat in Hin. destruct Hin as (r & Hr & Hx). eauto.
Qed.

Lemma max_all_None (t : list (list Z)) :
  max_all t = None <-> concat t = [].
Proof.
  unfold max_all. destruct (concat t); split; congruence.
Qed.

(** A batch: [B] rows of [L] frames each. *)
Definition rect (L : nat) (t : list (list Z)) : Prop :=
  Forall (fun r => length r = L) t.

Lemma rect_nth L t b : rect L t -> (b < length t)%nat -> length (nth b t []) = L.
Proof.
  unfold rect. rewrite Forall_forall. intros H Hb. apply H, nth_In, Hb.
Qed.

Lemma rect_hd L t : rect L t -> t <> [] -> length (hd [] t) = L.
Proof.
  intros H Hne. destruct t as [|r t]; [congruence|].
  simpl. now inversion H.
Qed.

Lemma nonneg_nth t b : nonneg t -> nonneg_row (nth b t []).
Proof.
  intros H. destruct (Nat.lt_ge_cases b (length t)) as [Hb|Hb].
  - unfold nonneg in H. rewrite Forall_forall in H. apply H, nth_In, Hb.
  - rewrite nth_overflow by assumption. constructor.
Qed.

(** ** The dense segment table *)

Section Compute.

Variables masked ids : list (list Z).
Variable max_segments : Z.
Variable seq_len : nat.
Hypothesis same_batch : length masked = length ids.

Let S := Z.to_nat max_segments.
Let table := StrategyB.compute_segment_info_parallel masked ids max_segments seq_len.

Lemma length_compute :
  length (fst (fst table)) = length ids
  /\ length (snd (fst table)) = length ids
  /\ length (snd table) = length ids.
Proof.
  unfold table, StrategyB.compute_segment_info_parallel. simpl.
  rewrite !length_map, length_zip_with. lia.
Qed.

Variable b : nat.
Hypothesis b_sample : (b < length ids)%nat.

Lemma nth_compute_starts :
  nth b (fst (fst table)) []
  = map (StrategyB.segment_start seq_len (nth b ids [])) (arange S).
Proof.
  unfold table, StrategyB.compute_segment_info_parallel. simpl.
  now rewrite nth_map_in with (d := []).
Qed.

Lemma nth_compute_lengths :
  nth b (snd (fst table)) []
  = map (StrategyB.segment_length (nth b ids [])) (arange S).
Proof.
  unfold table, StrategyB.compute_segment_info_parallel. simpl.
  now rewrite nth_map_in with (d := []).
Qed.

Lemma nth_compute_values :
  nth b (snd table) []
  = map (StrategyB.segment_value seq_len (nth b ids []) (nth b masked []))
        (arange S).
Proof.
  unfold table, StrategyB.compute_segment_info_parallel. simpl.
  rewrite nth_zip_with with (d1 := []) (d2 := []); auto. lia.
Qed.

End Compute.

(** What the table of Strategy B holds, in terms of the segments that
    Strategy A reads off each row: the first slots of a row are its real
    segments, the others are padding with start [L] and length 0. *)
Definition table_agrees (L : nat) (mel2ph : list (list Z))
           (tbl : list (list Z) * list (list Z) * list (list Z)) : Prop :=
  let '(sts, lens, vals) := tbl in
  exists S : nat,
    length sts = length mel2ph /\ length lens = length mel2ph
    /\ length vals = length mel2ph
    /\ forall b, (b < length mel2ph)%nat ->
         let seq := map shift (nth b mel2ph []) in
         let k := length (StrategyA.starts seq) in
         length (nth b sts []) = S /\ length (nth b lens []) = S
         /\ length (nth b vals []) = S /\ (k <= S)%nat
         /\ (forall j, (j < k)%nat ->
               nth j (nth b sts []) 0 = nth j (StrategyA.starts seq) 0
               /\ nth j (nth b lens []) 0 = nth j (StrategyA.lengths seq) 0
               /\ nth j (nth b vals []) 0 = nth j (StrategyA.values seq) 0)
         /\ (forall s, (k <= s < S)%nat ->
               nth s (nth b sts []) 0 = Z.of_nat L
               /\ nth s (nth b lens []) 0 = 0).

Section Batch.

Variable L : nat.
Variable mel2ph : list (list Z).
Hypothesis shape : rect L mel2ph.
Hypothesis entries : nonneg mel2ph.
Hypothesis samples : mel2ph <> [].
Hypothesis frames : (0 < L)%nat.

Let masked := shift_all mel2ph.
Let ids := map StrategyB.segment_ids masked.

Lemma length_masked_row b :
  (b < length mel2ph)%nat -> length (map shift (nth b mel2ph [])) = L.
Proof. intros Hb. rewrite length_map. now apply rect_nth. Qed.

Lemma nth_ids b :
  (b < length mel2ph)%nat ->
  nth b (map StrategyB.segment_ids (shift_all mel2ph)) []
  = StrategyB.segment_ids (map shift (nth b mel2ph [])).
Proof.
  intros Hb. rewrite nth_map_in with (d := []).
  - now rewrite nth_shift_all.
  - unfold shift_all. now rewrite length_map.
Qed.

(** On a batch with at least one frame [segment_ids.max()] succeeds, and
    [max_segments] is the largest number of segments of a row. *)
Lemma max_segment_id :
  exists mx, max_all (map StrategyB.segment_ids (shift_all mel2ph)) = Some mx
             /\ 0 <= mx
             /\ forall b, (b < length mel2ph)%nat ->
                  Z.of_nat (length (StrategyA.starts
                                      (map shift (nth b mel2ph [])))) <= mx + 1.
Proof.
  destruct (max_all (map StrategyB.segment_ids (shift_all mel2ph))) as [mx|] eqn:E.
  - exists mx. split; auto.
    destruct (max_all_Some _ E) as [Hub (r & Hr & Hmx)]. split.
    + destruct (In_nth _ _ [] Hr) as (b & Hb & Eb).
      unfold shift_all in Hb. rewrite !length_map in Hb.
      rewrite nth_ids in Eb by assumption. subst r.
      destruct (In_nth _ _ 0 Hmx) as (l & Hl & El).
      rewrite length_segment_ids in Hl. rewrite <- El.
      apply segment_ids_range; auto.
      apply nonneg_row_shift, nonneg_nth, entries.
    + intros b Hb.
      pose proof (length_masked_row Hb) as HL.
      assert (Hnn : nonneg_row (map shift (nth b mel2ph [])))
        by apply nonneg_row_shift, nonneg_nth, entries.
      assert (HL' : (0 < length (map shift (nth b mel2ph [])))%nat) by lia.
      pose proof (segment_ids_last Hnn 0 HL') as Hlast.
      assert (Hin : In (nth (length (map shift (nth b mel2ph [])) - 1)
                            (StrategyB.segment_ids (map shift (nth b mel2ph []))) 0)
                       (StrategyB.segment_ids (map shift (nth b mel2ph [])))).
      { apply nth_In. rewrite length_segment_ids. lia. }
      rewrite Hlast in Hin.
      assert (Hrow : In (StrategyB.segment_ids (map shift (nth b mel2ph [])))
                        (map StrategyB.segment_ids (shift_all mel2ph))).
      { rewrite <- nth_ids by assumption. apply nth_In.
        unfold shift_all. now rewrite !length_map. }
      pose proof (Hub _ _ Hrow Hin). lia.
  - exfalso. apply max_all_None in E.
    destruct mel2ph as [|r t]; [congruence|].
    simpl in E. apply app_eq_nil in E. destruct E as [E _].
    apply (f_equal (@length Z)) in E.
    rewrite length_segment_ids, length_map in E. simpl in E.
    inversion shape; subst. lia.
Qed.

Lemma segment_table_agrees :
  exists tbl, StrategyB.segment_table mel2ph = Some tbl
              /\ table_agrees L mel2ph tbl.
Proof.
  destruct max_segment_id as (mx & Emx & Hmx0 & Hk).
  unfold StrategyB.segment_table. rewrite Emx.
  rewrite (rect_hd shape samples).
  set (tbl := StrategyB.compute_segment_info_parallel
                (shift_all mel2ph)
                (map StrategyB.segment_ids (shift_all mel2ph)) (mx + 1) L).
  exists tbl. split; auto.
  assert (Hlen : length (shift_all mel2ph)
                 = length (map StrategyB.segment_ids (shift_all mel2ph)))
    by now rewrite length_map.
  assert (HB : length (map StrategyB.segment_ids (shift_all mel2ph))
               = length mel2ph)
    by (unfold shift_all; now rewrite !length_map).
  pose proof (@length_compute _ _ (mx + 1) L Hlen) as (L1 & L2 & L3).
  fold tbl in L1, L2, L3.
  assert (Hst := @nth_compute_starts (shift_all mel2ph)
                   (map StrategyB.segment_ids (shift_all mel2ph)) (mx + 1) L).
  assert (Hln := @nth_compute_lengths (shift_all mel2ph)
                   (map StrategyB.segment_ids (shift_all mel2ph)) (mx + 1) L).
  assert (Hvl := @nth_compute_values (shift_all mel2ph)
                   (map StrategyB.segment_ids (shift_all mel2ph)) (mx + 1) L Hlen).
  fold tbl in Hst, Hln, Hvl.
  destruct tbl as [[sts lens] vals]. simpl in *.
  exists (Z.to_nat (mx + 1)). rewrite L1, L2, L3, HB.
  repeat split; auto.
  - rewrite Hst by lia. now rewrite length_map, length_arange.
  - rewrite Hln by lia. now rewrite length_map, length_arange.
  - rewrite Hvl by lia. now rewrite length_map, length_arange.
  - specialize (Hk b H). lia.
  - rewrite Hst by lia. specialize (Hk b H).
    rewrite nth_map_in with (d := 0) by (rewrite length_arange; lia).
    rewrite nth_arange by lia. rewrite nth_ids by assumption.
    rewrite <- (length_masked_row H) at 1.
    apply slot_start_real; auto using nonneg_row_shift, nonneg_nth.
  - rewrite Hln by lia. specialize (Hk b H).
    rewrite nth_map_in with (d := 0) by (rewrite length_arange; lia).
    rewrite nth_arange by lia. rewrite nth_ids by assumption.
    apply slot_length_real; auto using nonneg_row_shift, nonneg_nth.
  - rewrite Hvl by lia. specialize (Hk b H).
    rewrite nth_map_in with (d := 0) by (rewrite length_arange; lia).
    rewrite nth_arange by lia. rewrite nth_ids, nth_shift_all by assumption.
    rewrite <- (length_masked_row H) at 1.
    apply slot_value_real; auto using nonneg_row_shift, nonneg_nth.
  - rewrite Hst by lia.
    rewrite nth_map_in with (d := 0) by (rewrite length_arange; lia).
    rewrite nth_arange by lia. rewrite nth_ids by assumption.
    rewrite <- (length_masked_row H).
    apply slot_start_padding.
    + apply nonneg_row_shift, nonneg_nth, entries.
    + rewrite (length_masked_row H). exact frames.
    + lia.
  - rewrite Hln by lia.
    rewrite nth_map_in with (d := 0) by (rewrite length_arange; lia).
    rewrite nth_arange by lia. rewrite nth_ids by assumption.
    apply slot_length_padding.
    + apply nonneg_row_shift, nonneg_nth, entries.
    + lia.
Qed.

End Batch.

(** ** The dense mask write *)

Lemma final_mask_at_iff ml sts lens decs pos :
  StrategyB.final_mask_at ml sts lens decs pos = true <->
  exists s, (s < length sts)%nat /\ (s < length lens)%nat
            /\ (s < length decs)%nat
            /\ nth s decs false = true
            /\ in_window ml (nth s sts 0) (nth s sts 0 + nth s lens 0) pos
               = true.
Proof.
  unfold StrategyB.final_mask_at. rewrite any_true_iff.
  rewrite !length_zip_with.
  assert (Hnth : forall s, (s < length sts)%nat -> (s < length lens)%nat ->
                           (s < length decs)%nat ->
    nth s (zip_with (fun (sl : Z * Z) (d : bool) =>
                       StrategyB.mask_matrix_at ml (fst sl) (snd sl) d pos)
                    (zip_with pair sts lens) decs) false
    = in_window ml (nth s sts 0) (nth s sts 0 + nth s lens 0) pos
      && nth s decs false).
  { intros s H1 H2 H3.
    rewrite nth_zip_with with (d1 := (0, 0)) (d2 := false);
      [|rewrite length_zip_with; lia|assumption].
    rewrite nth_zip_with with (d1 := 0) (d2 := 0) by assumption.
    reflexivity. }
  split.
  - intros (s & Hs & E). exists s.
    rewrite Hnth in E by lia. apply andb_true_iff in E.
    repeat split; try lia; tauto.
  - intros (s & H1 & H2 & H3 & Hd & Hw). exists s. split; [lia|].
    rewrite Hnth by assumption. now rewrite Hd, Hw.
Qed.

Section ApplyMasks.

Variables masked sts lens : list (list Z).
Variable decs : list (list bool).
Variable ml : Z.
Variable seq_len : nat.
Hypothesis length_sts : length sts = length masked.
Hypothesis length_lens : length lens = length masked.
Hypothesis length_decs : length decs = length masked.

Let out := StrategyB.apply_masks_parallel masked sts lens decs ml seq_len.

Lemma length_apply_masks : length out = length masked.
Proof.
  unfold out, StrategyB.apply_masks_parallel.
  rewrite !length_zip_with. lia.
Qed.

Variable b : nat.
Hypothesis b_sample : (b < length masked)%nat.
Hypothesis row_frames : length (nth b masked []) = seq_len.

Lemma nth_apply_masks_row :
  nth b out []
  = zip_with (fun pos v =>
                if StrategyB.final_mask_at ml (nth b sts []) (nth b lens [])
                                           (nth b decs []) pos
                then 1 else v)
             (arange seq_len) (nth b masked []).
Proof.
  unfold out, StrategyB.apply_masks_parallel.
  rewrite nth_zip_with with (d1 := []) (d2 := ([], [], []));
    [|assumption|rewrite !length_zip_with; lia].
  rewrite nth_zip_with with (d1 := ([], [])) (d2 := []);
    [|rewrite !length_zip_with; lia|lia].
  rewrite nth_zip_with with (d1 := []) (d2 := []) by lia.
  reflexivity.
Qed.

Lemma length_apply_masks_row : length (nth b out []) = seq_len.
Proof.
  rewrite nth_apply_masks_row, length_zip_with, length_arange. lia.
Qed.

Lemma nth_apply_masks i :
  (i < seq_len)%nat ->
  nth i (nth b out []) 0
  = if StrategyB.final_mask_at ml (nth b sts []) (nth b lens [])
                               (nth b decs []) (Z.of_nat i)
    then 1 else nth i (nth b masked []) 0.
Proof.
  intros Hi. rewrite nth_apply_masks_row.
  rewrite nth_zip_with with (d1 := 0) (d2 := 0);
    [|now rewrite length_arange|lia].
  now rewrite nth_arange.
Qed.

End ApplyMasks.

(** ** The decisions of Strategy B *)

Lemma nth_rand_like {A : Type} (t : list (list A)) (g : rng) b s :
  (b < length t)%nat -> (s < length (hd [] t))%nat ->
  nth s (nth b (fst (rand_like t g)) []) 0%Q
  = g (b * length (hd [] t) + s)%nat.
Proof.
  intros Hb Hs. unfold rand_like.
  pose proof (fun r => @nth_rand (length t * length (hd [] t)) g r) as Hr.
  destruct (rand (length t * length (hd [] t)) g) as [r g']. simpl in *.
  rewrite nth_map_in with (d := 0%nat) by now rewrite length_seq.
  rewrite seq_nth by assumption.
  rewrite nth_map_in with (d := 0%nat) by now rewrite length_seq.
  rewrite seq_nth by assumption. simpl. apply Hr. nia.
Qed.

Lemma length_rand_like {A : Type} (t : list (list A)) (g : rng) :
  length (fst (rand_like t g)) = length t
  /\ forall b, (b < length t)%nat ->
               length (nth b (fst (rand_like t g)) []) = length (hd [] t).
Proof.
  unfold rand_like.
  destruct (rand (length t * length (hd [] t)) g) as [r g']. simpl.
  split.
  - now rewrite length_map, length_seq.
  - intros b Hb. rewrite nth_map_in with (d := 0%nat) by now rewrite length_seq.
    now rewrite length_map, length_seq.
Qed.

Lemma hd_cols {A : Type} (t : list (list A)) (S : nat) :
  (forall b, (b < length t)%nat -> length (nth b t []) = S) ->
  t <> [] -> length (hd [] t) = S.
Proof.
  intros H Hne. destruct t as [|r t]; [congruence|].
  apply (H 0%nat). simpl. lia.
Qed.

Section Decisions.

Variables lens vals : list (list Z).
Variables (msl : Z) (p : Q) (g : rng).
Variable S : nat.
Hypothesis length_lens : length lens = length vals.
Hypothesis vals_cols : forall b, (b < length vals)%nat -> length (nth b vals []) = S.
Hypothesis lens_cols : forall b, (b < length vals)%nat -> length (nth b lens []) = S.

Let decs := StrategyB.mask_decisions msl p lens vals g.

Lemma length_mask_decisions : length decs = length vals.
Proof.
  unfold decs, StrategyB.mask_decisions, zip_with2.
  rewrite !length_zip_with.
  destruct (length_rand_like vals g) as [-> _]. lia.
Qed.

Variable b : nat.
Hypothesis b_sample : (b < length vals)%nat.

Lemma nth_mask_decisions_row :
  nth b decs []
  = zip_with (fun (v : bool) r => v && Qltb r p)
             (zip_with (eligible msl) (nth b vals []) (nth b lens []))
             (nth b (fst (rand_like vals g)) []).
Proof.
  unfold decs, StrategyB.mask_decisions, zip_with2.
  destruct (length_rand_like vals g) as [Hr _].
  rewrite nth_zip_with with (d1 := []) (d2 := []);
    [|rewrite length_zip_with; lia|lia].
  rewrite nth_zip_with with (d1 := []) (d2 := []) by lia.
  reflexivity.
Qed.

Lemma length_mask_decisions_row : length (nth b decs []) = S.
Proof.
  rewrite nth_mask_decisions_row, !length_zip_with.
  destruct (length_rand_like vals g) as [_ Hr].
  rewrite Hr, vals_cols, lens_cols by assumption.
  rewrite (hd_cols vals_cols); [lia|].
  intros E. rewrite E in b_sample. simpl in b_sample. lia.
Qed.

(** The decision of slot [(b, s)] uses draw [b * S + s]. *)
Lemma nth_mask_decisions s :
  (s < S)%nat ->
  nth s (nth b decs []) false
  = eligible msl (nth s (nth b vals []) 0) (nth s (nth b lens []) 0)
    && Qltb (g (b * S + s)%nat) p.
Proof.
  intros Hs. rewrite nth_mask_decisions_row.
  assert (Hne : vals <> []).
  { intros E. rewrite E in b_sample. simpl in b_sample. lia. }
  destruct (length_rand_like vals g) as [_ Hr].
  rewrite nth_zip_with with (d1 := false) (d2 := 0%Q).
  - rewrite nth_zip_with with (d1 := 0) (d2 := 0);
      [|rewrite vals_cols|rewrite lens_cols]; auto.
    rewrite nth_rand_like; auto.
    + now rewrite (hd_cols vals_cols Hne).
    + now rewrite (hd_cols vals_cols Hne).
  - rewrite length_zip_with, vals_cols, lens_cols by assumption. lia.
  - rewrite Hr, (hd_cols vals_cols Hne) by assumption. exact Hs.
Qed.

End Decisions.

(** ** Frame by frame: what each strategy writes *)

(** Strategy A marks a frame when it lies in the window of a real, eligible
    segment whose draw succeeded. *)
Lemma marked_A_spec ml msl p seq g i :
  marked_A ml msl p seq g i = true <->
  exists j, (j < length (StrategyA.starts seq))%nat
            /\ eligible msl (nth j (StrategyA.values seq) 0)
                        (nth j (StrategyA.lengths seq) 0) = true
            /\ (exists r, (r < length (where_ (StrategyA.valid_mask msl seq)))%nat
                          /\ nth r (where_ (StrategyA.valid_mask msl seq)) 0
                             = Z.of_nat j
                          /\ Qltb (g r) p = true)
            /\ in_window ml (nth j (StrategyA.starts seq) 0)
                         (nth j (StrategyA.ends seq) 0) i = true.
Proof.
  rewrite marked_A_iff. split.
  - intros (j & Hin & Hj & Hw). exists j. repeat split; auto.
    + destruct (select_eligible _ _ _ _ _ Hin) as (j' & Hj' & E & He).
      apply Nat2Z.inj in E. now subst j'.
    + now apply In_select in Hin.
  - intros (j & Hj & He & Hr & Hw). exists j. repeat split; auto.
    now apply In_select.
Qed.

(** The draw Strategy B compares for slot [(b, j)]: [random_vals[b, j]]. *)
Definition draw_B (vals : list (list Z)) (g : rng) (b j : nat) : Q :=
  nth j (nth b (fst (rand_like vals g)) []) 0%Q.

(** Is frame [i] of sample [b] inside a window Strategy B writes. *)
Definition marked_B (ml msl : Z) (p : Q)
           (tbl : list (list Z) * list (list Z) * list (list Z))
           (g : rng) (b : nat) (i : Z) : bool :=
  let '(sts, lens, vals) := tbl in
  StrategyB.final_mask_at ml (nth b sts []) (nth b lens [])
    (nth b (StrategyB.mask_decisions msl p lens vals g) []) i.

Lemma in_window_empty ml st i : in_window ml st (st + 0) i = false.
Proof.
  unfold in_window. apply andb_false_iff.
  destruct (Z.leb_spec (Z.max st (st + 0 - ml)) i); auto.
  right. apply Z.ltb_ge. lia.
Qed.

Section BatchB.

Variable L : nat.
Variable mel2ph : list (list Z).
Hypothesis shape : rect L mel2ph.
Hypothesis entries : nonneg mel2ph.
Hypothesis samples : mel2ph <> [].
Hypothesis frames : (0 < L)%nat.

Variables (ml msl : Z) (p : Q) (g : rng).
Variable tbl : list (list Z) * list (list Z) * list (list Z).
Hypothesis table : StrategyB.segment_table mel2ph = Some tbl.
Hypothesis agrees : table_agrees L mel2ph tbl.

(** Strategy B marks a frame when it lies in the window of a real, eligible
    segment whose draw succeeded: padding slots never write. *)
Lemma marked_B_spec b i :
  (b < length mel2ph)%nat ->
  let seq := map shift (nth b mel2ph []) in
  marked_B ml msl p tbl g b i = true <->
  exists j, (j < length (StrategyA.starts seq))%nat
            /\ eligible msl (nth j (StrategyA.values seq) 0)
                        (nth j (StrategyA.lengths seq) 0) = true
            /\ Qltb (draw_B (snd tbl) g b j) p = true
            /\ in_window ml (nth j (StrategyA.starts seq) 0)
                         (nth j (StrategyA.ends seq) 0) i = true.
Proof.
  intros Hb seq. unfold marked_B, draw_B.
  destruct tbl as [[sts lens] vals]. simpl in agrees |- *.
  destruct agrees as (S & Lst & Lln & Lvl & Hrows).
  destruct (Hrows b Hb) as (Cst & Cln & Cvl & HkS & Hreal & Hpad).
  fold seq in HkS, Hreal, Hpad.
  assert (Hvals : forall b', (b' < length vals)%nat -> length (nth b' vals []) = S).
  { intros b' Hb'. rewrite Lvl in Hb'. now destruct (Hrows b' Hb') as (_ & _ & ? & _). }
  assert (Hlens : forall b', (b' < length vals)%nat -> length (nth b' lens []) = S).
  { intros b' Hb'. rewrite Lvl in Hb'. now destruct (Hrows b' Hb') as (_ & ? & _). }
  assert (Hlv : length lens = length vals) by lia.
  assert (Hbv : (b < length vals)%nat) by lia.
  pose proof (@length_mask_decisions_row lens vals msl p g S Hlv Hvals Hlens b Hbv)
    as Ldec.
  pose proof (fun s => @nth_mask_decisions lens vals msl p g S Hlv Hvals Hlens b Hbv s)
    as Ndec.
  assert (Hhd : length (hd [] vals) = S).
  { apply hd_cols; auto. intros E. rewrite E in Hbv. simpl in Hbv. lia. }
  assert (Hdraw : forall s, (s < S)%nat ->
            nth s (nth b (fst (rand_like vals g)) []) 0%Q = g (b * S + s)%nat).
  { intros s Hs. rewrite nth_rand_like; rewrite ?Hhd; auto. }
  rewrite final_mask_at_iff. rewrite Cst, Cln, Ldec. split.
  - intros (s & Hs & _ & _ & Hd & Hw).
    destruct (Nat.lt_ge_cases s (length (StrategyA.starts seq))) as [Hreal'|Hpad'].
    + destruct (Hreal s Hreal') as (Es & El & Ev).
      rewrite Ndec in Hd by assumption. apply andb_true_iff in Hd.
      destruct Hd as [He Hq]. rewrite Ev, El in He.
      exists s. repeat split; auto.
      * now rewrite Hdraw.
      * rewrite Es, El in Hw. rewrite nth_lengths in Hw by assumption.
        replace (nth s (StrategyA.starts seq) 0
                 + (nth s (StrategyA.ends seq) 0 - nth s (StrategyA.starts seq) 0))
          with (nth s (StrategyA.ends seq) 0) in Hw by lia.
        exact Hw.
    + destruct (Hpad s (conj Hpad' Hs)) as (Es & El).
      rewrite Es, El, in_window_empty in Hw. discriminate.
  - intros (j & Hj & He & Hq & Hw).
    destruct (Hreal j Hj) as (Es & El & Ev).
    exists j. repeat split; try lia.
    + rewrite Ndec by lia. rewrite Ev, El, He. rewrite Hdraw in Hq by lia.
      now rewrite Hq.
    + rewrite Es, El. rewrite nth_lengths by assumption.
      replace (nth j (StrategyA.starts seq) 0
               + (nth j (StrategyA.ends seq) 0 - nth j (StrategyA.starts seq) 0))
        with (nth j (StrategyA.ends seq) 0) by lia.
      exact Hw.
Qed.

(** The result of Strategy B, frame by frame. *)
Lemma fast_fast_bbc_mask_spec :
  exists out,
    StrategyB.fast_fast_bbc_mask ml msl p mel2ph g = Some out
    /\ length out = length mel2ph
    /\ forall b, (b < length mel2ph)%nat ->
         length (nth b out []) = L
         /\ forall i, (i < L)%nat ->
              nth i (nth b out []) 0
              = if marked_B ml msl p tbl g b (Z.of_nat i) then 1
                else shift (nth i (nth b mel2ph []) 0).
Proof.
  unfold StrategyB.fast_fast_bbc_mask. rewrite table.
  rewrite (rect_hd shape samples).
  destruct tbl as [[sts lens] vals] eqn:Etbl. simpl in agrees.
  destruct agrees as (S & Lst & Lln & Lvl & Hrows).
  assert (Hvals : forall b', (b' < length vals)%nat -> length (nth b' vals []) = S).
  { intros b' Hb'. rewrite Lvl in Hb'. now destruct (Hrows b' Hb') as (_ & _ & ? & _). }
  assert (Hlens : forall b', (b' < length vals)%nat -> length (nth b' lens []) = S).
  { intros b' Hb'. rewrite Lvl in Hb'. now destruct (Hrows b' Hb') as (_ & ? & _). }
  assert (Hlv : length lens = length vals) by lia.
  pose proof (@length_mask_decisions lens vals msl p g Hlv) as Ldec.
  assert (Lsh : length (shift_all mel2ph) = length mel2ph)
    by (unfold shift_all; now rewrite length_map).
  eexists. split; [reflexivity|]. split.
  - rewrite length_apply_masks; lia.
  - intros b Hb.
    assert (Hrow : length (nth b (shift_all mel2ph) []) = L).
    { rewrite nth_shift_all. now apply length_masked_row. }
    split.
    + apply length_apply_masks_row; lia.
    + intros i Hi. rewrite nth_apply_masks; try lia.
      unfold marked_B. rewrite nth_shift_all.
      rewrite nth_map_in with (d := 0); auto.
      rewrite (rect_nth shape Hb). exact Hi.
Qed.

End BatchB.

(** ** When Strategy B returns *)

Lemma concat_empty_rows (t : list (list Z)) :
  (forall r, In r t -> r = []) -> concat t = [].
Proof.
  induction t as [|r t IH]; simpl; intros H; auto.
  rewrite (H r) by auto. simpl. apply IH. auto.
Qed.

(** [segment_ids.max()] raises exactly on a batch without frames. *)
Lemma segment_table_Some_frames L mel2ph tbl :
  rect L mel2ph -> StrategyB.segment_table mel2ph = Some tbl ->
  mel2ph <> [] /\ (0 < L)%nat.
Proof.
  intros Hrect. unfold StrategyB.segment_table.
  destruct (max_all (map StrategyB.segment_ids (shift_all mel2ph))) as [mx|] eqn:E;
    [intros _|discriminate].
  assert (Hne : concat (map StrategyB.segment_ids (shift_all mel2ph)) <> []).
  { intros Hc. apply max_all_None in Hc. congruence. }
  split.
  - intros ->. now apply Hne.
  - destruct L as [|L]; [|lia]. exfalso. apply Hne.
    apply concat_empty_rows. intros r Hr.
    apply in_map_iff in Hr. destruct Hr as (seq & <- & Hseq).
    unfold shift_all in Hseq. apply in_map_iff in Hseq.
    destruct Hseq as (row & <- & Hrow).
    apply length_zero_iff_nil. rewrite length_segment_ids, length_map.
    unfold rect in Hrect. rewrite Forall_forall in Hrect. now apply Hrect.
Qed.

Lemma segment_table_None_empty L mel2ph :
  rect L mel2ph ->
  (StrategyB.segment_table mel2ph = None <-> mel2ph = [] \/ L = 0%nat).
Proof.
  intros Hrect. split.
  - intros E. destruct mel2ph as [|r t] eqn:Em; auto.
    destruct L as [|L]; auto. exfalso.
    unfold StrategyB.segment_table in E.
    destruct (max_all (map StrategyB.segment_ids (shift_all (r :: t)))) eqn:E';
      [discriminate|].
    apply max_all_None in E'. simpl in E'. apply app_eq_nil in E'.
    destruct E' as [E' _]. apply (f_equal (@length Z)) in E'.
    rewrite length_segment_ids, length_map in E'. inversion Hrect; subst.
    simpl in *. lia.
  - intros H. destruct (StrategyB.segment_table mel2ph) eqn:E; auto.
    destruct (segment_table_Some_frames Hrect E). destruct H; [congruence|lia].
Qed.

Lemma fast_fast_table ml msl p mel2ph g out :
  StrategyB.fast_fast_bbc_mask ml msl p mel2ph g = Some out ->
  exists tbl, StrategyB.segment_table mel2ph = Some tbl.
Proof.
  unfold StrategyB.fast_fast_bbc_mask.
  destruct (StrategyB.segment_table mel2ph) as [tbl|]; [eauto|discriminate].
Qed.

(** All that is known of a result of Strategy B. *)
Lemma fast_fast_bbc_mask_Some L mel2ph ml msl p g out :
  rect L mel2ph -> nonneg mel2ph ->
  StrategyB.fast_fast_bbc_mask ml msl p mel2ph g = Some out ->
  exists tbl,
    StrategyB.segment_table mel2ph = Some tbl
    /\ mel2ph <> [] /\ (0 < L)%nat
    /\ table_agrees L mel2ph tbl
    /\ length out = length mel2ph
    /\ forall b, (b < length mel2ph)%nat ->
         length (nth b out []) = L
         /\ forall i, (i < L)%nat ->
              nth i (nth b out []) 0
              = if marked_B ml msl p tbl g b (Z.of_nat i) then 1
                else shift (nth i (nth b mel2ph []) 0).
Proof.
  intros Hrect Hnn Hout.
  destruct (fast_fast_table _ _ _ _ _ Hout) as (tbl & Htbl).
  destruct (segment_table_Some_frames Hrect Htbl) as [Hne HL].
  destruct (segment_table_agrees Hrect Hnn Hne HL) as (tbl' & Htbl' & Hagree).
  assert (tbl' = tbl) by congruence. subst tbl'.
  destruct (@fast_fast_bbc_mask_spec L mel2ph Hrect Hne HL ml msl p g tbl Htbl Hagree)
    as (out' & Hout' & Hlen & Hrows).
  assert (out' = out) by congruence. subst out'.
  exists tbl. repeat split; auto; apply Hrows; auto.
Qed.

(** On a batch with at least one frame Strategy B returns. *)
Lemma fast_fast_bbc_mask_total L mel2ph ml msl p g :
  rect L mel2ph -> nonneg mel2ph -> mel2ph <> [] -> (0 < L)%nat ->
  exists out, StrategyB.fast_fast_bbc_mask ml msl p mel2ph g = Some out.
Proof.
  intros Hrect Hnn Hne HL.
  destruct (segment_table_agrees Hrect Hnn Hne HL) as (tbl & Htbl & Hagree).
  destruct (@fast_fast_bbc_mask_spec L mel2ph Hrect Hne HL ml msl p g tbl Htbl Hagree)
    as (out & Hout & _). eauto.
Qed.

(** ** Windows and draws *)

Lemma in_window_iff ml st en i :
  in_window ml st en i = true <-> Z.max st (en - ml) <= i < en.
Proof.
  unfold in_window. rewrite andb_true_iff, Z.leb_le, Z.ltb_lt. tauto.
Qed.

Lemma in_window_segment ml st en i :
  in_window ml st en i = true -> st <= i < en.
Proof. rewrite in_window_iff. lia. Qed.

Lemma Qltb_true_iff x y : Qltb x y = true <-> (x < y)%Q.
Proof.
  unfold Qltb. rewrite negb_true_iff. split.
  - intros H. apply Qnot_le_lt. intros Hle.
    apply Qle_bool_iff in Hle. congruence.
  - intros H. destruct (Qle_bool y x) eqn:E; auto.
    apply Qle_bool_iff in E. exfalso. now apply (Qlt_not_le x y).
Qed.

(** What [torch.rand] returns: draws of the interval [[0, 1)]. *)
Definition unit_draws (g : rng) : Prop :=
  forall n, (0 <= g n)%Q /\ (g n < 1)%Q.

Lemma Qltb_zero g n : unit_draws g -> Qltb (g n) 0%Q = false.
Proof.
  intros Hg. destruct (Qltb (g n) 0%Q) eqn:E; auto.
  apply Qltb_true_iff in E. destruct (Hg n) as [H0 _].
  exfalso. now apply (Qlt_not_le (g n) 0%Q).
Qed.

Lemma Qltb_one g n : unit_draws g -> Qltb (g n) 1%Q = true.
Proof. intros Hg. apply Qltb_true_iff, Hg. Qed.

Lemma half_unit_draws : unit_draws half.
Proof. intros n. unfold half. split; [discriminate | reflexivity]. Qed.

(** ** Padding slots of the dense table *)

(** C7.  In Strategy B, every slot [s] of a sample at or past the number of
    real segments of that sample has length 0 and start [L]; with
    [min_segment_length >= 1] its decision is [False] for every input and
    every draw. *)
Theorem padding_slots_never_selected
        (L : nat) (mel2ph : list (list Z)) (msl : Z) (p : Q) (g : rng)
        (sts lens vals : list (list Z)) (b s : nat) :
  rect L mel2ph -> nonneg mel2ph -> 1 <= msl ->
  StrategyB.segment_table mel2ph = Some (sts, lens, vals) ->
  (b < length mel2ph)%nat ->
  (length (StrategyA.starts (map shift (nth b mel2ph []))) <= s
   < length (nth b lens []))%nat ->
  nth s (nth b lens []) 0 = 0
  /\ nth s (nth b sts []) 0 = Z.of_nat L
  /\ eligible msl (nth s (nth b vals []) 0) (nth s (nth b lens []) 0) = false
  /\ nth s (nth b (StrategyB.mask_decisions msl p lens vals g) []) false = false.
Proof.
  intros Hrect Hnn Hmsl Htbl Hb Hs.
  destruct (segment_table_Some_frames Hrect Htbl) as [Hne HL].
  destruct (segment_table_agrees Hrect Hnn Hne HL) as (tbl' & Htbl' & Hagree).
  assert (tbl' = (sts, lens, vals)) by congruence. subst tbl'.
  simpl in Hagree. destruct Hagree as (S & Lst & Lln & Lvl & Hrows).
  destruct (Hrows b Hb) as (Cst & Cln & Cvl & HkS & Hreal & Hpad).
  rewrite Cln in Hs. destruct (Hpad s Hs) as [Es El].
  assert (Hel : eligible msl (nth s (nth b vals []) 0) (nth s (nth b lens []) 0)
                = false).
  { rewrite El. unfold eligible. apply andb_false_iff. right.
    apply Z.leb_gt. lia. }
  repeat split; auto.
  assert (Hvals : forall b', (b' < length vals)%nat -> length (nth b' vals []) = S).
  { intros b' Hb'. rewrite Lvl in Hb'. now destruct (Hrows b' Hb') as (_ & _ & ? & _). }
  assert (Hlens : forall b', (b' < length vals)%nat -> length (nth b' lens []) = S).
  { intros b' Hb'. rewrite Lvl in Hb'. now destruct (Hrows b' Hb') as (_ & ? & _). }
  assert (Hlv : length lens = length vals) by lia.
  assert (Hbv : (b < length vals)%nat) by lia.
  rewrite (@nth_mask_decisions lens vals msl p g S Hlv Hvals Hlens b Hbv s) by lia.
  now rewrite Hel.
Qed.

Lemma padding_slots_never_selected_witness :
  StrategyB.segment_table [[1; 2]; [1; 1]]
  = Some ([[0; 1]; [0; 2]], [[1; 1]; [2; 0]], [[2; 3]; [2; 4]])
  /\ nth 1 (nth 1 [[1; 1]; [2; 0]] []) 0 = 0
  /\ nth 1 (nth 1 [[0; 1]; [0; 2]] []) 0 = Z.of_nat 2
  /\ eligible 1 (nth 1 (nth 1 [[2; 3]; [2; 4]] []) 0)
               (nth 1 (nth 1 [[1; 1]; [2; 0]] []) 0) = false
  /\ nth 1 (nth 1 (StrategyB.mask_decisions 1 1%Q [[1; 1]; [2; 0]]
                                            [[2; 3]; [2; 4]] half) []) false
     = false.
Proof.
  split; [vm_compute; reflexivity|].
  apply (@padding_slots_never_selected 2 [[1; 2]; [1; 1]] 1 1%Q half
           [[0; 1]; [0; 2]] [[1; 1]; [2; 0]] [[2; 3]; [2; 4]] 1 1).
  - repeat constructor.
  - repeat constructor; lia.
  - lia.
  - vm_compute. reflexivity.
  - simpl. lia.
  - vm_compute. split; apply le_n.
Defined.

(** ** Eligibility gating *)

Lemma not_eligible msl v len :
  v = 0 \/ len < msl -> eligible msl v len = false.
Proof.
  unfold eligible. intros [->|H]; [reflexivity|].
  apply andb_false_iff. right. apply Z.leb_gt. lia.
Qed.

(** A frame of an ineligible real segment lies in no window of Strategy A. *)
Lemma ineligible_unmarked_A ml msl p seq g j i :
  (j < length (StrategyA.starts seq))%nat ->
  eligible msl (nth j (StrategyA.values seq) 0)
           (nth j (StrategyA.lengths seq) 0) = false ->
  nth j (StrategyA.starts seq) 0 <= i < nth j (StrategyA.ends seq) 0 ->
  marked_A ml msl p seq g i = false.
Proof.
  intros Hj He Hi. apply not_true_is_false. intros Hm.
  apply marked_A_spec in Hm. destruct Hm as (j' & Hj' & He' & _ & Hw).
  apply in_window_segment in Hw.
  assert (j = j') by (eapply segment_unique; eauto). subst j'. congruence.
Qed.

(** C2.  With [min_segment_length >= 1], whatever the draws, a segment
    whose value is 0 or whose length is below [min_segment_length] is never
    selected, and none of its frames is overwritten with the marker: in the
    result of either strategy they keep their shifted value, which is not 1.
    For Strategy B this covers every slot of the table, real or padding. *)
Theorem ineligible_segments_never_masked
        (L : nat) (mel2ph : list (list Z)) (ml msl : Z) (p : Q) (g : rng)
        (b j : nat) :
  rect L mel2ph -> nonneg mel2ph -> 1 <= msl ->
  (b < length mel2ph)%nat ->
  let seq := map shift (nth b mel2ph []) in
  (j < length (StrategyA.starts seq))%nat ->
  nth j (StrategyA.values seq) 0 = 0 \/ nth j (StrategyA.lengths seq) 0 < msl ->
  (~ In (Z.of_nat j)
        (fst (StrategyA.select msl p seq
                               (StrategyA.rng_at ml msl p mel2ph g b)))
   /\ forall i, nth j (StrategyA.starts seq) 0 <= Z.of_nat i
                < nth j (StrategyA.ends seq) 0 ->
        nth i (nth b (StrategyA.fast_bbc_mask ml msl p mel2ph g) []) 0
        = nth i seq 0
        /\ nth i seq 0 <> 1)
  /\ forall out sts lens vals,
       StrategyB.segment_table mel2ph = Some (sts, lens, vals) ->
       StrategyB.fast_fast_bbc_mask ml msl p mel2ph g = Some out ->
       (forall s, (s < length (nth b lens []))%nat ->
          nth s (nth b vals []) 0 = 0 \/ nth s (nth b lens []) 0 < msl ->
          nth s (nth b (StrategyB.mask_decisions msl p lens vals g) []) false
          = false)
       /\ forall i, nth j (StrategyA.starts seq) 0 <= Z.of_nat i
                    < nth j (StrategyA.ends seq) 0 ->
            nth i (nth b out []) 0 = nth i seq 0 /\ nth i seq 0 <> 1.
Proof.
  intros Hrect Hnn Hmsl Hb seq Hj Hbad.
  pose proof (not_eligible Hbad) as Hel.
  assert (Hseq : nonneg_row seq) by apply nonneg_row_shift, nonneg_nth, Hnn.
  assert (Hlen : length seq = L) by now apply length_masked_row.
  pose proof (segment_bounds seq Hj) as (B0 & B1 & B2).
  assert (Hval : forall i, (i < L)%nat -> nth i seq 0 <> 1).
  { intros i Hi. unfold seq. rewrite nth_map_in with (d := 0).
    - apply shift_not_marker. apply nonneg_row_nth, nonneg_nth, Hnn.
    - rewrite (rect_nth Hrect Hb). exact Hi. }
  split; [split|].
  - intros Hin. apply select_eligible in Hin.
    destruct Hin as (j' & Hj' & E & He'). apply Nat2Z.inj in E. subst j'.
    fold seq in He'. congruence.
  - intros i Hi. assert (Hi' : (i < L)%nat) by lia. split; auto.
    rewrite nth_fast_bbc_mask by assumption. fold seq.
    rewrite nth_mask_sample by lia.
    now rewrite (@ineligible_unmarked_A ml msl p seq _ j (Z.of_nat i) Hj Hel Hi).
  - intros out sts lens vals Htbl Hout.
    destruct (@fast_fast_bbc_mask_Some L mel2ph ml msl p g out Hrect Hnn Hout)
      as (tbl & Htbl' & Hne & HL & Hagree & Hlo & Hrows).
    assert (tbl = (sts, lens, vals)) by congruence. subst tbl. split.
    + intros s Hs Hbad'.
      simpl in Hagree. destruct Hagree as (S & Lst & Lln & Lvl & Hrows').
      destruct (Hrows' b Hb) as (Cst & Cln & Cvl & _).
      assert (Hvals : forall b', (b' < length vals)%nat ->
                                 length (nth b' vals []) = S).
      { intros b' Hb'. rewrite Lvl in Hb'.
        now destruct (Hrows' b' Hb') as (_ & _ & ? & _). }
      assert (Hlens : forall b', (b' < length vals)%nat ->
                                 length (nth b' lens []) = S).
      { intros b' Hb'. rewrite Lvl in Hb'.
        now destruct (Hrows' b' Hb') as (_ & ? & _). }
      assert (Hlv : length lens = length vals) by lia.
      assert (Hbv : (b < length vals)%nat) by lia.
      rewrite (@nth_mask_decisions lens vals msl p g S Hlv Hvals Hlens b Hbv s)
        by lia.
      now rewrite (not_eligible Hbad').
    + intros i Hi. assert (Hi' : (i < L)%nat) by lia. split; auto.
      destruct (Hrows b Hb) as [_ Hfr]. rewrite Hfr by assumption.
      assert (Hun : marked_B ml msl p (sts, lens, vals) g b (Z.of_nat i) = false).
      { apply not_true_is_false. intros Hm.
        apply (@marked_B_spec L mel2ph HL ml msl p g _ Htbl Hagree b
                              (Z.of_nat i) Hb) in Hm.
        destruct Hm as (j' & Hj' & He' & _ & Hw).
        apply in_window_segment in Hw. fold seq in Hj', He', Hw.
        assert (j = j') by (eapply segment_unique; eauto). subst j'.
        congruence. }
      rewrite Hun. unfold seq. rewrite nth_map_in with (d := 0); auto.
      rewrite (rect_nth Hrect Hb). exact Hi'.
Qed.

Lemma ineligible_segments_never_masked_witness :
  let seq := map shift (nth 0 [scenario_row] []) in
  (~ In (Z.of_nat 3)
        (fst (StrategyA.select 5 1%Q seq
                (StrategyA.rng_at 2 5 1%Q [scenario_row] half 0)))
   /\ forall i, nth 3 (StrategyA.starts seq) 0 <= Z.of_nat i
                < nth 3 (StrategyA.ends seq) 0 ->
        nth i (nth 0 (StrategyA.fast_bbc_mask 2 5 1%Q [scenario_row] half) []) 0
        = nth i seq 0
        /\ nth i seq 0 <> 1)
  /\ forall out sts lens vals,
       StrategyB.segment_table [scenario_row] = Some (sts, lens, vals) ->
       StrategyB.fast_fast_bbc_mask 2 5 1%Q [scenario_row] half = Some out ->
       (forall s, (s < length (nth 0 lens []))%nat ->
          nth s (nth 0 vals []) 0 = 0 \/ nth s (nth 0 lens []) 0 < 5 ->
          nth s (nth 0 (StrategyB.mask_decisions 5 1%Q lens vals half) []) false
          = false)
       /\ forall i, nth 3 (StrategyA.starts seq) 0 <= Z.of_nat i
                    < nth 3 (StrategyA.ends seq) 0 ->
            nth i (nth 0 out []) 0 = nth i seq 0 /\ nth i seq 0 <> 1.
Proof.
  apply (@ineligible_segments_never_masked 13 [scenario_row] 2 5 1%Q half 0 3).
  - repeat constructor.
  - repeat constructor; vm_compute; discriminate.
  - lia.
  - simpl. lia.
  - vm_compute. lia.
  - right. vm_compute. reflexivity.
Defined.

(** ** The window of one segment *)

(** How many frames of a row hold the marker. *)
Definition marker_count (row : list Z) : Z :=
  sum (map (fun v => StrategyB.bool_to_Z (v =? 1)) row).

Lemma mask_matrix_at_window ml st len d pos :
  StrategyB.mask_matrix_at ml st len d pos = in_window ml st (st + len) pos && d.
Proof. reflexivity. Qed.

(** C3.  For a segment [(start, length)] inside a row and
    [mask_length >= 1], the frames that the write of either strategy sets to
    the marker are exactly those of
    [[max(start, start+length-mask_length), start+length)]: they all belong
    to the segment [[start, start+length)] and there are
    [min(mask_length, length)] of them. *)
Theorem mask_window_exact
        (ml start len : Z) (row starts ends : list Z) (seg_idx : Z) :
  1 <= ml -> 0 <= start -> 0 <= len -> start + len <= Z.of_nat (length row) ->
  Forall (fun v => v <> 1) row ->
  index starts seg_idx = start -> index ends seg_idx = start + len ->
  let lo := Z.max start (start + len - ml) in
  let hi := start + len in
  let out := StrategyA.write_segment ml starts ends row seg_idx in
  (forall i, (i < length row)%nat ->
     (nth i out 0 = 1 <-> lo <= Z.of_nat i < hi)
     /\ (lo <= Z.of_nat i < hi -> start <= Z.of_nat i < start + len)
     /\ (~ lo <= Z.of_nat i < hi -> nth i out 0 = nth i row 0))
  /\ marker_count out = Z.min ml len
  /\ (forall pos,
        (StrategyB.mask_matrix_at ml start len true pos = true
         <-> lo <= pos < hi)
        /\ (lo <= pos < hi -> start <= pos < start + len))
  /\ sum (map (fun pos => StrategyB.bool_to_Z
                            (StrategyB.mask_matrix_at ml start len true pos))
              (arange (length row)))
     = Z.min ml len.
Proof.
  intros Hml Hst Hlen Hfit Hrow Es Ee lo hi out.
  assert (Hnth : forall i, (i < length row)%nat ->
            nth i out 0 = if in_window ml start hi (Z.of_nat i) then 1
                          else nth i row 0).
  { intros i Hi. unfold out. rewrite nth_write_segment; rewrite ?Es, ?Ee; auto.
    unfold hi. lia. }
  assert (Hrow' : forall i, (i < length row)%nat -> nth i row 0 <> 1).
  { intros i Hi. rewrite Forall_forall in Hrow. apply Hrow, nth_In, Hi. }
  assert (Hwin : forall pos, in_window ml start hi pos = true <-> lo <= pos < hi).
  { intros pos. apply in_window_iff. }
  assert (Hcount : sum (map (fun pos => StrategyB.bool_to_Z
                                          (in_window ml start hi pos))
                            (arange (length row))) = Z.min ml len).
  { unfold in_window. fold lo. rewrite sum_interval by (unfold lo; lia).
    unfold lo, hi. lia. }
  split; [|split; [|split]].
  - intros i Hi. rewrite (Hnth i Hi). specialize (Hwin (Z.of_nat i)).
    split; [|split].
    + destruct (in_window ml start hi (Z.of_nat i)) eqn:E.
      * split; [intros _; now apply Hwin | reflexivity].
      * split; [intros E1; now apply Hrow' in E1|].
        intros H. apply Hwin in H. discriminate.
    + unfold lo, hi. lia.
    + intros Hout. destruct (in_window ml start hi (Z.of_nat i)) eqn:E; auto.
      exfalso. apply Hout. now apply Hwin.
  - unfold marker_count. rewrite <- Hcount.
    rewrite (map_arange_ext out 0
               (fun pos => if in_window ml start hi pos then 1
                           else nth (Z.to_nat pos) row 0) (n := length row)).
    + rewrite map_map. f_equal. apply map_ext_in. intros pos Hpos.
      apply In_arange in Hpos.
      destruct (in_window ml start hi pos); [reflexivity|].
      assert (nth (Z.to_nat pos) row 0 <> 1) by (apply Hrow'; lia).
      destruct (Z.eqb_spec (nth (Z.to_nat pos) row 0) 1); [contradiction|].
      reflexivity.
    + unfold out. apply length_write_segment.
    + intros i Hi. rewrite Nat2Z.id. now apply Hnth.
  - intros pos. rewrite mask_matrix_at_window, andb_true_r.
    split; [apply Hwin|]. unfold lo, hi. lia.
  - rewrite <- Hcount. f_equal. apply map_ext. intros pos.
    now rewrite mask_matrix_at_window, andb_true_r.
Qed.

Lemma mask_window_exact_witness :
  let row := map shift scenario_row in
  let out := StrategyA.write_segment 2 (StrategyA.starts row)
                                     (StrategyA.ends row) row 1 in
  (forall i, (i < length row)%nat ->
     (nth i out 0 = 1 <-> Z.max 2 (2 + 6 - 2) <= Z.of_nat i < 2 + 6)
     /\ (Z.max 2 (2 + 6 - 2) <= Z.of_nat i < 2 + 6 -> 2 <= Z.of_nat i < 2 + 6)
     /\ (~ Z.max 2 (2 + 6 - 2) <= Z.of_nat i < 2 + 6 ->
         nth i out 0 = nth i row 0))
  /\ marker_count out = Z.min 2 6
  /\ (forall pos,
        (StrategyB.mask_matrix_at 2 2 6 true pos = true
         <-> Z.max 2 (2 + 6 - 2) <= pos < 2 + 6)
        /\ (Z.max 2 (2 + 6 - 2) <= pos < 2 + 6 -> 2 <= pos < 2 + 6))
  /\ sum (map (fun pos => StrategyB.bool_to_Z
                            (StrategyB.mask_matrix_at 2 2 6 true pos))
              (arange (length row)))
     = Z.min 2 6.
Proof.
  apply (@mask_window_exact 2 2 6 (map shift scenario_row)
           (StrategyA.starts (map shift scenario_row))
           (StrategyA.ends (map shift scenario_row)) 1).
  - lia.
  - lia.
  - lia.
  - vm_compute. discriminate.
  - repeat constructor; vm_compute; discriminate.
  - vm_compute. reflexivity.
  - vm_compute. reflexivity.
Defined.

(** ** Marker exclusivity *)

(** C4.  The shift maps 0 to 0 and every positive value to a value of at
    least 2, so the shifted tensor holds no marker; and a frame of the result
    of either strategy is the marker 1 exactly when it lies in the trailing
    window of a selected segment. *)
Theorem marker_iff_written
        (L : nat) (mel2ph : list (list Z)) (ml msl : Z) (p : Q) (g : rng)
        (b i : nat) :
  rect L mel2ph -> nonneg mel2ph ->
  (b < length mel2ph)%nat -> (i < L)%nat ->
  let seq := map shift (nth b mel2ph []) in
  shift 0 = 0
  /\ (forall v, 0 < v -> 2 <= shift v)
  /\ nth i seq 0 <> 1
  /\ (nth i (nth b (StrategyA.fast_bbc_mask ml msl p mel2ph g) []) 0 = 1
      <-> exists x,
            In x (fst (StrategyA.select msl p seq
                         (StrategyA.rng_at ml msl p mel2ph g b)))
            /\ Z.max (index (StrategyA.starts seq) x)
                     (index (StrategyA.ends seq) x - ml) <= Z.of_nat i
               < index (StrategyA.ends seq) x)
  /\ forall out sts lens vals,
       StrategyB.segment_table mel2ph = Some (sts, lens, vals) ->
       StrategyB.fast_fast_bbc_mask ml msl p mel2ph g = Some out ->
       (nth i (nth b out []) 0 = 1
        <-> exists s,
              (s < length (nth b sts []))%nat
              /\ nth s (nth b (StrategyB.mask_decisions msl p lens vals g) [])
                     false = true
              /\ Z.max (nth s (nth b sts []) 0)
                       (nth s (nth b sts []) 0 + nth s (nth b lens []) 0 - ml)
                 <= Z.of_nat i
                 < nth s (nth b sts []) 0 + nth s (nth b lens []) 0).
Proof.
  intros Hrect Hnn Hb Hi seq.
  assert (Hval : nth i seq 0 <> 1).
  { unfold seq. rewrite nth_map_in with (d := 0).
    - apply shift_not_marker. apply nonneg_row_nth, nonneg_nth, Hnn.
    - rewrite (rect_nth Hrect Hb). exact Hi. }
  assert (Hlen : length seq = L) by now apply length_masked_row.
  split; [reflexivity|]. split; [intros v Hv; now apply shift_positive|].
  split; [exact Hval|]. split.
  - rewrite nth_fast_bbc_mask by assumption. fold seq.
    rewrite nth_mask_sample by lia. unfold marked_A.
    destruct (existsb _ _) eqn:E.
    + split; [intros _|reflexivity].
      apply existsb_exists in E. destruct E as (x & Hx & Hw).
      exists x. split; auto. now apply in_window_iff.
    + split; [intros E1; contradiction|].
      intros (x & Hx & Hw). apply in_window_iff in Hw.
      assert (Ht : existsb
                (fun x => in_window ml (index (StrategyA.starts seq) x)
                                    (index (StrategyA.ends seq) x) (Z.of_nat i))
                (fst (StrategyA.select msl p seq
                        (StrategyA.rng_at ml msl p mel2ph g b))) = true)
        by (apply existsb_exists; eauto).
      congruence.
  - intros out sts lens vals Htbl Hout.
    destruct (@fast_fast_bbc_mask_Some L mel2ph ml msl p g out Hrect Hnn Hout)
      as (tbl & Htbl' & Hne & HL & Hagree & Hlo & Hrows).
    assert (tbl = (sts, lens, vals)) by congruence. subst tbl.
    destruct (Hrows b Hb) as [_ Hfr]. rewrite Hfr by assumption.
    replace (shift (nth i (nth b mel2ph []) 0)) with (nth i seq 0)
      by (unfold seq; rewrite nth_map_in with (d := 0); auto;
          rewrite (rect_nth Hrect Hb); exact Hi).
    simpl in Hagree. destruct Hagree as (S & Lst & Lln & Lvl & Hrows').
    destruct (Hrows' b Hb) as (Cst & Cln & Cvl & _).
    assert (Hvals : forall b', (b' < length vals)%nat ->
                               length (nth b' vals []) = S).
    { intros b' Hb'. rewrite Lvl in Hb'.
      now destruct (Hrows' b' Hb') as (_ & _ & ? & _). }
    assert (Hlens : forall b', (b' < length vals)%nat ->
                               length (nth b' lens []) = S).
    { intros b' Hb'. rewrite Lvl in Hb'.
      now destruct (Hrows' b' Hb') as (_ & ? & _). }
    assert (Hlv : length lens = length vals) by lia.
    assert (Hbv : (b < length vals)%nat) by lia.
    pose proof (@length_mask_decisions_row lens vals msl p g S Hlv Hvals Hlens
                  b Hbv) as Ldec.
    unfold marked_B.
    destruct (StrategyB.final_mask_at ml (nth b sts []) (nth b lens [])
                (nth b (StrategyB.mask_decisions msl p lens vals g) [])
                (Z.of_nat i)) eqn:E.
    + split; [intros _|reflexivity].
      apply final_mask_at_iff in E.
      destruct E as (s & H1 & H2 & H3 & Hd & Hw).
      exists s. repeat split; auto; apply in_window_iff in Hw; lia.
    + split; [intros E1; contradiction|].
      intros (s & Hs & Hd & Hw).
      assert (Ht : StrategyB.final_mask_at ml (nth b sts []) (nth b lens [])
                     (nth b (StrategyB.mask_decisions msl p lens vals g) [])
                     (Z.of_nat i) = true).
      { apply final_mask_at_iff. exists s. repeat split; try lia; auto.
        apply in_window_iff. lia. }
      congruence.
Qed.

Lemma marker_iff_written_witness :
  let seq := map shift (nth 0 [scenario_row] []) in
  shift 0 = 0
  /\ (forall v, 0 < v -> 2 <= shift v)
  /\ nth 6 seq 0 <> 1
  /\ (nth 6 (nth 0 (StrategyA.fast_bbc_mask 2 5 1%Q [scenario_row] half) []) 0
      = 1
      <-> exists x,
            In x (fst (StrategyA.select 5 1%Q seq
                         (StrategyA.rng_at 2 5 1%Q [scenario_row] half 0)))
            /\ Z.max (index (StrategyA.starts seq) x)
                     (index (StrategyA.ends seq) x - 2) <= Z.of_nat 6
               < index (StrategyA.ends seq) x)
  /\ forall out sts lens vals,
       StrategyB.segment_table [scenario_row] = Some (sts, lens, vals) ->
       StrategyB.fast_fast_bbc_mask 2 5 1%Q [scenario_row] half = Some out ->
       (nth 6 (nth 0 out []) 0 = 1
        <-> exists s,
              (s < length (nth 0 sts []))%nat
              /\ nth s (nth 0 (StrategyB.mask_decisions 5 1%Q lens vals half) [])
                     false = true
              /\ Z.max (nth s (nth 0 sts []) 0)
                       (nth s (nth 0 sts []) 0 + nth s (nth 0 lens []) 0 - 2)
                 <= Z.of_nat 6
                 < nth s (nth 0 sts []) 0 + nth s (nth 0 lens []) 0).
Proof.
  apply (@marker_iff_written 13 [scenario_row] 2 5 1%Q half 0 6).
  - repeat constructor.
  - repeat constructor; vm_compute; discriminate.
  - simpl. lia.
  - lia.
Defined.

(** * Further properties of the masking kernels *)

(** ** The draws Strategy A consumes *)

(** The eligible segments of a row: one draw is taken for each. *)
Definition eligible_count (msl : Z) (seq : list Z) : nat :=
  length (where_ (StrategyA.valid_mask msl seq)).

(** The draws taken for a list of rows of the shifted tensor. *)
Fixpoint draws_consumed (msl : Z) (rows : list (list Z)) : nat :=
  match rows with
  | [] => 0%nat
  | seq :: rest => (eligible_count msl seq + draws_consumed msl rest)%nat
  end.

Lemma where_nil_of_any_false (mask : list bool) :
  any mask = false -> where_ mask = [].
Proof.
  intros Hany. destruct (where_ mask) as [|x l] eqn:E; auto.
  exfalso. assert (Hx : In x (where_ mask)) by (rewrite E; now left).
  apply In_where in Hx. destruct Hx as [Hx Hv].
  rewrite (proj1 (any_false_iff _) Hany) in Hv by lia. discriminate.
Qed.

Lemma mask_sample_rng ml msl p seq g n :
  snd (StrategyA.mask_sample ml msl p seq g) n
  = g (eligible_count msl seq + n)%nat.
Proof.
  unfold StrategyA.mask_sample, eligible_count.
  destruct (Nat.ltb_spec (length (StrategyA.boundaries seq)) 2) as [Hlt|Hge].
  - assert (Hv : StrategyA.valid_mask msl seq = []).
    { apply length_zero_iff_nil. rewrite length_valid_mask, length_starts. lia. }
    rewrite Hv. reflexivity.
  - destruct (any (StrategyA.valid_mask msl seq)) eqn:Eany; cbn [negb].
    + reflexivity.
    + rewrite (where_nil_of_any_false _ Eany). reflexivity.
Qed.

Lemma for_samples_rng ml msl p rows g n :
  snd (StrategyA.for_samples ml msl p rows g) n
  = g (draws_consumed msl rows + n)%nat.
Proof.
  revert g n. induction rows as [|seq rows IH]; intros g n; simpl; auto.
  pose proof (mask_sample_rng ml msl p seq g) as Hs.
  destruct (StrategyA.mask_sample ml msl p seq g) as [row g1].
  specialize (IH g1 n).
  destruct (StrategyA.for_samples ml msl p rows g1) as [rs g2].
  simpl in *. rewrite IH, Hs. f_equal. lia.
Qed.

Lemma rng_at_offset ml msl p mel2ph g b n :
  StrategyA.rng_at ml msl p mel2ph g b n
  = g (draws_consumed msl (firstn b (shift_all mel2ph)) + n)%nat.
Proof. unfold StrategyA.rng_at. apply for_samples_rng. Qed.

Lemma unit_draws_rng_at ml msl p mel2ph g b :
  unit_draws g -> unit_draws (StrategyA.rng_at ml msl p mel2ph g b).
Proof. intros Hg n. rewrite rng_at_offset. apply Hg. Qed.

(** X1.  Strategy A takes one draw for each eligible segment and none for
    any other: after the whole batch the generator has advanced by the
    number of eligible segments of the batch, and sample [b] reads the draws
    that follow those of the samples before it.  Neither count depends on
    [mask_length] or on [mask_prob]. *)
Theorem fast_bbc_mask_draws
        (ml msl : Z) (p : Q) (mel2ph : list (list Z)) (g : rng) (b n : nat) :
  snd (StrategyA.fast_bbc_mask_st ml msl p mel2ph g) n
  = g (draws_consumed msl (shift_all mel2ph) + n)%nat
  /\ StrategyA.rng_at ml msl p mel2ph g b n
     = g (draws_consumed msl (firstn b (shift_all mel2ph)) + n)%nat
  /\ forall seq,
       eligible_count msl seq
       = length (filter (fun v : bool => v) (StrategyA.valid_mask msl seq)).
Proof.
  split; [apply for_samples_rng|]. split; [apply rng_at_offset|].
  intros seq. unfold eligible_count, where_.
  generalize 0. induction (StrategyA.valid_mask msl seq) as [|v l IH];
    intros k; simpl; auto.
  destruct v; simpl; now rewrite IH.
Qed.

(** ** When the two strategies return the same tensor *)

Lemma rows_ext (L : nat) (t1 t2 : list (list Z)) :
  length t1 = length t2 ->
  (forall b, (b < length t1)%nat ->
     length (nth b t1 []) = L /\ length (nth b t2 []) = L
     /\ forall i, (i < L)%nat -> nth i (nth b t1 []) 0 = nth i (nth b t2 []) 0) ->
  t1 = t2.
Proof.
  intros Hlen H. apply (nth_ext _ _ [] []); auto.
  intros b Hb. destruct (H b Hb) as (L1 & L2 & Hi).
  apply (nth_ext _ _ 0 0); [lia|].
  intros i Hi'. apply Hi. lia.
Qed.

(** The two results coincide as soon as the two strategies mark the same
    frames. *)
Lemma same_marks_same_result
      (L : nat) (mel2ph : list (list Z)) (ml msl : Z) (p : Q) (gA gB : rng)
      (tbl : list (list Z) * list (list Z) * list (list Z)) :
  rect L mel2ph -> nonneg mel2ph -> mel2ph <> [] -> (0 < L)%nat ->
  StrategyB.segment_table mel2ph = Some tbl ->
  table_agrees L mel2ph tbl ->
  (forall b i, (b < length mel2ph)%nat -> (i < L)%nat ->
     marked_A ml msl p (map shift (nth b mel2ph []))
              (StrategyA.rng_at ml msl p mel2ph gA b) (Z.of_nat i)
     = marked_B ml msl p tbl gB b (Z.of_nat i)) ->
  StrategyB.fast_fast_bbc_mask ml msl p mel2ph gB
  = Some (StrategyA.fast_bbc_mask ml msl p mel2ph gA).
Proof.
  intros Hrect Hnn Hne HL Htbl Hagree Hmarks.
  destruct (@fast_fast_bbc_mask_spec L mel2ph Hrect Hne HL ml msl p gB tbl
              Htbl Hagree) as (out & Hout & Hlen & Hrows).
  rewrite Hout. f_equal. apply (@rows_ext L).
  - now rewrite length_fast_bbc_mask.
  - intros b Hb. rewrite Hlen in Hb. destruct (Hrows b Hb) as [Lb Hfr].
    assert (Hseq : length (map shift (nth b mel2ph [])) = L)
      by now apply length_masked_row.
    split; [exact Lb|]. split.
    + rewrite nth_fast_bbc_mask by assumption. now rewrite length_mask_sample.
    + intros i Hi. rewrite Hfr by assumption.
      rewrite nth_fast_bbc_mask by assumption.
      rewrite nth_mask_sample by lia. rewrite Hmarks by assumption.
      rewrite nth_map_in with (d := 0); auto.
      rewrite (rect_nth Hrect Hb). exact Hi.
Qed.

(** The draws of the two strategies are synchronized: the [r]-th draw of a
    sample in Strategy A is the draw Strategy B compares for the slot of the
    sample's [r]-th eligible segment. *)
Definition draws_synchronized (ml msl : Z) (p : Q) (mel2ph : list (list Z))
           (gA gB : rng) : Prop :=
  forall tbl b r,
    StrategyB.segment_table mel2ph = Some tbl ->
    (b < length mel2ph)%nat ->
    (r < eligible_count msl (map shift (nth b mel2ph [])))%nat ->
    StrategyA.rng_at ml msl p mel2ph gA b r
    = draw_B (snd tbl) gB b
             (Z.to_nat (nth r (where_ (StrategyA.valid_mask
                                         msl (map shift (nth b mel2ph []))))
                            0)).

(** X2.  On a batch with at least one frame and non-negative entries, when
    the draws are synchronized, Strategy B returns exactly the tensor that
    Strategy A returns, for every [mask_length], [min_segment_length] and
    [mask_prob] (no range is assumed for them). *)
Theorem strategies_agree
        (L : nat) (mel2ph : list (list Z)) (ml msl : Z) (p : Q) (gA gB : rng) :
  rect L mel2ph -> nonneg mel2ph -> mel2ph <> [] -> (0 < L)%nat ->
  draws_synchronized ml msl p mel2ph gA gB ->
  StrategyB.fast_fast_bbc_mask ml msl p mel2ph gB
  = Some (StrategyA.fast_bbc_mask ml msl p mel2ph gA).
Proof.
  intros Hrect Hnn Hne HL Hsync.
  destruct (segment_table_agrees Hrect Hnn Hne HL) as (tbl & Htbl & Hagree).
  apply (@same_marks_same_result L mel2ph ml msl p gA gB tbl); auto.
  intros b i Hb Hi. apply Bool.eq_iff_eq_true.
  rewrite marked_A_spec.
  rewrite (@marked_B_spec L mel2ph HL ml msl p gB tbl Htbl Hagree b
                          (Z.of_nat i) Hb).
  split.
  - intros (j & Hj & He & (r & Hr & Er & Hq) & Hw).
    exists j. repeat split; auto.
    rewrite <- (Nat2Z.id j), <- Er, <- (Hsync tbl b r Htbl Hb Hr). exact Hq.
  - intros (j & Hj & He & Hq & Hw).
    exists j. repeat split; auto.
    assert (Hin : In (Z.of_nat j)
                     (where_ (StrategyA.valid_mask
                                msl (map shift (nth b mel2ph [])))))
      by (apply In_valid_indices; eauto).
    destruct (In_nth _ _ 0 Hin) as (r & Hr & Er).
    exists r. repeat split; auto.
    rewrite (Hsync tbl b r Htbl Hb Hr), Er, Nat2Z.id. exact Hq.
Qed.

(** Two generators that are synchronized on the scenario: its one eligible
    segment is segment 1, the first draw of Strategy A and the second of
    Strategy B. *)
Definition first_draw_low : rng :=
  fun n => match n with 0%nat => (1 # 4)%Q | _ => (3 # 4)%Q end.
Definition second_draw_low : rng :=
  fun n => match n with 1%nat => (1 # 4)%Q | _ => (3 # 4)%Q end.

Lemma strategies_agree_witness :
  StrategyB.fast_fast_bbc_mask 2 5 (1 # 2)%Q [scenario_row] second_draw_low
  = Some (StrategyA.fast_bbc_mask 2 5 (1 # 2)%Q [scenario_row] first_draw_low).
Proof.
  apply (@strategies_agree 13 [scenario_row] 2 5 (1 # 2)%Q
           first_draw_low second_draw_low).
  - repeat constructor.
  - repeat constructor; vm_compute; discriminate.
  - discriminate.
  - lia.
  - intros tbl b r Htbl Hb Hr.
    destruct b as [|b]; [|simpl in Hb; lia].
    destruct r as [|r]; [|vm_compute in Hr; lia].
    vm_compute in Htbl. injection Htbl as <-. vm_compute. reflexivity.
Defined.

(** ** A batch without frames *)

Lemma mask_sample_no_frame ml msl p g :
  StrategyA.mask_sample ml msl p [] g = ([], g).
Proof. reflexivity. Qed.

Lemma for_samples_no_frame ml msl p rows g :
  rect 0 rows -> fst (StrategyA.for_samples ml msl p rows g) = rows.
Proof.
  induction 1 as [|r rows Hr Hrows IH]; simpl; auto.
  apply length_zero_iff_nil in Hr. subst r.
  rewrite mask_sample_no_frame.
  destruct (StrategyA.for_samples ml msl p rows g) as [rs g2].
  simpl in *. now rewrite IH.
Qed.

Lemma shift_all_no_frame rows : rect 0 rows -> shift_all rows = rows.
Proof.
  induction 1 as [|r rows Hr Hrows IH]; simpl; auto.
  apply length_zero_iff_nil in Hr. subst r. simpl. now rewrite IH.
Qed.

(** X3.  Strategy B raises ([segment_ids.max()] of a tensor without
    elements) exactly on a batch without frames, that is with no sample or
    with samples of length 0, whatever the configuration and the draws.
    Strategy A returns such a batch as it is. *)
Theorem raises_exactly_without_frames
        (L : nat) (mel2ph : list (list Z)) (ml msl : Z) (p : Q) (g : rng) :
  rect L mel2ph ->
  (StrategyB.fast_fast_bbc_mask ml msl p mel2ph g = None
   <-> mel2ph = [] \/ L = 0%nat)
  /\ (mel2ph = [] \/ L = 0%nat ->
      StrategyA.fast_bbc_mask ml msl p mel2ph g = mel2ph).
Proof.
  intros Hrect. split.
  - rewrite <- (segment_table_None_empty Hrect).
    unfold StrategyB.fast_fast_bbc_mask.
    destruct (StrategyB.segment_table mel2ph) as [[[sts lens] vals]|];
      split; congruence.
  - intros [-> | ->]; [reflexivity|].
    unfold StrategyA.fast_bbc_mask, StrategyA.fast_bbc_mask_st.
    rewrite (shift_all_no_frame Hrect). now apply for_samples_no_frame.
Qed.

Lemma raises_exactly_without_frames_witness :
  (StrategyB.fast_fast_bbc_mask 3 5 (3 # 10)%Q [[]; []] half = None
   <-> [[]; []] = @nil (list Z) \/ 0%nat = 0%nat)
  /\ ([[]; []] = @nil (list Z) \/ 0%nat = 0%nat ->
      StrategyA.fast_bbc_mask 3 5 (3 # 10)%Q [[]; []] half = [[]; []]).
Proof.
  apply (@raises_exactly_without_frames 0 [[]; []] 3 5 (3 # 10)%Q half).
  repeat constructor.
Defined.

(** ** Draws that always fail, draws that always succeed *)

Lemma nth_cases {A : Type} (P : A -> Prop) (l : list A) (i : nat) (d : A) :
  P d -> (forall x, In x l -> P x) -> P (nth i l d).
Proof.
  intros Hd Hl. destruct (nth_in_or_default i l d) as [Hin | ->]; auto.
Qed.

(** What Strategy B compares is a draw of the generator, or 0 for a slot
    that does not exist. *)
Lemma draw_B_unit (vals : list (list Z)) (g : rng) (b j : nat) :
  unit_draws g -> (0 <= draw_B vals g b j)%Q /\ (draw_B vals g b j < 1)%Q.
Proof.
  intros Hg. unfold draw_B, rand_like, rand. cbn [fst].
  assert (H0 : (0 <= 0)%Q /\ (0 < 1)%Q) by (split; [apply Qle_refl | reflexivity]).
  apply (nth_cases (fun q => (0 <= q)%Q /\ (q < 1)%Q)); auto.
  intros q Hq.
  assert (Hrow : exists row, In q row /\
            forall x, In x row -> (0 <= x)%Q /\ (x < 1)%Q).
  { revert Hq. apply (nth_cases (fun row => In q row -> _)).
    - intros [].
    - intros row Hrow Hq. exists row. split; auto.
      apply in_map_iff in Hrow. destruct Hrow as (b0 & <- & _).
      intros x Hx. apply in_map_iff in Hx. destruct Hx as (s0 & <- & _).
      apply (nth_cases (fun q => (0 <= q)%Q /\ (q < 1)%Q)); auto.
      intros y Hy. apply in_map_iff in Hy. destruct Hy as (n & <- & _).
      apply Hg. }
  destruct Hrow as (row & Hin & Hall). now apply Hall.
Qed.

Lemma Qltb_low x p : (0 <= x)%Q -> (p <= 0)%Q -> Qltb x p = false.
Proof.
  intros Hx Hp. destruct (Qltb x p) eqn:E; auto.
  apply Qltb_true_iff in E. exfalso.
  apply (Qlt_not_le x p E). now apply Qle_trans with 0%Q.
Qed.

Lemma Qltb_high x p : (x < 1)%Q -> (1 <= p)%Q -> Qltb x p = true.
Proof.
  intros Hx Hp. apply Qltb_true_iff. now apply Qlt_le_trans with 1%Q.
Qed.

Lemma draw_B_low vals g b j p :
  unit_draws g -> (p <= 0)%Q -> Qltb (draw_B vals g b j) p = false.
Proof.
  intros Hg Hp. apply Qltb_low; auto. now apply draw_B_unit.
Qed.

Lemma draw_B_high vals g b j p :
  unit_draws g -> (1 <= p)%Q -> Qltb (draw_B vals g b j) p = true.
Proof.
  intros Hg Hp. apply Qltb_high; auto. now apply draw_B_unit.
Qed.

(** The frames inside the trailing window of an eligible real segment. *)
Definition in_eligible_window (ml msl : Z) (seq : list Z) (i : Z) : Prop :=
  exists j, (j < length (StrategyA.starts seq))%nat
            /\ eligible msl (nth j (StrategyA.values seq) 0)
                        (nth j (StrategyA.lengths seq) 0) = true
            /\ Z.max (nth j (StrategyA.starts seq) 0)
                     (nth j (StrategyA.ends seq) 0 - ml) <= i
               < nth j (StrategyA.ends seq) 0.

Lemma marked_A_high ml msl p seq g i :
  unit_draws g -> (1 <= p)%Q ->
  (marked_A ml msl p seq g i = true <-> in_eligible_window ml msl seq i).
Proof.
  intros Hg Hp. rewrite marked_A_spec. unfold in_eligible_window. split.
  - intros (j & Hj & He & _ & Hw). exists j. repeat split; auto;
      apply in_window_iff in Hw; lia.
  - intros (j & Hj & He & Hw). exists j. repeat split; auto.
    + assert (Hin : In (Z.of_nat j) (where_ (StrategyA.valid_mask msl seq)))
        by (apply In_valid_indices; eauto).
      destruct (In_nth _ _ 0 Hin) as (r & Hr & Er).
      exists r. repeat split; auto. apply Qltb_high; auto. apply Hg.
    + apply in_window_iff. lia.
Qed.

Lemma marked_A_low ml msl p seq g i :
  unit_draws g -> (p <= 0)%Q -> marked_A ml msl p seq g i = false.
Proof.
  intros Hg Hp. apply not_true_is_false. intros Hm.
  apply marked_A_spec in Hm. destruct Hm as (j & _ & _ & (r & _ & _ & Hq) & _).
  rewrite Qltb_low in Hq; auto; [discriminate | apply Hg].
Qed.

Lemma in_window_nonpositive ml st en i : ml <= 0 -> in_window ml st en i = false.
Proof.
  intros Hml. apply not_true_is_false. intros Hw.
  apply in_window_iff in Hw. lia.
Qed.

Lemma marked_A_no_length ml msl p seq g i :
  ml <= 0 -> marked_A ml msl p seq g i = false.
Proof.
  intros Hml. apply not_true_is_false. intros Hm.
  apply marked_A_spec in Hm. destruct Hm as (j & _ & _ & _ & Hw).
  now rewrite in_window_nonpositive in Hw.
Qed.

(** Strategy A returns the shifted tensor when it marks no frame. *)
Lemma fast_bbc_mask_unmarked ml msl p mel2ph g :
  (forall b i, marked_A ml msl p (map shift (nth b mel2ph []))
                        (StrategyA.rng_at ml msl p mel2ph g b) i = false) ->
  StrategyA.fast_bbc_mask ml msl p mel2ph g = shift_all mel2ph.
Proof.
  intros Hun. apply (nth_ext _ _ [] []).
  - rewrite length_fast_bbc_mask. unfold shift_all. now rewrite length_map.
  - intros b Hb. rewrite length_fast_bbc_mask in Hb.
    rewrite nth_fast_bbc_mask, nth_shift_all by assumption.
    apply (nth_ext _ _ 0 0).
    + apply length_mask_sample.
    + intros i Hi. rewrite length_mask_sample in Hi.
      rewrite nth_mask_sample by assumption. now rewrite Hun.
Qed.

Lemma marks_low_agree L mel2ph ml msl p gA gB tbl b i :
  (0 < L)%nat -> StrategyB.segment_table mel2ph = Some tbl ->
  table_agrees L mel2ph tbl -> (b < length mel2ph)%nat ->
  unit_draws gA -> unit_draws gB -> (p <= 0)%Q ->
  marked_A ml msl p (map shift (nth b mel2ph []))
           (StrategyA.rng_at ml msl p mel2ph gA b) i
  = marked_B ml msl p tbl gB b i.
Proof.
  intros HL Htbl Hagree Hb HgA HgB Hp.
  rewrite marked_A_low; auto using unit_draws_rng_at.
  symmetry. apply not_true_is_false. intros Hm.
  apply (@marked_B_spec L mel2ph HL ml msl p gB tbl Htbl Hagree b i Hb) in Hm.
  destruct Hm as (j & _ & _ & Hq & _).
  rewrite draw_B_low in Hq; auto. discriminate.
Qed.

(** X4.  With [mask_prob <= 0] and draws of [[0, 1)] no draw succeeds:
    Strategy A returns the shifted tensor for every input, and Strategy B
    returns it for every batch with at least one frame. *)
Theorem nonpositive_prob_masks_nothing
        (L : nat) (mel2ph : list (list Z)) (ml msl : Z) (p : Q) (g : rng) :
  unit_draws g -> (p <= 0)%Q -> rect L mel2ph -> nonneg mel2ph ->
  StrategyA.fast_bbc_mask ml msl p mel2ph g = shift_all mel2ph
  /\ (mel2ph <> [] -> (0 < L)%nat ->
      StrategyB.fast_fast_bbc_mask ml msl p mel2ph g = Some (shift_all mel2ph)).
Proof.
  intros Hg Hp Hrect Hnn.
  assert (HA : StrategyA.fast_bbc_mask ml msl p mel2ph g = shift_all mel2ph).
  { apply fast_bbc_mask_unmarked. intros b i.
    apply marked_A_low; auto using unit_draws_rng_at. }
  split; auto. intros Hne HL. rewrite <- HA.
  destruct (segment_table_agrees Hrect Hnn Hne HL) as (tbl & Htbl & Hagree).
  apply (@same_marks_same_result L mel2ph ml msl p g g tbl); auto.
  intros b i Hb Hi. now apply (@marks_low_agree L).
Qed.

Lemma nonpositive_prob_masks_nothing_witness :
  StrategyA.fast_bbc_mask 2 5 0%Q [scenario_row] half = shift_all [scenario_row]
  /\ ([scenario_row] <> [] -> (0 < 13)%nat ->
      StrategyB.fast_fast_bbc_mask 2 5 0%Q [scenario_row] half
      = Some (shift_all [scenario_row])).
Proof.
  apply (@nonpositive_prob_masks_nothing 13 [scenario_row] 2 5 0%Q half).
  - exact half_unit_draws.
  - apply Qle_refl.
  - repeat constructor.
  - repeat constructor; vm_compute; discriminate.
Defined.

(** X5.  With [mask_prob >= 1] and draws of [[0, 1)] every draw succeeds:
    a frame of the result of Strategy A is the marker exactly when it lies
    in the trailing window of an eligible segment, so every eligible segment
    is masked; and on a batch with at least one frame Strategy B returns the
    same tensor, whatever generator each strategy reads. *)
Theorem prob_one_masks_every_eligible_segment
        (L : nat) (mel2ph : list (list Z)) (ml msl : Z) (p : Q) (gA gB : rng) :
  unit_draws gA -> unit_draws gB -> (1 <= p)%Q ->
  rect L mel2ph -> nonneg mel2ph ->
  (forall b i, (b < length mel2ph)%nat -> (i < L)%nat ->
     (nth i (nth b (StrategyA.fast_bbc_mask ml msl p mel2ph gA) []) 0 = 1
      <-> in_eligible_window ml msl (map shift (nth b mel2ph []))
                             (Z.of_nat i)))
  /\ (mel2ph <> [] -> (0 < L)%nat ->
      StrategyB.fast_fast_bbc_mask ml msl p mel2ph gB
      = Some (StrategyA.fast_bbc_mask ml msl p mel2ph gA)).
Proof.
  intros HgA HgB Hp Hrect Hnn. split.
  - intros b i Hb Hi.
    assert (Hlen : length (map shift (nth b mel2ph [])) = L)
      by now apply length_masked_row.
    assert (Hval : nth i (map shift (nth b mel2ph [])) 0 <> 1).
    { rewrite nth_map_in with (d := 0).
      - apply shift_not_marker. apply nonneg_row_nth, nonneg_nth, Hnn.
      - rewrite (rect_nth Hrect Hb). exact Hi. }
    rewrite nth_fast_bbc_mask by assumption.
    rewrite nth_mask_sample by lia.
    rewrite <- (@marked_A_high ml msl p (map shift (nth b mel2ph []))
                  (StrategyA.rng_at ml msl p mel2ph gA b) (Z.of_nat i));
      auto using unit_draws_rng_at.
    destruct (marked_A _ _ _ _ _ _); split; congruence.
  - intros Hne HL.
    destruct (segment_table_agrees Hrect Hnn Hne HL) as (tbl & Htbl & Hagree).
    apply (@same_marks_same_result L mel2ph ml msl p gA gB tbl); auto.
    intros b i Hb Hi. apply Bool.eq_iff_eq_true.
    rewrite marked_A_high; auto using unit_draws_rng_at.
    rewrite (@marked_B_spec L mel2ph HL ml msl p gB tbl Htbl Hagree b
                            (Z.of_nat i) Hb).
    unfold in_eligible_window. split.
    + intros (j & Hj & He & Hw). exists j. repeat split; auto.
      * now apply draw_B_high.
      * apply in_window_iff. lia.
    + intros (j & Hj & He & _ & Hw). exists j. repeat split; auto;
        apply in_window_iff in Hw; lia.
Qed.

Lemma prob_one_masks_every_eligible_segment_witness :
  (forall b i, (b < length [scenario_row])%nat -> (i < 13)%nat ->
     (nth i (nth b (StrategyA.fast_bbc_mask 2 5 1%Q [scenario_row]
                                            first_draw_low) []) 0 = 1
      <-> in_eligible_window 2 5 (map shift (nth b [scenario_row] []))
                             (Z.of_nat i)))
  /\ ([scenario_row] <> [] -> (0 < 13)%nat ->
      StrategyB.fast_fast_bbc_mask 2 5 1%Q [scenario_row] second_draw_low
      = Some (StrategyA.fast_bbc_mask 2 5 1%Q [scenario_row] first_draw_low)).
Proof.
  apply (@prob_one_masks_every_eligible_segment 13 [scenario_row] 2 5 1%Q
           first_draw_low second_draw_low).
  - intros [|n]; split; try discriminate; reflexivity.
  - intros [|[|n]]; split; try discriminate; reflexivity.
  - apply Qle_refl.
  - repeat constructor.
  - repeat constructor; vm_compute; discriminate.
Defined.

(** X6.  The configuration is not validated: with [mask_length <= 0] every
    window is empty and nothing is written, whatever [min_segment_length],
    [mask_prob] and the draws.  Strategy A returns the shifted tensor, and so
    does Strategy B on a batch with at least one frame. *)
Theorem nonpositive_mask_length_masks_nothing
        (L : nat) (mel2ph : list (list Z)) (ml msl : Z) (p : Q) (g : rng) :
  ml <= 0 -> rect L mel2ph -> nonneg mel2ph ->
  StrategyA.fast_bbc_mask ml msl p mel2ph g = shift_all mel2ph
  /\ (mel2ph <> [] -> (0 < L)%nat ->
      StrategyB.fast_fast_bbc_mask ml msl p mel2ph g = Some (shift_all mel2ph)).
Proof.
  intros Hml Hrect Hnn.
  assert (HA : StrategyA.fast_bbc_mask ml msl p mel2ph g = shift_all mel2ph).
  { apply fast_bbc_mask_unmarked. intros b i. now apply marked_A_no_length. }
  split; auto. intros Hne HL. rewrite <- HA.
  destruct (segment_table_agrees Hrect Hnn Hne HL) as (tbl & Htbl & Hagree).
  apply (@same_marks_same_result L mel2ph ml msl p g g tbl); auto.
  intros b i Hb Hi. rewrite marked_A_no_length by assumption.
  symmetry. apply not_true_is_false. intros Hm.
  apply (@marked_B_spec L mel2ph HL ml msl p g tbl Htbl Hagree b
                        (Z.of_nat i) Hb) in Hm.
  destruct Hm as (j & _ & _ & _ & Hw).
  now rewrite in_window_nonpositive in Hw.
Qed.

Lemma nonpositive_mask_length_masks_nothing_witness :
  StrategyA.fast_bbc_mask (-3) 0 2%Q [scenario_row] half
  = shift_all [scenario_row]
  /\ ([scenario_row] <> [] -> (0 < 13)%nat ->
      StrategyB.fast_fast_bbc_mask (-3) 0 2%Q [scenario_row] half
      = Some (shift_all [scenario_row])).
Proof.
  apply (@nonpositive_mask_length_masks_nothing 13 [scenario_row] (-3) 0 2%Q half).
  - lia.
  - repeat constructor.
  - repeat constructor; vm_compute; discriminate.
Defined.

(** ** What a marked frame tells about its segment *)

Lemma eligible_true_iff msl v len :
  eligible msl v len = true <-> v <> 0 /\ msl <= len.
Proof.
  unfold eligible.
  rewrite andb_true_iff, negb_true_iff, Z.eqb_neq, Z.leb_le. tauto.
Qed.

Lemma marked_A_in_segment ml msl p seq g j i :
  (j < length (StrategyA.starts seq))%nat ->
  nth j (StrategyA.starts seq) 0 <= i < nth j (StrategyA.ends seq) 0 ->
  marked_A ml msl p seq g i = true ->
  eligible msl (nth j (StrategyA.values seq) 0)
           (nth j (StrategyA.lengths seq) 0) = true
  /\ in_window ml (nth j (StrategyA.starts seq) 0)
               (nth j (StrategyA.ends seq) 0) i = true.
Proof.
  intros Hj Hi Hm. apply marked_A_spec in Hm.
  destruct Hm as (j' & Hj' & He & _ & Hw).
  pose proof (in_window_segment _ _ _ _ Hw) as Hseg.
  assert (j = j') by (eapply segment_unique; eauto). subst j'. auto.
Qed.

Lemma marked_B_in_segment L mel2ph ml msl p g tbl b j i :
  (0 < L)%nat -> StrategyB.segment_table mel2ph = Some tbl ->
  table_agrees L mel2ph tbl -> (b < length mel2ph)%nat ->
  (j < length (StrategyA.starts (map shift (nth b mel2ph []))))%nat ->
  nth j (StrategyA.starts (map shift (nth b mel2ph []))) 0 <= i
  < nth j (StrategyA.ends (map shift (nth b mel2ph []))) 0 ->
  marked_B ml msl p tbl g b i = true ->
  eligible msl (nth j (StrategyA.values (map shift (nth b mel2ph []))) 0)
           (nth j (StrategyA.lengths (map shift (nth b mel2ph []))) 0) = true
  /\ in_window ml (nth j (StrategyA.starts (map shift (nth b mel2ph []))) 0)
               (nth j (StrategyA.ends (map shift (nth b mel2ph []))) 0) i
     = true.
Proof.
  intros HL Htbl Hagree Hb Hj Hi Hm.
  apply (@marked_B_spec L mel2ph HL ml msl p g tbl Htbl Hagree b i Hb) in Hm.
  destruct Hm as (j' & Hj' & He & _ & Hw).
  pose proof (in_window_segment _ _ _ _ Hw) as Hseg.
  assert (j = j') by (eapply segment_unique; eauto). subst j'. auto.
Qed.

(** Every frame of a row with at least one frame lies in a real segment. *)
Lemma frame_in_segment (seq : list Z) (i : nat) :
  nonneg_row seq -> (i < length seq)%nat ->
  exists j, (j < length (StrategyA.starts seq))%nat
            /\ nth j (StrategyA.starts seq) 0 <= Z.of_nat i
               < nth j (StrategyA.ends seq) 0.
Proof.
  intros Hnn Hi.
  pose proof (segment_ids_range Hnn 0 Hi) as Hr.
  set (j := Z.to_nat (nth i (StrategyB.segment_ids seq) 0)).
  assert (Hj : (j < length (StrategyA.starts seq))%nat) by (unfold j; lia).
  exists j. split; auto.
  pose proof (@segment_ids_member seq j i 0 Hj Hi) as Hm.
  replace (Z.of_nat j) with (nth i (StrategyB.segment_ids seq) 0) in Hm
    by (unfold j; lia).
  rewrite Z.eqb_refl in Hm. symmetry in Hm.
  apply andb_true_iff in Hm. rewrite Z.leb_le, Z.ltb_lt in Hm. exact Hm.
Qed.

Lemma marked_A_not_padding ml msl p seq g i :
  (i < length seq)%nat ->
  marked_A ml msl p seq g (Z.of_nat i) = true -> nth i seq 0 <> 0.
Proof.
  intros Hi Hm. apply marked_A_spec in Hm.
  destruct Hm as (j & Hj & He & _ & Hw).
  apply in_window_segment in Hw. apply eligible_true_iff in He.
  rewrite (segment_run seq Hj i Hw). tauto.
Qed.

Lemma marked_B_not_padding L mel2ph ml msl p g tbl b i :
  (0 < L)%nat -> StrategyB.segment_table mel2ph = Some tbl ->
  table_agrees L mel2ph tbl -> (b < length mel2ph)%nat ->
  marked_B ml msl p tbl g b (Z.of_nat i) = true ->
  nth i (map shift (nth b mel2ph [])) 0 <> 0.
Proof.
  intros HL Htbl Hagree Hb Hm.
  apply (@marked_B_spec L mel2ph HL ml msl p g tbl Htbl Hagree b
                        (Z.of_nat i) Hb) in Hm.
  destruct Hm as (j & Hj & He & _ & Hw).
  apply in_window_segment in Hw. apply eligible_true_iff in He.
  rewrite (segment_run _ Hj i Hw). tauto.
Qed.

(** X7.  The result of either strategy has the shape of the input; each of
    its frames is the shifted input value or the marker 1; and a frame of
    the result is 0 exactly when the input frame is 0, so padding is never
    masked and never altered. *)
Theorem result_frames
        (L : nat) (mel2ph : list (list Z)) (ml msl : Z) (p : Q) (g : rng) :
  rect L mel2ph -> nonneg mel2ph ->
  let good (out : list (list Z)) :=
    length out = length mel2ph
    /\ forall b, (b < length mel2ph)%nat ->
         length (nth b out []) = L
         /\ forall i, (i < L)%nat ->
              (nth i (nth b out []) 0 = shift (nth i (nth b mel2ph []) 0)
               \/ nth i (nth b out []) 0 = 1)
              /\ (nth i (nth b out []) 0 = 0 <-> nth i (nth b mel2ph []) 0 = 0)
  in
  good (StrategyA.fast_bbc_mask ml msl p mel2ph g)
  /\ forall out, StrategyB.fast_fast_bbc_mask ml msl p mel2ph g = Some out ->
                 good out.
Proof.
  intros Hrect Hnn good.
  assert (Hshift : forall b i, (b < length mel2ph)%nat -> (i < L)%nat ->
            nth i (map shift (nth b mel2ph [])) 0
            = shift (nth i (nth b mel2ph []) 0)).
  { intros b i Hb Hi. rewrite nth_map_in with (d := 0); auto.
    rewrite (rect_nth Hrect Hb). exact Hi. }
  split.
  - split; [apply length_fast_bbc_mask|]. intros b Hb.
    assert (Hlen : length (map shift (nth b mel2ph [])) = L)
      by now apply length_masked_row.
    rewrite nth_fast_bbc_mask by assumption. split.
    + now rewrite length_mask_sample.
    + intros i Hi. rewrite nth_mask_sample by lia.
      destruct (marked_A ml msl p (map shift (nth b mel2ph []))
                  (StrategyA.rng_at ml msl p mel2ph g b) (Z.of_nat i)) eqn:E.
      * split; [now right|].
        apply marked_A_not_padding in E; [|lia].
        rewrite Hshift, shift_zero_iff in E by assumption.
        split; [discriminate | contradiction].
      * rewrite Hshift by assumption. split; [now left | apply shift_zero_iff].
  - intros out Hout.
    destruct (@fast_fast_bbc_mask_Some L mel2ph ml msl p g out Hrect Hnn Hout)
      as (tbl & Htbl & Hne & HL & Hagree & Hlo & Hrows).
    split; auto. intros b Hb. destruct (Hrows b Hb) as [Lb Hfr].
    split; auto. intros i Hi. rewrite Hfr by assumption.
    destruct (marked_B ml msl p tbl g b (Z.of_nat i)) eqn:E.
    + split; [now right|].
      apply (@marked_B_not_padding L mel2ph ml msl p g tbl b i HL Htbl Hagree Hb)
        in E.
      rewrite Hshift, shift_zero_iff in E by assumption.
      split; [discriminate | contradiction].
    + split; [now left | apply shift_zero_iff].
Qed.

Lemma result_frames_witness :
  let good (out : list (list Z)) :=
    length out = length [scenario_row]
    /\ forall b, (b < length [scenario_row])%nat ->
         length (nth b out []) = 13%nat
         /\ forall i, (i < 13)%nat ->
              (nth i (nth b out []) 0 = shift (nth i (nth b [scenario_row] []) 0)
               \/ nth i (nth b out []) 0 = 1)
              /\ (nth i (nth b out []) 0 = 0
                  <-> nth i (nth b [scenario_row] []) 0 = 0)
  in
  good (StrategyA.fast_bbc_mask 2 5 1%Q [scenario_row] half)
  /\ forall out,
       StrategyB.fast_fast_bbc_mask 2 5 1%Q [scenario_row] half = Some out ->
       good out.
Proof.
  apply (@result_frames 13 [scenario_row] 2 5 1%Q half).
  - repeat constructor.
  - repeat constructor; vm_compute; discriminate.
Defined.

(** X8.  The frames of a real segment that come before its last
    [mask_length] frames are never masked, whatever the draws: in the result
    of either strategy they keep their shifted value.  With
    [mask_length < min_segment_length] every masked segment so keeps at
    least its first frame. *)
Theorem leading_frames_survive
        (L : nat) (mel2ph : list (list Z)) (ml msl : Z) (p : Q) (g : rng)
        (b j i : nat) :
  rect L mel2ph -> nonneg mel2ph -> (b < length mel2ph)%nat ->
  let seq := map shift (nth b mel2ph []) in
  (j < length (StrategyA.starts seq))%nat ->
  nth j (StrategyA.starts seq) 0 <= Z.of_nat i
  < nth j (StrategyA.ends seq) 0 - ml ->
  0 <= ml ->
  nth i (nth b (StrategyA.fast_bbc_mask ml msl p mel2ph g) []) 0 = nth i seq 0
  /\ nth i seq 0 <> 1
  /\ forall out, StrategyB.fast_fast_bbc_mask ml msl p mel2ph g = Some out ->
                 nth i (nth b out []) 0 = nth i seq 0.
Proof.
  intros Hrect Hnn Hb seq Hj Hi Hml.
  assert (Hlen : length seq = L) by now apply length_masked_row.
  pose proof (segment_bounds seq Hj) as (B0 & B1 & B2).
  assert (Hi' : (i < L)%nat) by lia.
  assert (Hseg : nth j (StrategyA.starts seq) 0 <= Z.of_nat i
                 < nth j (StrategyA.ends seq) 0) by lia.
  assert (Hshift : nth i seq 0 = shift (nth i (nth b mel2ph []) 0)).
  { unfold seq. rewrite nth_map_in with (d := 0); auto.
    rewrite (rect_nth Hrect Hb). exact Hi'. }
  split; [|split].
  - rewrite nth_fast_bbc_mask by assumption. fold seq.
    rewrite nth_mask_sample by lia.
    destruct (marked_A ml msl p seq (StrategyA.rng_at ml msl p mel2ph g b)
                (Z.of_nat i)) eqn:E; auto.
    apply (marked_A_in_segment _ _ _ _ _ Hj Hseg) in E.
    destruct E as [_ Hw]. apply in_window_iff in Hw. lia.
  - rewrite Hshift. apply shift_not_marker.
    apply nonneg_row_nth, nonneg_nth, Hnn.
  - intros out Hout.
    destruct (@fast_fast_bbc_mask_Some L mel2ph ml msl p g out Hrect Hnn Hout)
      as (tbl & Htbl & Hne & HL & Hagree & Hlo & Hrows).
    destruct (Hrows b Hb) as [_ Hfr]. rewrite Hfr by assumption.
    rewrite <- Hshift.
    destruct (marked_B ml msl p tbl g b (Z.of_nat i)) eqn:E; auto.
    apply (@marked_B_in_segment L mel2ph ml msl p g tbl b j (Z.of_nat i)
             HL Htbl Hagree Hb Hj Hseg) in E.
    destruct E as [_ Hw]. apply in_window_iff in Hw. fold seq in Hw. lia.
Qed.

Lemma leading_frames_survive_witness :
  let seq := map shift (nth 0 [scenario_row] []) in
  nth 5 (nth 0 (StrategyA.fast_bbc_mask 2 5 1%Q [scenario_row] half) []) 0
  = nth 5 seq 0
  /\ nth 5 seq 0 <> 1
  /\ forall out,
       StrategyB.fast_fast_bbc_mask 2 5 1%Q [scenario_row] half = Some out ->
       nth 5 (nth 0 out []) 0 = nth 5 seq 0.
Proof.
  apply (@leading_frames_survive 13 [scenario_row] 2 5 1%Q half 0 1 5).
  - repeat constructor.
  - repeat constructor; vm_compute; discriminate.
  - simpl. lia.
  - vm_compute. lia.
  - vm_compute. split; [discriminate | reflexivity].
  - lia.
Defined.

(** ** The segments of a row *)

Lemma sum_zip_sub_telescopes (bs : list Z) :
  bs <> [] ->
  sum (zip_with Z.sub (tl bs) (removelast bs))
  = nth (length bs - 1) bs 0 - nth 0 bs 0.
Proof.
  induction bs as [|x bs IH]; [congruence|]. intros _.
  destruct bs as [|y bs].
  - simpl. lia.
  - specialize (IH ltac:(discriminate)).
    change (tl (x :: y :: bs)) with (y :: bs).
    change (removelast (x :: y :: bs)) with (x :: removelast (y :: bs)).
    destruct bs as [|z bs].
    + simpl. lia.
    + change (tl (y :: z :: bs)) with (z :: bs) in IH.
      change (removelast (y :: z :: bs)) with (y :: removelast (z :: bs)) in IH |- *.
      rewrite zip_with_cons. unfold sum in *. cbn [fold_right].
      fold (sum (zip_with Z.sub (z :: bs) (y :: removelast (z :: bs)))).
      unfold sum. rewrite IH.
      replace (length (x :: y :: z :: bs) - 1)%nat
        with (S (length (y :: z :: bs) - 1)) by (simpl; lia).
      cbn [nth]. lia.
Qed.

(** X9.  The segments that Strategy A reads off a row with at least one
    frame tile the row: the first starts at frame 0, each ends where the
    next starts, the last ends at [L], every length is at least 1, the
    lengths add up to [L], and every frame lies in exactly one segment.
    The number of boundaries is the number of segments plus one. *)
Theorem segments_partition (seq : list Z) :
  nonneg_row seq -> (0 < length seq)%nat ->
  let k := length (StrategyA.starts seq) in
  (1 <= k)%nat
  /\ length (StrategyA.boundaries seq) = S k
  /\ nth 0 (StrategyA.starts seq) 0 = 0
  /\ nth (k - 1) (StrategyA.ends seq) 0 = Z.of_nat (length seq)
  /\ (forall j, (S j < k)%nat ->
        nth j (StrategyA.ends seq) 0 = nth (S j) (StrategyA.starts seq) 0)
  /\ (forall j, (j < k)%nat ->
        1 <= nth j (StrategyA.lengths seq) 0
        /\ nth j (StrategyA.lengths seq) 0
           = nth j (StrategyA.ends seq) 0 - nth j (StrategyA.starts seq) 0)
  /\ sum (StrategyA.lengths seq) = Z.of_nat (length seq)
  /\ forall i, (i < length seq)%nat ->
       exists j, (j < k)%nat
                 /\ nth j (StrategyA.starts seq) 0 <= Z.of_nat i
                    < nth j (StrategyA.ends seq) 0
                 /\ forall j', (j' < k)%nat ->
                      nth j' (StrategyA.starts seq) 0 <= Z.of_nat i
                      < nth j' (StrategyA.ends seq) 0 -> j' = j.
Proof.
  intros Hnn HL k.
  pose proof (boundaries_two Hnn HL) as H2.
  pose proof (boundaries_head Hnn HL) as Hh.
  pose proof (boundaries_final Hnn HL) as Hf.
  assert (Hk : k = (length (StrategyA.boundaries seq) - 1)%nat)
    by apply length_starts.
  split; [lia|]. split; [lia|]. split.
  { rewrite nth_starts by (fold k; lia). exact Hh. }
  split.
  { rewrite nth_ends. replace (S (k - 1)) with (length (StrategyA.boundaries seq) - 1)%nat
      by lia. exact Hf. }
  split.
  { intros j Hj. rewrite nth_ends, nth_starts by (fold k; lia). reflexivity. }
  split.
  { intros j Hj. split; [now apply segment_length_pos | now apply nth_lengths]. }
  split.
  { unfold StrategyA.lengths, StrategyA.ends, StrategyA.starts.
    rewrite sum_zip_sub_telescopes.
    - rewrite Hf, Hh. lia.
    - intros E. rewrite E in H2. simpl in H2. lia. }
  intros i Hi. destruct (frame_in_segment Hnn Hi) as (j & Hj & Hseg).
  exists j. repeat split; auto; try lia.
  intros j' Hj' Hseg'. eapply segment_unique; eauto.
Qed.

Lemma segments_partition_witness :
  let seq := map shift scenario_row in
  let k := length (StrategyA.starts seq) in
  (1 <= k)%nat
  /\ length (StrategyA.boundaries seq) = S k
  /\ nth 0 (StrategyA.starts seq) 0 = 0
  /\ nth (k - 1) (StrategyA.ends seq) 0 = Z.of_nat (length seq)
  /\ (forall j, (S j < k)%nat ->
        nth j (StrategyA.ends seq) 0 = nth (S j) (StrategyA.starts seq) 0)
  /\ (forall j, (j < k)%nat ->
        1 <= nth j (StrategyA.lengths seq) 0
        /\ nth j (StrategyA.lengths seq) 0
           = nth j (StrategyA.ends seq) 0 - nth j (StrategyA.starts seq) 0)
  /\ sum (StrategyA.lengths seq) = Z.of_nat (length seq)
  /\ forall i, (i < length seq)%nat ->
       exists j, (j < k)%nat
                 /\ nth j (StrategyA.starts seq) 0 <= Z.of_nat i
                    < nth j (StrategyA.ends seq) 0
                 /\ forall j', (j' < k)%nat ->
                      nth j' (StrategyA.starts seq) 0 <= Z.of_nat i
                      < nth j' (StrategyA.ends seq) 0 -> j' = j.
Proof.
  apply (@segments_partition (map shift scenario_row)).
  - repeat constructor; vm_compute; discriminate.
  - simpl. lia.
Defined.

(** X10.  A segment is a maximal run: all its frames hold the value of the
    segment, and the next segment of the row holds a different value.  This
    needs no assumption on the entries of the row. *)
Theorem segments_are_maximal_runs (seq : list Z) (j : nat) :
  (j < length (StrategyA.starts seq))%nat ->
  (forall i, nth j (StrategyA.starts seq) 0 <= Z.of_nat i
             < nth j (StrategyA.ends seq) 0 ->
             nth i seq 0 = nth j (StrategyA.values seq) 0)
  /\ ((S j < length (StrategyA.starts seq))%nat ->
      nth j (StrategyA.values seq) 0 <> nth (S j) (StrategyA.values seq) 0).
Proof.
  intros Hj. split; [intros i Hi; now apply segment_run|].
  intros HSj.
  pose proof (segment_bounds seq Hj) as (A0 & A1 & A2).
  pose proof (segment_bounds seq HSj) as (B0 & B1 & B2).
  assert (Hadj : nth j (StrategyA.ends seq) 0 = nth (S j) (StrategyA.starts seq) 0)
    by (rewrite nth_ends, nth_starts by assumption; reflexivity).
  set (c := Z.to_nat (nth (S j) (StrategyA.starts seq) 0)).
  assert (Hc : Z.of_nat c = nth (S j) (StrategyA.starts seq) 0) by (unfold c; lia).
  assert (Hin : In (Z.of_nat c) (StrategyA.boundaries seq)).
  { rewrite Hc, nth_starts by assumption. apply nth_In.
    rewrite length_starts in HSj. lia. }
  apply In_boundaries in Hin. destruct Hin as [_ Hflag].
  rewrite Nat2Z.id in Hflag.
  rewrite boundary_inner in Hflag by lia.
  apply negb_true_iff, Z.eqb_neq in Hflag.
  rewrite (segment_run seq HSj c) in Hflag by lia.
  rewrite (segment_run seq Hj (c - 1)) in Hflag by lia.
  congruence.
Qed.

Lemma segments_are_maximal_runs_witness :
  let seq := map shift scenario_row in
  (forall i, nth 1 (StrategyA.starts seq) 0 <= Z.of_nat i
             < nth 1 (StrategyA.ends seq) 0 ->
             nth i seq 0 = nth 1 (StrategyA.values seq) 0)
  /\ ((2 < length (StrategyA.starts seq))%nat ->
      nth 1 (StrategyA.values seq) 0 <> nth 2 (StrategyA.values seq) 0).
Proof.
  apply (@segments_are_maximal_runs (map shift scenario_row) 1).
  vm_compute. lia.
Defined.

(** X11.  The first [continue] of Strategy A, taken for fewer than two
    boundaries, is taken only for a row without frames: a row with a frame
    has its two outer boundaries. *)
Theorem few_boundaries_only_without_frames (seq : list Z) :
  nonneg_row seq ->
  ((length (StrategyA.boundaries seq) <? 2)%nat = true <-> seq = [])
  /\ (seq = [] -> StrategyA.boundaries seq = []).
Proof.
  intros Hnn. split; [split|].
  - intros Hlt. apply Nat.ltb_lt in Hlt.
    destruct seq as [|x seq]; auto.
    assert (HL : (0 < length (x :: seq))%nat) by (simpl; lia).
    pose proof (boundaries_two Hnn HL). lia.
  - intros ->. reflexivity.
  - intros ->. reflexivity.
Qed.

Lemma few_boundaries_only_without_frames_witness :
  ((length (StrategyA.boundaries [0%Z; 0%Z]) <? 2)%nat = true <-> [0; 0] = [])
  /\ ([0; 0] = [] -> StrategyA.boundaries [0; 0] = []).
Proof.
  apply (@few_boundaries_only_without_frames [0; 0]).
  repeat constructor; lia.
Defined.

(** ** The dense table against the segments of Strategy A *)

Lemma max_segments_attained (L : nat) (mel2ph : list (list Z)) :
  rect L mel2ph -> nonneg mel2ph -> mel2ph <> [] -> (0 < L)%nat ->
  exists mx,
    max_all (map StrategyB.segment_ids (shift_all mel2ph)) = Some mx
    /\ (forall b, (b < length mel2ph)%nat ->
          Z.of_nat (length (StrategyA.starts (map shift (nth b mel2ph []))))
          <= mx + 1)
    /\ exists b, (b < length mel2ph)%nat
                 /\ Z.of_nat (length (StrategyA.starts
                                        (map shift (nth b mel2ph []))))
                    = mx + 1.
Proof.
  intros Hrect Hnn Hne HL.
  destruct (max_segment_id Hrect Hnn Hne HL) as (mx & E & Hmx0 & Hk).
  exists mx. split; auto. split; auto.
  destruct (max_all_Some _ E) as [_ (r & Hr & Hmx)].
  destruct (In_nth _ _ [] Hr) as (b & Hb & Eb).
  unfold shift_all in Hb. rewrite !length_map in Hb.
  rewrite (@nth_ids mel2ph b Hb) in Eb. subst r.
  destruct (In_nth _ _ 0 Hmx) as (l & Hl & El).
  rewrite length_segment_ids in Hl.
  assert (Hnnb : nonneg_row (map shift (nth b mel2ph [])))
    by apply nonneg_row_shift, nonneg_nth, Hnn.
  pose proof (segment_ids_range Hnnb 0 Hl) as Hrange.
  rewrite El in Hrange. exists b. split; auto.
  specialize (Hk b Hb). lia.
Qed.

(** X12.  On a batch with at least one frame the table of Strategy B has
    one row of [S] slots per sample, where [S] is the largest number of
    segments of a sample; and slot [j] of a sample with more than [j]
    segments holds the start, the length and the value that Strategy A
    computes for segment [j] of that sample. *)
Theorem dense_table_agrees (L : nat) (mel2ph : list (list Z)) :
  rect L mel2ph -> nonneg mel2ph -> mel2ph <> [] -> (0 < L)%nat ->
  exists sts lens vals S,
    StrategyB.segment_table mel2ph = Some (sts, lens, vals)
    /\ length sts = length mel2ph /\ length lens = length mel2ph
    /\ length vals = length mel2ph
    /\ (forall b, (b < length mel2ph)%nat ->
          let seq := map shift (nth b mel2ph []) in
          length (nth b sts []) = S /\ length (nth b lens []) = S
          /\ length (nth b vals []) = S
          /\ (length (StrategyA.starts seq) <= S)%nat
          /\ forall j, (j < length (StrategyA.starts seq))%nat ->
               nth j (nth b sts []) 0 = nth j (StrategyA.starts seq) 0
               /\ nth j (nth b lens []) 0 = nth j (StrategyA.lengths seq) 0
               /\ nth j (nth b vals []) 0 = nth j (StrategyA.values seq) 0)
    /\ exists b, (b < length mel2ph)%nat
                 /\ length (StrategyA.starts (map shift (nth b mel2ph []))) = S.
Proof.
  intros Hrect Hnn Hne HL.
  destruct (segment_table_agrees Hrect Hnn Hne HL) as (tbl & Htbl & Hagree).
  destruct (max_segments_attained Hrect Hnn Hne HL)
    as (mx & Emx & Hk & (b0 & Hb0 & Ek0)).
  destruct tbl as [[sts lens] vals]. simpl in Hagree.
  destruct Hagree as (S & Lst & Lln & Lvl & Hrows).
  exists sts, lens, vals, S. repeat split; auto;
    try (destruct (Hrows b H) as (C1 & C2 & C3 & C4 & C5 & C6); auto;
         destruct (C5 j H0) as (E1 & E2 & E3); auto).
  exists b0. split; auto.
  destruct (Hrows b0 Hb0) as (C1 & _ & _ & C4 & _).
  assert (HS : S = Z.to_nat (mx + 1)).
  { unfold StrategyB.segment_table in Htbl. rewrite Emx in Htbl.
    injection Htbl as Est _ _. rewrite <- C1, <- Est.
    rewrite nth_map_in with (d := [])
      by (unfold shift_all; rewrite !length_map; exact Hb0).
    now rewrite length_map, length_arange. }
  lia.
Qed.

Lemma dense_table_agrees_witness :
  exists sts lens vals S,
    StrategyB.segment_table [[1; 2]; [1; 1]] = Some (sts, lens, vals)
    /\ length sts = length [[1; 2]; [1; 1]]
    /\ length lens = length [[1; 2]; [1; 1]]
    /\ length vals = length [[1; 2]; [1; 1]]
    /\ (forall b, (b < length [[1; 2]; [1; 1]])%nat ->
          let seq := map shift (nth b [[1; 2]; [1; 1]] []) in
          length (nth b sts []) = S /\ length (nth b lens []) = S
          /\ length (nth b vals []) = S
          /\ (length (StrategyA.starts seq) <= S)%nat
          /\ forall j, (j < length (StrategyA.starts seq))%nat ->
               nth j (nth b sts []) 0 = nth j (StrategyA.starts seq) 0
               /\ nth j (nth b lens []) 0 = nth j (StrategyA.lengths seq) 0
               /\ nth j (nth b vals []) 0 = nth j (StrategyA.values seq) 0)
    /\ exists b, (b < length [[1; 2]; [1; 1]])%nat
                 /\ length (StrategyA.starts
                              (map shift (nth b [[1; 2]; [1; 1]] []))) = S.
Proof.
  apply (@dense_table_agrees 2 [[1; 2]; [1; 1]]).
  - repeat constructor.
  - repeat constructor; lia.
  - discriminate.
  - lia.
Defined.

(** ** More frames are masked as the configuration grows *)






(** ** The value shift *)


(** * [utils/__init__.py]: batching, positions, padding

    The helpers of the training pipeline that work on plain integers and
    lists.  A Python exception is a value of [exn]; a function that can
    raise returns a [result]. *)

Module Utils.

Inductive exn : Type :=
| AssertionError
| ZeroDivisionError
| ValueError
| IndexError
| RuntimeError.

Inductive result (A : Type) : Type :=
| Ok (a : A)
| Raise (e : exn).

Arguments Ok {A} a.
Arguments Raise {A} e.

(** [_is_batch_full]: the truth value of the returned 0 or 1. *)
Definition _is_batch_full {A : Type} (batch : list A)
           (num_tokens max_tokens max_sentences : Z) : bool :=
  if (length batch =? 0)%nat then false
  else if Z.of_nat (length batch) =? max_sentences then true
  else if max_tokens <? num_tokens then true
  else false.

(** [max(sample_lens) if len(sample_lens) > 0 else 0] *)
Definition max_or_zero (l : list Z) : Z :=
  match l with
  | [] => 0
  | x :: rest => fold_left Z.max rest x
  end.

(** The variables of the loop of [batch_by_size]. *)
Record loop_state : Type := mk_loop_state {
  sample_len : Z;
  sample_lens : list Z;
  batch : list Z;
  batches : list (list Z)
}.

(** The body of [for i in range(len(indices))], for [idx = indices[i]].
    [mod_len] is never negative (a floor quotient times its divisor, of a
    length, is not), so the two slices are a prefix and the rest. *)
Definition batch_step (num_tokens_fn : Z -> Z)
           (max_tokens max_sentences bsz_mult : Z)
           (st : loop_state) (idx : Z) : result loop_state :=
  let num_tokens := num_tokens_fn idx in
  let lens := sample_lens st ++ [num_tokens] in
  let slen := Z.max (sample_len st) num_tokens in
  if max_tokens <? slen then Raise AssertionError
  else
    let num_tokens := (Z.of_nat (length (batch st)) + 1) * slen in
    if _is_batch_full (batch st) num_tokens max_tokens max_sentences then
      if bsz_mult =? 0 then Raise ZeroDivisionError
      else
        let len := Z.of_nat (length (batch st)) in
        let mod_len := Z.max (bsz_mult * (len / bsz_mult)) (len mod bsz_mult) in
        let n := Z.to_nat mod_len in
        let lens' := skipn n lens in
        Ok {| sample_len := max_or_zero lens';
              sample_lens := lens';
              batch := skipn n (batch st) ++ [idx];
              batches := batches st ++ [firstn n (batch st)] |}
    else
      Ok {| sample_len := slen;
            sample_lens := lens;
            batch := batch st ++ [idx];
            batches := batches st |}.

Fixpoint batch_loop (num_tokens_fn : Z -> Z)
         (max_tokens max_sentences bsz_mult : Z)
         (indices : list Z) (st : loop_state) : result loop_state :=
  match indices with
  | [] => Ok st
  | idx :: rest =>
      match batch_step num_tokens_fn max_tokens max_sentences bsz_mult st idx with
      | Ok st' =>
          batch_loop num_tokens_fn max_tokens max_sentences bsz_mult rest st'
      | Raise e => Raise e
      end
  end.

Definition batch_by_size (indices : list Z) (num_tokens_fn : Z -> Z)
           (max_tokens max_sentences required_batch_size_multiple : Z)
  : result (list (list Z)) :=
  let bsz_mult := required_batch_size_multiple in
  match batch_loop num_tokens_fn max_tokens max_sentences bsz_mult indices
                   {| sample_len := 0; sample_lens := [];
                      batch := []; batches := [] |} with
  | Ok st =>
      if (0 <? length (batch st))%nat then Ok (batches st ++ [batch st])
      else Ok (batches st)
  | Raise e => Raise e
  end.

(** [tensor.int()] and [tensor.long()]: the value as a 32-bit, a 64-bit
    signed integer. *)
Definition to_int (w : Z) (z : Z) : Z :=
  (z + 2 ^ (w - 1)) mod 2 ^ w - 2 ^ (w - 1).

(** [make_positions] on one row of the 2-D tensor ([dim=1] is along the
    row): [mask] is an [int32] tensor, [cumsum] returns [int64], [type_as]
    brings it back to [int32], and the sum with [padding_idx] is [int64]. *)
Definition make_positions_row (row : list Z) (padding_idx : Z) : list Z :=
  let mask := map (fun x => if x =? padding_idx then 0 else 1) row in
  map (fun cm =>
         let counted := to_int 32 (to_int 32 (fst cm) * snd cm) in
         to_int 64 (counted + padding_idx))
      (combine (cumsum mask) mask).

Definition make_positions (tensor : list (list Z)) (padding_idx : Z)
  : list (list Z) :=
  map (fun row => make_positions_row row padding_idx) tensor.

(** [collate_nd] for 1-D tensors: the list of sequences padded to one
    length and stacked.  [max()] of no value raises [ValueError],
    [values[0]] of an empty list [IndexError], a negative size
    [RuntimeError].  The assignment [res[i, :len(v)] = v] raises
    [RuntimeError] when the slice is shorter than [v], unless [v] has one
    element, which broadcasts (also to an empty slice). *)
Definition collate_nd (values : list (list Z)) (pad_value : Z)
           (max_len : option Z) : result (list (list Z)) :=
  match values, max_len with
  | [], None => Raise ValueError
  | [], Some _ => Raise IndexError
  | v0 :: _, _ =>
      let size := match max_len with
                  | None => max_or_zero (map (fun v => Z.of_nat (length v)) values)
                  | Some m => m
                  end in
      if size <? 0 then Raise RuntimeError
      else if existsb (fun v => (size <? Z.of_nat (length v))
                                && negb (length v =? 1)%nat) values
           then Raise RuntimeError
           else Ok (map (fun v => firstn (Z.to_nat size) v
                                  ++ repeat pad_value
                                            (Z.to_nat size - length v))
                        values)
  end.

(** The argument of [remove_padding]: [None], a 1-D or a 2-D array of
    integers, or an array of another rank. *)
Inductive array : Type :=
| NoArray
| Array1 (x : list Z)
| Array2 (x : list (list Z))
| ArrayN.

Definition remove_padding (x : array) (padding_idx : Z) : result array :=
  match x with
  | NoArray => Ok NoArray
  | Array1 v => Ok (Array1 (filter (fun e => negb (e =? padding_idx)) v))
  | Array2 m =>
      Ok (Array2 (filter (fun row => negb (sum (map Z.abs row) =? padding_idx))
                         m))
  | ArrayN => Raise AssertionError
  end.

End Utils.

(** ** [batch_by_size] *)

Section BatchBySize.

Import Utils.

Variable num_tokens_fn : Z -> Z.
Variables max_tokens max_sentences bsz_mult : Z.

Let step := batch_step num_tokens_fn max_tokens max_sentences bsz_mult.
Let loop := batch_loop num_tokens_fn max_tokens max_sentences bsz_mult.

Lemma max_or_zero_ge (l : list Z) (x : Z) : In x l -> x <= max_or_zero l.
Proof.
  destruct l as [|y l]; simpl; [tauto|]. intros [<-|Hx].
  - apply fold_max_ge_init.
  - now apply fold_max_ge.
Qed.

Lemma max_or_zero_In (l : list Z) : l <> [] -> In (max_or_zero l) l.
Proof.
  destruct l as [|y l]; [congruence|]. intros _. simpl.
  destruct (fold_max_In l y) as [->|H]; auto.
Qed.

Lemma In_skipn {A : Type} (n : nat) (l : list A) (x : A) :
  In x (skipn n l) -> In x l.
Proof.
  intros H. rewrite <- (firstn_skipn n l). apply in_or_app. now right.
Qed.

(** Nothing is lost and nothing is reordered by one step. *)
Lemma batch_step_keeps (st st' : loop_state) (idx : Z) :
  step st idx = Ok st' ->
  concat (batches st') ++ batch st'
  = (concat (batches st) ++ batch st) ++ [idx].
Proof.
  unfold step, batch_step.
  destruct (max_tokens <? Z.max (sample_len st) (num_tokens_fn idx));
    [discriminate|].
  destruct (_is_batch_full _ _ _ _).
  - destruct (bsz_mult =? 0); [discriminate|].
    intros E. injection E as <-. cbn [batches batch].
    rewrite concat_app. cbn [concat]. rewrite app_nil_r.
    rewrite <- !app_assoc. f_equal. rewrite !app_assoc. f_equal.
    apply firstn_skipn.
  - intros E. injection E as <-. cbn [batches batch].
    now rewrite app_assoc.
Qed.

Lemma batch_loop_keeps (indices : list Z) (st st' : loop_state) :
  loop indices st = Ok st' ->
  concat (batches st') ++ batch st'
  = (concat (batches st) ++ batch st) ++ indices.
Proof.
  unfold loop. revert st. induction indices as [|idx rest IH]; intros st; simpl.
  - intros E. injection E as <-. now rewrite app_nil_r.
  - destruct (batch_step num_tokens_fn max_tokens max_sentences bsz_mult st idx)
      as [st1|e] eqn:E1; [|discriminate].
    intros E. rewrite (IH _ E). rewrite (batch_step_keeps st idx E1).
    now rewrite <- app_assoc.
Qed.

(** What the assertion protects: no pending length exceeds the budget. *)
Definition lens_bounded (st : loop_state) : Prop :=
  sample_len st <= max_tokens
  /\ forall x, In x (sample_lens st) -> x <= sample_len st.

Lemma batch_step_asserts (st : loop_state) (idx : Z) :
  0 <= max_tokens -> bsz_mult <> 0 -> lens_bounded st ->
  (max_tokens < num_tokens_fn idx -> step st idx = Raise AssertionError)
  /\ (num_tokens_fn idx <= max_tokens ->
      exists st', step st idx = Ok st' /\ lens_bounded st').
Proof.
  intros Hmt Hbm [Hs Hl]. unfold step, batch_step. split.
  - intros Hbig.
    destruct (Z.ltb_spec max_tokens (Z.max (sample_len st) (num_tokens_fn idx)));
      [reflexivity | lia].
  - intros Hok.
    destruct (Z.ltb_spec max_tokens (Z.max (sample_len st) (num_tokens_fn idx)));
      [lia|].
    assert (Hall : forall x, In x (sample_lens st ++ [num_tokens_fn idx]) ->
                             x <= Z.max (sample_len st) (num_tokens_fn idx)).
    { intros x Hx. apply in_app_or in Hx. destruct Hx as [Hx|[<-|[]]].
      - apply Hl in Hx. lia.
      - lia. }
    destruct (_is_batch_full _ _ _ _).
    + destruct (Z.eqb_spec bsz_mult 0); [contradiction|].
      eexists. split; [reflexivity|]. split; cbn [sample_len sample_lens].
      * match goal with
        | |- max_or_zero ?l <= _ => destruct l as [|y l'] eqn:El
        end.
        -- simpl. lia.
        -- assert (Hin : In (max_or_zero (y :: l')) (y :: l'))
             by (apply max_or_zero_In; discriminate).
           rewrite <- El in Hin at 2.
           apply In_skipn in Hin. apply Hall in Hin. lia.
      * intros x Hx. now apply max_or_zero_ge.
    + eexists. split; [reflexivity|]. split; cbn [sample_len sample_lens]; auto.
Qed.

End BatchBySize.

(** X15.  [batch_by_size] loses and reorders nothing: when it returns, the
    batches put end to end are the list of indices it was given, for every
    [max_tokens], [max_sentences] and [required_batch_size_multiple]. *)
Theorem batch_by_size_keeps_order
        (indices : list Z) (num_tokens_fn : Z -> Z)
        (max_tokens max_sentences bsz_mult : Z) (bs : list (list Z)) :
  Utils.batch_by_size indices num_tokens_fn max_tokens max_sentences bsz_mult
  = Utils.Ok bs ->
  concat bs = indices.
Proof.
  unfold Utils.batch_by_size.
  destruct (Utils.batch_loop _ _ _ _ _ _) as [st|e] eqn:E; [|discriminate].
  apply batch_loop_keeps in E. cbn in E.
  destruct (Nat.ltb_spec 0 (length (Utils.batch st))); intros Hbs;
    injection Hbs as <-.
  - rewrite concat_app. cbn [concat]. now rewrite app_nil_r.
  - destruct (Utils.batch st); [|simpl in *; lia].
    now rewrite app_nil_r in E.
Qed.

Lemma batch_by_size_keeps_order_witness :
  concat [[10; 11]; [12; 13]; [14]] = [10; 11; 12; 13; 14].
Proof.
  apply (@batch_by_size_keeps_order [10; 11; 12; 13; 14]
           (fun idx => idx - 7) 12 2 1 [[10; 11]; [12; 13]; [14]]).
  vm_compute. reflexivity.
Defined.

(** X16.  With [max_tokens >= 0] and a non-zero
    [required_batch_size_multiple], [batch_by_size] fails its assertion as
    soon as a sample has more than [max_tokens] tokens, and returns
    otherwise: a sample is never dropped or truncated to fit. *)
Theorem batch_by_size_asserts
        (indices : list Z) (num_tokens_fn : Z -> Z)
        (max_tokens max_sentences bsz_mult : Z) :
  0 <= max_tokens -> bsz_mult <> 0 ->
  ((exists idx, In idx indices /\ max_tokens < num_tokens_fn idx) ->
   Utils.batch_by_size indices num_tokens_fn max_tokens max_sentences bsz_mult
   = Utils.Raise Utils.AssertionError)
  /\ ((forall idx, In idx indices -> num_tokens_fn idx <= max_tokens) ->
      exists bs,
        Utils.batch_by_size indices num_tokens_fn max_tokens max_sentences
                            bsz_mult
        = Utils.Ok bs).
Proof.
  intros Hmt Hbm.
  assert (Hloop : forall indices st,
    lens_bounded max_tokens st ->
    ((exists idx, In idx indices /\ max_tokens < num_tokens_fn idx) ->
     Utils.batch_loop num_tokens_fn max_tokens max_sentences bsz_mult indices st
     = Utils.Raise Utils.AssertionError)
    /\ ((forall idx, In idx indices -> num_tokens_fn idx <= max_tokens) ->
        exists st',
          Utils.batch_loop num_tokens_fn max_tokens max_sentences bsz_mult
                           indices st = Utils.Ok st')).
  { clear indices. induction indices as [|idx rest IH]; intros st Hst.
    - split; [intros (x & [] & _) | intros _; simpl; eauto].
    - destruct (batch_step_asserts num_tokens_fn max_sentences idx Hmt Hbm Hst)
        as [Hbad Hgood].
      split.
      + intros (x & Hx & Hbig). simpl.
        destruct (Z.ltb_spec max_tokens (num_tokens_fn idx)) as [Hlt|Hle].
        * now rewrite (Hbad Hlt).
        * destruct (Hgood Hle) as (st' & -> & Hst').
          apply (IH st' Hst'). destruct Hx as [->|Hx]; [lia|]. eauto.
      + intros Hall. simpl.
        destruct (Hgood (Hall idx (or_introl eq_refl))) as (st' & -> & Hst').
        apply (IH st' Hst'). intros x Hx. apply Hall. now right. }
  assert (H0 : lens_bounded max_tokens
                 {| Utils.sample_len := 0; Utils.sample_lens := [];
                    Utils.batch := []; Utils.batches := [] |}).
  { split; simpl; [lia | tauto]. }
  destruct (Hloop indices _ H0) as [Hbad Hgood]. unfold Utils.batch_by_size.
  split.
  - intros Hex. now rewrite (Hbad Hex).
  - intros Hall. destruct (Hgood Hall) as (st' & ->).
    destruct (0 <? length (Utils.batch st'))%nat; eauto.
Qed.

Lemma batch_by_size_asserts_witness :
  ((exists idx, In idx [10; 11; 12] /\ 12 < (fun idx => idx - 7) idx) ->
   Utils.batch_by_size [10; 11; 12] (fun idx => idx - 7) 12 2 1
   = Utils.Raise Utils.AssertionError)
  /\ ((forall idx, In idx [10; 11; 12] -> (fun idx => idx - 7) idx <= 12) ->
      exists bs,
        Utils.batch_by_size [10; 11; 12] (fun idx => idx - 7) 12 2 1
        = Utils.Ok bs).
Proof.
  apply (@batch_by_size_asserts [10; 11; 12] (fun idx => idx - 7) 12 2 1).
  - lia.
  - lia.
Defined.

Section BatchBudget.

Import Utils.

Variable num_tokens_fn : Z -> Z.
Variables max_tokens max_sentences : Z.

(** A batch that fits: it is not empty, it has at most [max_sentences]
    samples (when that is at least 1), and padded to its longest sample it
    has at most [max_tokens] tokens. *)
Definition batch_fits (bt : list Z) : Prop :=
  bt <> []
  /\ (1 <= max_sentences -> Z.of_nat (length bt) <= max_sentences)
  /\ forall x, In x bt -> Z.of_nat (length bt) * num_tokens_fn x <= max_tokens.

Definition state_fits (st : loop_state) : Prop :=
  length (sample_lens st) = length (batch st)
  /\ (forall x, In x (batch st) -> num_tokens_fn x <= sample_len st)
  /\ (batch st <> [] ->
      Z.of_nat (length (batch st)) * sample_len st <= max_tokens)
  /\ (1 <= max_sentences -> Z.of_nat (length (batch st)) <= max_sentences)
  /\ forall bt, In bt (batches st) -> batch_fits bt.

Lemma pending_batch_fits (st : loop_state) :
  state_fits st -> batch st <> [] -> batch_fits (batch st).
Proof.
  intros (Hlen & Hmem & Htok & Hsent & _) Hne. split; [auto|]. split; [auto|].
  intros x Hx. specialize (Hmem x Hx). specialize (Htok Hne). nia.
Qed.

Lemma batch_step_fits (st st' : loop_state) (idx : Z) :
  state_fits st ->
  batch_step num_tokens_fn max_tokens max_sentences 1 st idx = Ok st' ->
  state_fits st'.
Proof.
  intros Hst. pose proof Hst as (Hlen & Hmem & Htok & Hsent & Hold).
  unfold batch_step.
  destruct (Z.ltb_spec max_tokens (Z.max (sample_len st) (num_tokens_fn idx)))
    as [|Hassert]; [discriminate|].
  rewrite Z.div_1_r, Z.mod_1_r, Z.mul_1_l.
  replace (Z.to_nat (Z.max (Z.of_nat (length (batch st))) 0))
    with (length (batch st)) by lia.
  assert (Hsk : skipn (length (batch st)) (sample_lens st ++ [num_tokens_fn idx])
                = [num_tokens_fn idx]).
  { rewrite <- Hlen, skipn_app, skipn_all, Nat.sub_diag. reflexivity. }
  rewrite firstn_all, skipn_all, !Hsk.
  cbn [app Z.eqb max_or_zero fold_left].
  assert (Hgrow : (batch st = [] \/
                   (Z.of_nat (length (batch st)) + 1)
                   * Z.max (sample_len st) (num_tokens_fn idx) <= max_tokens
                   /\ Z.of_nat (length (batch st)) <> max_sentences) ->
                  state_fits
                    {| sample_len := Z.max (sample_len st) (num_tokens_fn idx);
                       sample_lens := sample_lens st ++ [num_tokens_fn idx];
                       batch := batch st ++ [idx];
                       batches := batches st |}).
  { intros Hcase. unfold state_fits. cbn [sample_len sample_lens batch batches].
    split; [|split; [|split; [|split]]].
    - now rewrite !length_app, Hlen.
    - intros x Hx. apply in_app_or in Hx. destruct Hx as [Hx|[<-|[]]].
      + specialize (Hmem x Hx). lia.
      + lia.
    - intros _. rewrite length_app. cbn [length].
      rewrite Nat2Z.inj_add. change (Z.of_nat 1) with 1.
      destruct Hcase as [E|[Hfit _]].
      + rewrite E. cbn [length]. change (Z.of_nat 0) with 0. lia.
      + lia.
    - intros H1. rewrite length_app. cbn [length]. specialize (Hsent H1).
      rewrite Nat2Z.inj_add. change (Z.of_nat 1) with 1.
      destruct Hcase as [E|[_ Hms]].
      + rewrite E. cbn [length]. change (Z.of_nat 0) with 0. lia.
      + lia.
    - exact Hold. }
  assert (Hflush : batch st <> [] ->
                   state_fits
                     {| sample_len := num_tokens_fn idx;
                        sample_lens := [num_tokens_fn idx];
                        batch := [idx];
                        batches := batches st ++ [batch st] |}).
  { intros Hne. unfold state_fits. cbn [sample_len sample_lens batch batches].
    split; [|split; [|split; [|split]]].
    - reflexivity.
    - intros x [<-|[]]. lia.
    - intros _. cbn [length]. lia.
    - intros H1. cbn [length]. lia.
    - intros bt Hbt. apply in_app_or in Hbt. destruct Hbt as [Hbt|[<-|[]]].
      + now apply Hold.
      + now apply pending_batch_fits. }
  unfold _is_batch_full.
  destruct (Nat.eqb_spec (length (batch st)) 0) as [Hzero|Hpos].
  - intros E. injection E as <-. apply Hgrow. left.
    now apply length_zero_iff_nil.
  - assert (Hne : batch st <> [])
      by (intros E; rewrite E in Hpos; now simpl in Hpos).
    destruct (Z.eqb_spec (Z.of_nat (length (batch st))) max_sentences) as [Hms|Hms].
    + intros E. injection E as <-. now apply Hflush.
    + destruct (Z.ltb_spec max_tokens
                  ((Z.of_nat (length (batch st)) + 1)
                   * Z.max (sample_len st) (num_tokens_fn idx))) as [Hbig|Hfit].
      * intros E. injection E as <-. now apply Hflush.
      * intros E. injection E as <-. apply Hgrow. right. split; auto.
Qed.

Lemma batch_loop_fits (indices : list Z) (st st' : loop_state) :
  state_fits st ->
  batch_loop num_tokens_fn max_tokens max_sentences 1 indices st = Ok st' ->
  state_fits st'.
Proof.
  revert st. induction indices as [|idx rest IH]; intros st Hst; simpl.
  - intros E. now injection E as <-.
  - destruct (batch_step num_tokens_fn max_tokens max_sentences 1 st idx)
      as [st1|e] eqn:E1; [|discriminate].
    apply IH. now apply (@batch_step_fits st st1 idx).
Qed.

End BatchBudget.

(** X17.  With the default [required_batch_size_multiple = 1], every batch
    that [batch_by_size] returns is non-empty, has at most [max_sentences]
    samples (when [max_sentences >= 1]), and stays within the token budget
    once padded: its size times the token count of any of its samples is at
    most [max_tokens]. *)
Theorem batch_by_size_respects_budget
        (indices : list Z) (num_tokens_fn : Z -> Z)
        (max_tokens max_sentences : Z) (bs : list (list Z)) (bt : list Z) :
  Utils.batch_by_size indices num_tokens_fn max_tokens max_sentences 1
  = Utils.Ok bs ->
  In bt bs ->
  bt <> []
  /\ (1 <= max_sentences -> Z.of_nat (length bt) <= max_sentences)
  /\ forall x, In x bt -> Z.of_nat (length bt) * num_tokens_fn x <= max_tokens.
Proof.
  unfold Utils.batch_by_size.
  destruct (Utils.batch_loop _ _ _ _ _ _) as [st|e] eqn:E; [|discriminate].
  assert (Hst : state_fits num_tokens_fn max_tokens max_sentences st).
  { apply (batch_loop_fits (num_tokens_fn := num_tokens_fn) indices
             (st := {| Utils.sample_len := 0; Utils.sample_lens := [];
                       Utils.batch := []; Utils.batches := [] |})); auto.
    unfold state_fits. cbn.
    split; [reflexivity|]. split; [intros x []|].
    split; [intros H0; congruence|]. split; [lia|]. intros bt' []. }
  destruct (Nat.ltb_spec 0 (length (Utils.batch st))) as [Hpos|Hzero];
    intros Hbs Hin; injection Hbs as <-.
  - apply in_app_or in Hin. destruct Hin as [Hin|[<-|[]]].
    + now apply Hst.
    + apply (pending_batch_fits Hst). intros E0. rewrite E0 in Hpos.
      simpl in Hpos. lia.
  - now apply Hst.
Qed.

Lemma batch_by_size_respects_budget_witness :
  [12; 13] <> []
  /\ (1 <= 2 -> Z.of_nat (length [12; 13]) <= 2)
  /\ forall x, In x [12; 13] ->
               Z.of_nat (length [12; 13]) * (fun idx => idx - 7) x <= 12.
Proof.
  apply (@batch_by_size_respects_budget [10; 11; 12; 13; 14]
           (fun idx => idx - 7) 12 2 [[10; 11]; [12; 13]; [14]] [12; 13]).
  - vm_compute. reflexivity.
  - simpl. tauto.
Defined.

(** ** [make_positions] *)

Lemma to_int32_small z :
  - 2147483648 <= z < 2147483648 -> Utils.to_int 32 z = z.
Proof.
  intros Hz. unfold Utils.to_int.
  change (2 ^ (32 - 1)) with 2147483648. change (2 ^ 32) with 4294967296.
  rewrite Z.mod_small; lia.
Qed.

Lemma to_int64_small z :
  - 9223372036854775808 <= z < 9223372036854775808 -> Utils.to_int 64 z = z.
Proof.
  intros Hz. unfold Utils.to_int.
  change (2 ^ (64 - 1)) with 9223372036854775808.
  change (2 ^ 64) with 18446744073709551616.
  rewrite Z.mod_small; lia.
Qed.

(** The non-padding symbols among the first [i + 1] of a row. *)
Definition symbols_up_to (row : list Z) (padding_idx : Z) (i : nat) : nat :=
  length (filter (fun x => negb (x =? padding_idx)) (firstn (S i) row)).

Lemma nth_cumsum_flags (f : Z -> bool) (row : list Z) (c : Z) (i : nat) :
  (i < length row)%nat ->
  nth i (cumsum_from c (map (fun x => if f x then 1 else 0) row)) 0
  = c + Z.of_nat (length (filter f (firstn (S i) row))).
Proof.
  revert c i. induction row as [|x row IH]; intros c i Hi; simpl in Hi; [lia|].
  destruct i as [|i].
  - cbn [map cumsum_from nth firstn filter].
    destruct (f x); simpl; lia.
  - change (nth (S i) (cumsum_from c (map (fun x => if f x then 1 else 0)
                                          (x :: row))) 0)
      with (nth i (cumsum_from (c + (if f x then 1 else 0))
                               (map (fun x => if f x then 1 else 0) row)) 0).
    rewrite IH by lia.
    change (firstn (S (S i)) (x :: row)) with (x :: firstn (S i) row).
    cbn [filter]. destruct (f x); cbn [length]; lia.
Qed.

Lemma symbols_up_to_le row pad i : (symbols_up_to row pad i <= S i)%nat.
Proof.
  unfold symbols_up_to.
  etransitivity; [apply filter_length_le|]. apply firstn_le_length.
Qed.

Lemma symbols_up_to_pos row pad i :
  (i < length row)%nat -> nth i row pad <> pad ->
  (1 <= symbols_up_to row pad i)%nat.
Proof.
  intros Hi Hne. unfold symbols_up_to.
  assert (Hin : In (nth i row pad)
                   (filter (fun x => negb (x =? pad)) (firstn (S i) row))).
  { apply filter_In. split.
    - replace (nth i row pad) with (nth i (firstn (S i) row) pad).
      + apply nth_In. rewrite length_firstn. lia.
      + rewrite nth_firstn. destruct (Nat.ltb_spec i (S i)); [reflexivity | lia].
    - apply negb_true_iff, Z.eqb_neq, Hne. }
  destruct (filter _ _); [contradiction | simpl; lia].
Qed.

Lemma nth_make_positions_row (row : list Z) (pad : Z) (i : nat) :
  (i < length row)%nat ->
  Z.of_nat (length row) < 2147483648 ->
  - 9223372036854775808 <= pad ->
  pad + Z.of_nat (length row) < 9223372036854775808 ->
  nth i (Utils.make_positions_row row pad) 0
  = if nth i row 0 =? pad then pad
    else pad + Z.of_nat (symbols_up_to row pad i).
Proof.
  intros Hi H32 Hlo Hhi. unfold Utils.make_positions_row.
  set (mask := map (fun x => if x =? pad then 0 else 1) row).
  change (map _ (combine (cumsum mask) mask))
    with (zip_with (fun c m => Utils.to_int 64 (Utils.to_int 32
                                  (Utils.to_int 32 c * m) + pad))
                   (cumsum mask) mask).
  assert (Lmask : length mask = length row) by (unfold mask; apply length_map).
  rewrite nth_zip_with with (d1 := 0) (d2 := 0);
    [|unfold cumsum; rewrite length_cumsum_from; lia|lia].
  assert (Hm : nth i mask 0 = if nth i row 0 =? pad then 0 else 1).
  { unfold mask. now rewrite nth_map_in with (d := 0). }
  assert (Hc : nth i (cumsum mask) 0 = Z.of_nat (symbols_up_to row pad i)).
  { unfold cumsum, mask.
    rewrite (map_ext _ (fun x => if negb (x =? pad) then 1 else 0))
      by (intros x; now destruct (x =? pad)).
    rewrite (nth_cumsum_flags (fun x => negb (x =? pad))) by assumption.
    unfold symbols_up_to. lia. }
  rewrite Hm, Hc. pose proof (symbols_up_to_le row pad i) as Hle.
  rewrite (@to_int32_small (Z.of_nat (symbols_up_to row pad i))) by lia.
  destruct (nth i row 0 =? pad).
  - rewrite Z.mul_0_r, to_int32_small by lia. rewrite to_int64_small; lia.
  - rewrite Z.mul_1_r, to_int32_small by lia. rewrite to_int64_small; lia.
Qed.

(** X18.  [make_positions] numbers the non-padding symbols of each row from
    [padding_idx + 1], in order and without gaps, and leaves [padding_idx]
    at every padding symbol: the [k]-th non-padding symbol of a row gets
    [padding_idx + k].  So a position is [padding_idx] exactly at a padding
    symbol.  (Rows shorter than [2^31], so that the 32-bit running count is
    exact; [padding_idx] and the positions within 64 bits.) *)
Theorem make_positions_numbers
        (tensor : list (list Z)) (padding_idx : Z) (b i : nat) :
  let row := nth b tensor [] in
  (b < length tensor)%nat -> (i < length row)%nat ->
  Z.of_nat (length row) < 2147483648 ->
  - 9223372036854775808 <= padding_idx ->
  padding_idx + Z.of_nat (length row) < 9223372036854775808 ->
  let out := Utils.make_positions tensor padding_idx in
  length out = length tensor
  /\ length (nth b out []) = length row
  /\ nth i (nth b out []) 0
     = (if nth i row 0 =? padding_idx then padding_idx
        else padding_idx + Z.of_nat (symbols_up_to row padding_idx i))
  /\ (nth i (nth b out []) 0 = padding_idx <-> nth i row 0 = padding_idx)
  /\ (nth i row 0 <> padding_idx ->
      (1 <= symbols_up_to row padding_idx i <= S i)%nat).
Proof.
  intros row Hb Hi H32 Hlo Hhi out.
  assert (Hrow : nth b out [] = Utils.make_positions_row row padding_idx).
  { unfold out, Utils.make_positions. now rewrite nth_map_in with (d := []). }
  assert (Hpos : nth i row 0 <> padding_idx ->
                 (1 <= symbols_up_to row padding_idx i <= S i)%nat).
  { intros Hne. split; [|apply symbols_up_to_le].
    apply symbols_up_to_pos; auto.
    now rewrite (nth_indep _ padding_idx 0). }
  split; [unfold out, Utils.make_positions; apply length_map|].
  split.
  { rewrite Hrow. unfold Utils.make_positions_row.
    rewrite length_map, length_combine. unfold cumsum.
    rewrite length_cumsum_from, !length_map. lia. }
  rewrite Hrow, nth_make_positions_row by assumption.
  split; [reflexivity|]. split; [|exact Hpos].
  destruct (Z.eqb_spec (nth i row 0) padding_idx) as [E|E].
  - tauto.
  - specialize (Hpos E). split; [lia | contradiction].
Qed.

Lemma make_positions_numbers_witness :
  let row := nth 0 [[7; 0; 0; 9; 4; 0]] [] in
  let out := Utils.make_positions [[7; 0; 0; 9; 4; 0]] 0 in
  length out = length [[7; 0; 0; 9; 4; 0]]
  /\ length (nth 0 out []) = length row
  /\ nth 3 (nth 0 out []) 0
     = (if nth 3 row 0 =? 0 then 0
        else 0 + Z.of_nat (symbols_up_to row 0 3))
  /\ (nth 3 (nth 0 out []) 0 = 0 <-> nth 3 row 0 = 0)
  /\ (nth 3 row 0 <> 0 -> (1 <= symbols_up_to row 0 3 <= 4)%nat).
Proof.
  apply (@make_positions_numbers [[7; 0; 0; 9; 4; 0]] 0 0 3).
  - simpl. lia.
  - simpl. lia.
  - simpl. lia.
  - lia.
  - simpl. lia.
Defined.

Example make_positions_example :
  Utils.make_positions [[7; 0; 0; 9; 4; 0]] 0 = [[1; 0; 0; 2; 3; 0]].
Proof. vm_compute. reflexivity. Qed.

(** ** [collate_nd] and [remove_padding] *)

(** The longest sequence of a list of sequences. *)
Definition longest (values : list (list Z)) : nat :=
  Z.to_nat (Utils.max_or_zero (map (fun v => Z.of_nat (length v)) values)).

Lemma longest_ge (values : list (list Z)) (v : list Z) :
  In v values -> (length v <= longest values)%nat.
Proof.
  intros Hv. unfold longest.
  assert (Z.of_nat (length v)
          <= Utils.max_or_zero (map (fun v => Z.of_nat (length v)) values)).
  { apply max_or_zero_ge. apply in_map_iff. eauto. }
  lia.
Qed.

Lemma longest_attained (values : list (list Z)) :
  values <> [] -> exists v, In v values /\ length v = longest values.
Proof.
  intros Hne. unfold longest.
  assert (Hin : In (Utils.max_or_zero (map (fun v => Z.of_nat (length v)) values))
                   (map (fun v => Z.of_nat (length v)) values)).
  { apply max_or_zero_In. destruct values; [congruence | discriminate]. }
  apply in_map_iff in Hin. destruct Hin as (v & E & Hv).
  exists v. split; auto. rewrite <- E. lia.
Qed.

(** X19.  [collate_nd] of a non-empty list of sequences, without [max_len],
    returns one row per sequence, every row as long as the longest
    sequence; row [i] starts with sequence [i] and holds [pad_value] after
    it.  Of an empty list it raises ([ValueError] without [max_len],
    [IndexError] with one). *)
Theorem collate_nd_pads
        (values : list (list Z)) (pad_value : Z) :
  (values = [] ->
   Utils.collate_nd values pad_value None = Utils.Raise Utils.ValueError
   /\ forall m, Utils.collate_nd values pad_value (Some m)
                = Utils.Raise Utils.IndexError)
  /\ (values <> [] ->
      exists res,
        Utils.collate_nd values pad_value None = Utils.Ok res
        /\ length res = length values
        /\ (exists v, In v values /\ length v = longest values)
        /\ forall i, (i < length values)%nat ->
             let v := nth i values [] in
             length (nth i res []) = longest values
             /\ firstn (length v) (nth i res []) = v
             /\ forall k, (length v <= k < longest values)%nat ->
                          nth k (nth i res []) 0 = pad_value).
Proof.
  split; [intros ->; split; reflexivity|].
  intros Hne. unfold Utils.collate_nd.
  destruct values as [|v0 rest] eqn:Ev; [congruence|]. rewrite <- Ev in *.
  set (size := Utils.max_or_zero (map (fun v => Z.of_nat (length v)) values)).
  assert (Hsize : forall v, In v values -> Z.of_nat (length v) <= size).
  { intros v Hv. apply max_or_zero_ge. apply in_map_iff. eauto. }
  assert (H0 : 0 <= size).
  { specialize (Hsize v0). rewrite Ev in Hsize. specialize (Hsize (or_introl eq_refl)).
    lia. }
  destruct (Z.ltb_spec size 0); [lia|].
  assert (Hex : existsb (fun v => (size <? Z.of_nat (length v))
                                  && negb (length v =? 1)%nat) values = false).
  { destruct (existsb _ values) eqn:E; auto.
    apply existsb_exists in E. destruct E as (v & Hv & Hb).
    apply andb_true_iff in Hb. destruct Hb as [Hb _].
    apply Z.ltb_lt in Hb. specialize (Hsize v Hv). lia. }
  rewrite Hex. eexists. split; [reflexivity|].
  split; [apply length_map|]. split; [now apply longest_attained|].
  intros i Hi. set (v := nth i values []).
  assert (Hv : In v values) by (apply nth_In; exact Hi).
  pose proof (longest_ge values v Hv) as Hle.
  rewrite nth_map_in with (d := []) by assumption. fold v.
  change (Z.to_nat size) with (longest values).
  rewrite firstn_all2 by assumption.
  split; [rewrite length_app, repeat_length; lia|].
  split.
  - rewrite firstn_app, Nat.sub_diag, firstn_all. simpl. apply app_nil_r.
  - intros k Hk. rewrite app_nth2 by lia. apply nth_repeat_lt. lia.
Qed.

Example collate_nd_example :
  Utils.collate_nd [[1; 2; 3]; [4]; []] 0 None
  = Utils.Ok [[1; 2; 3]; [4; 0; 0]; [0; 0; 0]]
  /\ Utils.collate_nd [] 0 None = Utils.Raise Utils.ValueError
  /\ Utils.collate_nd [[1; 2; 3]; [4]] 0 (Some 2)
     = Utils.Raise Utils.RuntimeError.
Proof. repeat split; vm_compute; reflexivity. Qed.

Lemma filter_all {A : Type} (f : A -> bool) (l : list A) :
  (forall x, In x l -> f x = true) -> filter f l = l.
Proof.
  induction l as [|a l IH]; simpl; intros H; auto.
  rewrite (H a) by auto. f_equal. apply IH. auto.
Qed.

(** X20.  Padding and unpadding compose to the identity: a sequence that
    holds no [pad_value] is recovered from its row of [collate_nd] (without
    [max_len]) by [remove_padding] with the same value. *)
Theorem collate_then_remove_padding
        (values res : list (list Z)) (pad_value : Z) (i : nat) :
  Utils.collate_nd values pad_value None = Utils.Ok res ->
  (i < length values)%nat ->
  (forall e, In e (nth i values []) -> e <> pad_value) ->
  Utils.remove_padding (Utils.Array1 (nth i res [])) pad_value
  = Utils.Ok (Utils.Array1 (nth i values [])).
Proof.
  intros Hres Hi Hfree.
  destruct values as [|v0 rest] eqn:Ev; [discriminate|]. rewrite <- Ev in *.
  assert (Hne : values <> []) by (rewrite Ev; discriminate).
  unfold Utils.collate_nd in Hres. rewrite Ev in Hres. rewrite <- Ev in Hres.
  destruct (_ <? 0); [discriminate|].
  destruct (existsb _ values); [discriminate|].
  injection Hres as <-.
  assert (Hv : In (nth i values []) values) by (apply nth_In; exact Hi).
  pose proof (longest_ge values _ Hv) as Hle.
  rewrite nth_map_in with (d := []) by assumption.
  change (Z.to_nat (Utils.max_or_zero
                      (map (fun v => Z.of_nat (length v)) values)))
    with (longest values).
  rewrite firstn_all2 by assumption.
  unfold Utils.remove_padding. do 2 f_equal.
  rewrite filter_app, filter_all, filter_none.
  - apply app_nil_r.
  - intros x Hx. apply repeat_spec in Hx. subst x.
    apply negb_false_iff, Z.eqb_refl.
  - intros x Hx. apply negb_true_iff, Z.eqb_neq. now apply Hfree.
Qed.

Lemma collate_then_remove_padding_witness :
  Utils.remove_padding
    (Utils.Array1 (nth 1 [[1; 2; 3]; [4; 0; 0]; [0; 0; 0]] [])) 0
  = Utils.Ok (Utils.Array1 (nth 1 [[1; 2; 3]; [4]; []] [])).
Proof.
  apply (@collate_then_remove_padding [[1; 2; 3]; [4]; []]
           [[1; 2; 3]; [4; 0; 0]; [0; 0; 0]] 0 1).
  - vm_compute. reflexivity.
  - simpl. lia.
  - intros e [<-|[]]. discriminate.
Defined.





(** ** The helpers of Strategy B on their own *)

Lemma segment_value_empty (seq_len : nat) (ids seq : list Z) (s : Z) :
  length ids = seq_len -> length seq = seq_len -> (0 < seq_len)%nat ->
  (forall l, (l < seq_len)%nat -> (nth l ids (s + 1) =? s) = false) ->
  StrategyB.segment_value seq_len ids seq s = sum seq.
Proof.
  intros Hids Hseq Hpos Hnone.
  unfold StrategyB.segment_value, StrategyB.values_masked,
    StrategyB.first_pos_mask.
  rewrite (@segment_start_empty seq_len ids s Hids Hpos Hnone).
  f_equal. apply (nth_ext _ _ 0 0).
  - rewrite length_zip_with, length_map, (@length_pos_masked seq_len ids s Hids). lia.
  - intros i Hi.
    rewrite length_zip_with, length_map, (@length_pos_masked seq_len ids s Hids) in Hi.
    rewrite nth_zip_with with (d1 := false) (d2 := 0);
      [|rewrite length_map, (@length_pos_masked seq_len ids s Hids); lia|lia].
    rewrite nth_map_in with (d := 0)
      by (rewrite (@length_pos_masked seq_len ids s Hids); lia).
    rewrite (@nth_pos_masked seq_len ids s Hids) by lia.
    rewrite Hnone by lia. now rewrite Z.eqb_refl.
Qed.

(** X22.  The value [compute_segment_info_parallel] gives a padding slot is
    not 0: it is the sum of the whole shifted row, because every frame
    matches the saturated start [L].  Such a slot is kept out only by its
    length 0: it passes the validity filter exactly when
    [min_segment_length <= 0] and the row has a non-zero sum. *)
Theorem padding_slot_value
        (L : nat) (mel2ph : list (list Z)) (msl : Z)
        (sts lens vals : list (list Z)) (b s : nat) :
  rect L mel2ph -> nonneg mel2ph ->
  StrategyB.segment_table mel2ph = Some (sts, lens, vals) ->
  (b < length mel2ph)%nat ->
  (length (StrategyA.starts (map shift (nth b mel2ph []))) <= s
   < length (nth b vals []))%nat ->
  nth s (nth b vals []) 0 = sum (map shift (nth b mel2ph []))
  /\ (eligible msl (nth s (nth b vals []) 0) (nth s (nth b lens []) 0) = true
      <-> msl <= 0 /\ sum (map shift (nth b mel2ph [])) <> 0).
Proof.
  intros Hrect Hnn Htbl Hb Hs.
  destruct (segment_table_Some_frames Hrect Htbl) as [Hne HL].
  destruct (segment_table_agrees Hrect Hnn Hne HL) as (tbl' & Htbl' & Hagree).
  assert (tbl' = (sts, lens, vals)) by congruence. subst tbl'.
  simpl in Hagree. destruct Hagree as (S & Lst & Lln & Lvl & Hrows).
  destruct (Hrows b Hb) as (Cst & Cln & Cvl & HkS & Hreal & Hpad).
  rewrite Cvl in Hs. destruct (Hpad s Hs) as [Es El].
  destruct (max_segment_id Hrect Hnn Hne HL) as (mx & Emx & Hmx0 & Hk).
  assert (Hval : nth s (nth b vals []) 0 = sum (map shift (nth b mel2ph []))).
  { unfold StrategyB.segment_table in Htbl. rewrite Emx in Htbl.
    rewrite (rect_hd Hrect Hne) in Htbl.
    apply (f_equal (fun o => match o with
                             | Some t => snd t
                             | None => vals
                             end)) in Htbl.
    cbv beta iota in Htbl. rename Htbl into Evals.
    assert (Hlen : length (shift_all mel2ph)
                   = length (map StrategyB.segment_ids (shift_all mel2ph)))
      by now rewrite length_map.
    assert (Hb' : (b < length (map StrategyB.segment_ids (shift_all mel2ph)))%nat)
      by (unfold shift_all; rewrite !length_map; exact Hb).
    pose proof (@nth_compute_values (shift_all mel2ph)
                  (map StrategyB.segment_ids (shift_all mel2ph)) (mx + 1) L
                  Hlen b Hb') as Hrow.
    rewrite Evals in Hrow. cbn [snd] in Hrow.
    assert (HS : S = Z.to_nat (mx + 1)).
    { rewrite <- Cvl, Hrow. now rewrite length_map, length_arange. }
    rewrite Hrow.
    rewrite nth_map_in with (d := 0) by (rewrite length_arange; lia).
    rewrite nth_arange by lia.
    rewrite (@nth_ids mel2ph b Hb), nth_shift_all.
    assert (Hseq : length (map shift (nth b mel2ph [])) = L)
      by now apply length_masked_row.
    apply segment_value_empty; auto.
    - rewrite length_segment_ids. exact Hseq.
    - intros l Hl. apply segment_ids_beyond.
      + apply nonneg_row_shift, nonneg_nth, Hnn.
      + lia.
      + lia. }
  split; auto.
  rewrite eligible_true_iff, Hval, El. tauto.
Qed.

Lemma padding_slot_value_witness :
  nth 1 (nth 1 [[2; 3]; [2; 4]] []) 0 = sum (map shift (nth 1 [[1; 2]; [1; 1]] []))
  /\ (eligible 0 (nth 1 (nth 1 [[2; 3]; [2; 4]] []) 0)
               (nth 1 (nth 1 [[1; 1]; [2; 0]] []) 0) = true
      <-> 0 <= 0 /\ sum (map shift (nth 1 [[1; 2]; [1; 1]] [])) <> 0).
Proof.
  apply (@padding_slot_value 2 [[1; 2]; [1; 1]] 0
           [[0; 1]; [0; 2]] [[1; 1]; [2; 0]] [[2; 3]; [2; 4]] 1 1).
  - repeat constructor.
  - repeat constructor; lia.
  - vm_compute. reflexivity.
  - simpl. lia.
  - vm_compute. split; apply le_n.
Defined.



(** * [training/acoustic_module.py]: the losses of the acoustic module *)

From Stdlib Require String.
Import String.StringSyntax.
Delimit Scope string_scope with string.

Module Acoustic.

(** The loss objects [build_losses_and_metrics] constructs. *)
Inductive loss : Type :=
| L1Loss
| MSELoss
| RectifiedFlowLoss (loss_type : String.string) (log_norm : bool).

(** The fields of the two configurations that the method reads. *)
Record config : Type := mk_config {
  use_shallow_diffusion : bool;
  aux_loss_type : String.string;
  main_loss_type : String.string;
  main_loss_log_norm : bool
}.

(** The calls of [self.register_loss(name, loss)], oldest first. *)
Definition registry : Type := list (String.string * loss).

(** [build_losses_and_metrics]: the calls of [register_loss] made, and the
    message of the [ValueError] raised, if one is. *)
Definition build_losses_and_metrics (cfg : config) (reg : registry)
  : registry * option String.string :=
  let after_aux : registry * option String.string :=
    if use_shallow_diffusion cfg then
      if String.eqb (aux_loss_type cfg) "L1"%string then
        (reg ++ [("aux_spec_loss"%string, L1Loss)], None)
      else if String.eqb (aux_loss_type cfg) "L2"%string then
        (reg ++ [("aux_spec_loss"%string, MSELoss)], None)
      else (reg, Some "Invalid spec_decoder.aux_loss_type"%string)
    else (reg, None) in
  match after_aux with
  | (reg1, Some msg) => (reg1, Some msg)
  | (reg1, None) =>
      if String.eqb (main_loss_type cfg) "L1"%string
         || String.eqb (main_loss_type cfg) "L2"%string
      then (reg1 ++ [("diff_spec_loss"%string,
                      RectifiedFlowLoss (main_loss_type cfg)
                                        (main_loss_log_norm cfg))], None)
      else (reg1, Some "Invalid spec_decoder.main_loss_type"%string)
  end.

Definition known (t : String.string) : Prop :=
  t = "L1"%string \/ t = "L2"%string.

End Acoustic.

Lemma known_eqb (t : String.string) :
  (String.eqb t "L1"%string || String.eqb t "L2"%string = true)
  <-> Acoustic.known t.
Proof.
  unfold Acoustic.known. rewrite orb_true_iff, !String.eqb_eq. tauto.
Qed.

(** X24.  [build_losses_and_metrics] raises [ValueError] exactly when
    [main_loss_type] is neither "L1" nor "L2", or shallow diffusion is on
    and [aux_loss_type] is neither; without shallow diffusion
    [aux_loss_type] is not looked at.  On success it registers
    [aux_spec_loss] (only with shallow diffusion) and then
    [diff_spec_loss].  An invalid [aux_loss_type] is reported first and
    before anything is registered; an invalid [main_loss_type] is reported
    after [aux_spec_loss] has been registered. *)
Theorem build_losses_outcome (cfg : Acoustic.config) (reg : Acoustic.registry) :
  let shallow := Acoustic.use_shallow_diffusion cfg in
  let aux := Acoustic.aux_loss_type cfg in
  let main := Acoustic.main_loss_type cfg in
  let aux_entry :=
    ("aux_spec_loss"%string,
     if String.eqb aux "L1"%string then Acoustic.L1Loss
     else Acoustic.MSELoss) in
  let diff_entry :=
    ("diff_spec_loss"%string,
     Acoustic.RectifiedFlowLoss main (Acoustic.main_loss_log_norm cfg)) in
  let out := Acoustic.build_losses_and_metrics cfg reg in
  (snd out = None
   <-> Acoustic.known main /\ (shallow = true -> Acoustic.known aux))
  /\ (shallow = true -> ~ Acoustic.known aux ->
      out = (reg, Some "Invalid spec_decoder.aux_loss_type"%string))
  /\ (shallow = true -> Acoustic.known aux -> ~ Acoustic.known main ->
      out = (reg ++ [aux_entry],
             Some "Invalid spec_decoder.main_loss_type"%string))
  /\ (shallow = false -> ~ Acoustic.known main ->
      out = (reg, Some "Invalid spec_decoder.main_loss_type"%string))
  /\ (snd out = None ->
      fst out = reg ++ (if shallow then [aux_entry] else []) ++ [diff_entry]).
Proof.
  cbv zeta. unfold Acoustic.build_losses_and_metrics.
  pose proof (known_eqb (Acoustic.main_loss_type cfg)) as Hmain.
  pose proof (known_eqb (Acoustic.aux_loss_type cfg)) as Haux.
  unfold Acoustic.known in *.
  destruct (Acoustic.use_shallow_diffusion cfg);
    destruct (String.eqb_spec (Acoustic.aux_loss_type cfg) "L1"%string) as [A1|A1];
    destruct (String.eqb_spec (Acoustic.aux_loss_type cfg) "L2"%string) as [A2|A2];
    destruct (String.eqb (Acoustic.main_loss_type cfg) "L1"%string
              || String.eqb (Acoustic.main_loss_type cfg) "L2"%string) eqn:M;
    cbn [fst snd orb];
    repeat split; intros;
    try discriminate; try reflexivity; try tauto;
    try (rewrite <- app_assoc; reflexivity);
    try (exfalso; intuition congruence).
Qed.
